(** * ADMM QP solver ([qp_solver_sparse::QPSolverSparse]): model and properties

    The solver is a C++ class template over the dimensions [n], [m] and the
    element type [Scalar] (default [double]).  The model keeps that shape:
    the scalar type is an interface ([Scalar]) with an exact instance
    (rationals) and the IEEE binary64 instance; the dimensions are section
    variables; a fixed-size Eigen vector or matrix is its list of
    coefficients; an Eigen expression is a function of the index, evaluated
    on assignment; and the linear solver (an Eigen factorization object,
    not part of the class) is a section variable with the three operations
    the class calls on it.  The loop counter is an integer: [solve] is the
    run with a counter that does not overflow, [solve_int] the run as the
    machine executes it, with a 32-bit counter that wraps and remainders
    that trap; under the settings of [defined_run] the two agree. *)

From Stdlib Require Import ZArith Bool List Lia QArith Qcanon Floats Lqa.
Import ListNotations.

#[local] Set Warnings "-inexact-float".
Local Open Scope Z_scope.

(** ** The element type *)

(** What the class template asks of [Scalar]: arithmetic, the two comparisons
    the code uses ([<], [<=]; [a > b] is read as [b < a]), and the <cmath>
    functions [fabs] (through Eigen's [lpNorm]), [sqrt], [fmax], [fmin].
    [s_lit k e] is the decimal literal [k]e[e] converted to [Scalar]. *)
Class Scalar (S : Type) : Type := {
  s_lit : Z -> Z -> S;
  s_add : S -> S -> S;
  s_sub : S -> S -> S;
  s_mul : S -> S -> S;
  s_div : S -> S -> S;
  s_opp : S -> S;
  s_lt : S -> S -> bool;
  s_le : S -> S -> bool;
  s_abs : S -> S;
  s_sqrt : S -> S;
  s_fmax : S -> S -> S;
  s_fmin : S -> S -> S
}.

Declare Scope scalar_scope.
Delimit Scope scalar_scope with sc.
Infix "+" := s_add : scalar_scope.
Infix "-" := s_sub : scalar_scope.
Infix "*" := s_mul : scalar_scope.
Infix "/" := s_div : scalar_scope.
Notation "- a" := (s_opp a) : scalar_scope.
Infix "<?" := s_lt : scalar_scope.
Infix "<=?" := s_le : scalar_scope.

Definition s_zero {S} `{Scalar S} : S := s_lit 0 0.
Definition s_one {S} `{Scalar S} : S := s_lit 1 0.
Definition s_gt {S} `{Scalar S} (a b : S) : bool := s_lt b a.
Infix ">?" := s_gt : scalar_scope.

(** The order and sign facts of an ordered field that the properties below
    rest on.  They hold for exact arithmetic (rationals, reals); IEEE
    arithmetic breaks the totality law at NaN. *)
Class ScalarLaws (S : Type) `{Scalar S} : Prop := {
  s_le_refl : forall a : S, s_le a a = true;
  s_lt_le : forall a b : S, s_lt a b = true -> s_le a b = true;
  s_nlt_le : forall a b : S, s_lt a b = false -> s_le b a = true;
  s_le_nlt : forall a b : S, s_le a b = true -> s_lt b a = false;
  s_le_antisym : forall a b : S, s_le a b = true -> s_le b a = true -> a = b;
  s_le_trans : forall a b c : S,
      s_le a b = true -> s_le b c = true -> s_le a c = true;
  s_lit_pos : forall k e, 0 < k -> s_lt s_zero (s_lit k e) = true;
  s_mul_pos : forall a b : S,
      s_lt s_zero a = true -> s_lt s_zero b = true ->
      s_lt s_zero (s_mul a b) = true;
  s_mul_m1 : forall a : S, s_mul (s_lit (-1) 0) a = s_opp a
}.

(** *** Exact rationals *)

Module QcScalar.

Definition lit (k e : Z) : Qc :=
  if 0 <=? e then Q2Qc (inject_Z (k * 10 ^ e))
  else Q2Qc (Qmake k (Z.to_pos (10 ^ (- e)))).

Definition lt (a b : Qc) : bool := negb (Qle_bool (this b) (this a)).
Definition le (a b : Qc) : bool := Qle_bool (this a) (this b).

Definition abs (a : Qc) : Qc := if lt a (Q2Qc 0) then Qcopp a else a.

(** Square root rounded down to a multiple of 1e-9 (a rational has no exact
    root in general). *)
Definition sqrt (a : Qc) : Qc :=
  let q := this a in
  Q2Qc (Qmake (Z.sqrt (Qnum q * 10 ^ 18 / Zpos (Qden q))) (Z.to_pos (10 ^ 9))).

Definition fmax (a b : Qc) : Qc := if lt a b then b else a.
Definition fmin (a b : Qc) : Qc := if lt b a then b else a.

End QcScalar.

(** [Qcdiv] is total, with [a / 0 = 0], where a [double] quotient by zero is
    an infinity or NaN: a property over the rationals that rests on the
    value of a quotient is stated where its divisor is not zero. *)
#[export] Instance Qc_Scalar : Scalar Qc := {|
  s_lit := QcScalar.lit;
  s_add := Qcplus;
  s_sub := Qcminus;
  s_mul := Qcmult;
  s_div := Qcdiv;
  s_opp := Qcopp;
  s_lt := QcScalar.lt;
  s_le := QcScalar.le;
  s_abs := QcScalar.abs;
  s_sqrt := QcScalar.sqrt;
  s_fmax := QcScalar.fmax;
  s_fmin := QcScalar.fmin
|}.

(** *** IEEE binary64, the default [Scalar = double] *)

Module F64Scalar.

Definition of_Z (k : Z) : float :=
  match k with
  | Z0 => PrimFloat.zero
  | Zpos p => PrimFloat.of_uint63 (Uint63.of_Z (Zpos p))
  | Zneg p => PrimFloat.opp (PrimFloat.of_uint63 (Uint63.of_Z (Zpos p)))
  end.

(** Correctly rounded for the literals of the class, whose mantissa and
    power of ten are both exact in binary64. *)
Definition lit (k e : Z) : float :=
  if 0 <=? e then PrimFloat.mul (of_Z k) (of_Z (10 ^ e))
  else PrimFloat.div (of_Z k) (of_Z (10 ^ (- e))).

(** C's [fmax] and [fmin]: a NaN argument is treated as missing. *)
Definition fmax (a b : float) : float :=
  if PrimFloat.is_nan a then b
  else if PrimFloat.is_nan b then a
  else if PrimFloat.ltb a b then b else a.
Definition fmin (a b : float) : float :=
  if PrimFloat.is_nan a then b
  else if PrimFloat.is_nan b then a
  else if PrimFloat.ltb b a then b else a.

End F64Scalar.

#[export] Instance F64_Scalar : Scalar float := {|
  s_lit := F64Scalar.lit;
  s_add := PrimFloat.add;
  s_sub := PrimFloat.sub;
  s_mul := PrimFloat.mul;
  s_div := PrimFloat.div;
  s_opp := PrimFloat.opp;
  s_lt := PrimFloat.ltb;
  s_le := PrimFloat.leb;
  s_abs := PrimFloat.abs;
  s_sqrt := PrimFloat.sqrt;
  s_fmax := F64Scalar.fmax;
  s_fmin := F64Scalar.fmin
|}.


(** ** Fixed-size storage and Eigen expressions *)

(** A fixed-size Eigen object owns all its coefficients: storage is a list
    read by [coeff] and written only by operations that produce every
    coefficient of the static size ([assign] for [dst = expr], [write] for
    [dst[i] = a]). *)
Section Storage.
Context {A : Type} (d : A).

Definition coeff (v : list A) (i : nat) : A := nth i v d.

Definition assign (k : nat) (e : nat -> A) : list A := map e (seq 0 k).

Definition write (k : nat) (v : list A) (i : nat) (a : A) : list A :=
  assign k (fun j => if Nat.eqb j i then a else coeff v j).

End Storage.

Definition vector (S : Type) : Type := list S.
Definition matrix (S : Type) : Type := list (list S).

Section Eigen.
Context {S : Type} `{Scalar S}.

(** An expression is evaluated coefficient by coefficient on assignment. *)
Definition vexpr : Type := nat -> S.
Definition mexpr : Type := nat -> nat -> S.

Definition vec (v : vector S) : vexpr := coeff s_zero v.
Definition mat (M : matrix S) : mexpr :=
  fun i j => coeff s_zero (coeff [] M i) j.

Definition vassign (k : nat) (e : vexpr) : vector S := assign k e.
Definition massign (r c : nat) (e : mexpr) : matrix S :=
  assign r (fun i => assign c (e i)).

Definition Zero : vexpr := fun _ => s_zero.
Definition Identity : mexpr :=
  fun i j => if Nat.eqb i j then s_one else s_zero.
Definition transpose (e : mexpr) : mexpr := fun i j => e j i.

Definition vadd (a b : vexpr) : vexpr := fun i => (a i + b i)%sc.
Definition vsub (a b : vexpr) : vexpr := fun i => (a i - b i)%sc.
Definition vscale (c : S) (a : vexpr) : vexpr := fun i => (c * a i)%sc.
Definition madd (a b : mexpr) : mexpr := fun i j => (a i j + b i j)%sc.
Definition mscale (c : S) (a : mexpr) : mexpr := fun i j => (c * a i j)%sc.

Definition cwiseProduct (a b : vexpr) : vexpr := fun i => (a i * b i)%sc.
Definition cwiseInverse (a : vexpr) : vexpr := fun i => (s_one / a i)%sc.
Definition cwiseAbs (a : vexpr) : vexpr := fun i => s_abs (a i).

(** [std::max(a, b)] and [std::min(a, b)], the scalar functors behind
    [cwiseMax] and [cwiseMin]. *)
Definition std_max (a b : S) : S := if (a <? b)%sc then b else a.
Definition std_min (a b : S) : S := if (b <? a)%sc then b else a.
Definition cwiseMax (a b : vexpr) : vexpr := fun i => std_max (a i) (b i).
Definition cwiseMin (a b : vexpr) : vexpr := fun i => std_min (a i) (b i).

(** Dense view of a diagonal expression: zero off the diagonal. *)
Definition asDiagonal (a : vexpr) : mexpr :=
  fun i j => if Nat.eqb i j then a i else s_zero.

(** [head<len>()] and [tail<len>()] of a vector of [k] coefficients. *)
Definition head (a : vexpr) : vexpr := a.
Definition tail (k len : nat) (a : vexpr) : vexpr :=
  fun i => a (k - len + i)%nat.

(** Reductions start from the first coefficient and visit the rest in
    index order. *)
Definition sum (k : nat) (a : vexpr) : S :=
  match k with
  | O => s_zero
  | Datatypes.S k' => fold_left (fun acc j => (acc + a j)%sc) (seq 1 k') (a O)
  end.

Definition maxCoeff (k : nat) (a : vexpr) : S :=
  match k with
  | O => s_zero
  | Datatypes.S k' =>
      fold_left (fun res j => if (a j >? res)%sc then a j else res)
                (seq 1 k') (a O)
  end.

Definition lpNorm_Infinity (k : nat) (a : vexpr) : S :=
  match k with
  | O => s_zero
  | _ => maxCoeff k (cwiseAbs a)
  end.

(** Product of a matrix with [c] columns and a vector. *)
Definition mat_vec (c : nat) (M : mexpr) (v : vexpr) : vexpr :=
  fun i => sum c (fun j => (M i j * v j)%sc).

(** Assignment to a block of a matrix with [r] rows and [c] columns: the
    block starts at [(r0, c0)] and has [h] rows and [w] columns. *)
Definition in_block (r0 c0 h w i j : nat) : bool :=
  (r0 <=? i)%nat && (i <? r0 + h)%nat && (c0 <=? j)%nat && (j <? c0 + w)%nat.

Definition block_assign (r c r0 c0 h w : nat) (K : matrix S) (e : mexpr)
  : matrix S :=
  massign r c (fun i j =>
    if in_block r0 c0 h w i j
    then e (i - r0)%nat (j - c0)%nat
    else mat K i j).

End Eigen.

Arguments vexpr : clear implicits.
Arguments mexpr : clear implicits.

(** ** Problem, settings, info *)

Module QP.
Record t (S : Type) : Type := mk {
  P : matrix S;
  q : vector S;
  A : matrix S;
  l : vector S;
  u : vector S
}.
Arguments mk {S}. Arguments P {S}. Arguments q {S}. Arguments A {S}.
Arguments l {S}. Arguments u {S}.
End QP.

Module Settings.
Record t (S : Type) : Type := mk {
  rho : S;
  sigma : S;
  alpha : S;
  eps_rel : S;
  eps_abs : S;
  max_iter : Z;
  check_termination : Z;
  warm_start : bool;
  adaptive_rho : bool;
  adaptive_rho_tolerance : S;
  adaptive_rho_interval : Z
}.
Arguments mk {S}. Arguments rho {S}. Arguments sigma {S}.
Arguments alpha {S}. Arguments eps_rel {S}. Arguments eps_abs {S}.
Arguments max_iter {S}. Arguments check_termination {S}.
Arguments warm_start {S}. Arguments adaptive_rho {S}.
Arguments adaptive_rho_tolerance {S}. Arguments adaptive_rho_interval {S}.

(** The member initializers of [qp_sover_settings_t]. *)
Definition default {S} `{Scalar S} : t S := {|
  rho := s_lit 1 (-1);
  sigma := s_lit 1 (-6);
  alpha := s_lit 10 (-1);
  eps_rel := s_lit 1 (-3);
  eps_abs := s_lit 1 (-3);
  max_iter := 1000;
  check_termination := 25;
  warm_start := false;
  adaptive_rho := false;
  adaptive_rho_tolerance := s_lit 5 0;
  adaptive_rho_interval := 25
|}.
End Settings.

Module Info.
Inductive status_t : Type := SOLVED | MAX_ITER.

Record t (S : Type) : Type := mk {
  status : status_t;
  iter : Z;
  res_prim : S;
  res_dual : S
}.
Arguments mk {S}. Arguments status {S}. Arguments iter {S}.
Arguments res_prim {S}. Arguments res_dual {S}.

Definition set_status {S} (i : t S) (s : status_t) : t S :=
  {| status := s; iter := iter i; res_prim := res_prim i;
     res_dual := res_dual i |}.
Definition set_iter {S} (i : t S) (k : Z) : t S :=
  {| status := status i; iter := k; res_prim := res_prim i;
     res_dual := res_dual i |}.
Definition set_res_prim {S} (i : t S) (r : S) : t S :=
  {| status := status i; iter := iter i; res_prim := r;
     res_dual := res_dual i |}.
Definition set_res_dual {S} (i : t S) (r : S) : t S :=
  {| status := status i; iter := iter i; res_prim := res_prim i;
     res_dual := r |}.
End Info.

Inductive constr_t : Type :=
| INEQUALITY_CONSTRAINT
| EQUALITY_CONSTRAINT
| LOOSE_BOUNDS.

(** The values of [Eigen::Lower] and [Eigen::Upper] in Eigen's [UpLoType]. *)
Definition Eigen_Lower : Z := 1.
Definition Eigen_Upper : Z := 2.

(** ** The solver object *)

Record QPSolverSparse (S LS : Type) : Type := mk_solver {
  iter : Z;
  x : vector S;
  z : vector S;
  y : vector S;
  x_tilde : vector S;
  z_tilde : vector S;
  z_prev : vector S;
  rho_vec : vector S;
  rho_inv_vec : vector S;
  rho : S;
  res_prim : S;
  res_dual : S;
  _max_Ax_z_norm : S;
  _max_Px_ATy_q_norm : S;
  constr_type : list constr_t;
  _settings : Settings.t S;
  _info : Info.t S;
  kkt_mat : matrix S;
  kkt_mat_sparse : matrix S;
  linear_solver : LS
}.
Arguments mk_solver {S LS}. Arguments iter {S LS}. Arguments x {S LS}.
Arguments z {S LS}. Arguments y {S LS}. Arguments x_tilde {S LS}.
Arguments z_tilde {S LS}. Arguments z_prev {S LS}. Arguments rho_vec {S LS}.
Arguments rho_inv_vec {S LS}. Arguments rho {S LS}. Arguments res_prim {S LS}.
Arguments res_dual {S LS}. Arguments _max_Ax_z_norm {S LS}.
Arguments _max_Px_ATy_q_norm {S LS}. Arguments constr_type {S LS}.
Arguments _settings {S LS}. Arguments _info {S LS}. Arguments kkt_mat {S LS}.
Arguments kkt_mat_sparse {S LS}. Arguments linear_solver {S LS}.

Section Setters.
Context {S LS : Type}.
Let solver : Type := QPSolverSparse S LS.

Definition set_iter (st : solver) (v : Z) : solver :=
  {|
  iter := v; x := x st; z := z st; y := y st; x_tilde := x_tilde st;
  z_tilde := z_tilde st; z_prev := z_prev st; rho_vec := rho_vec st;
  rho_inv_vec := rho_inv_vec st; rho := rho st; res_prim := res_prim st;
  res_dual := res_dual st; _max_Ax_z_norm := _max_Ax_z_norm st;
  _max_Px_ATy_q_norm := _max_Px_ATy_q_norm st;
  constr_type := constr_type st; _settings := _settings st;
  _info := _info st; kkt_mat := kkt_mat st;
  kkt_mat_sparse := kkt_mat_sparse st; linear_solver := linear_solver st
  |}.

Definition set_x (st : solver) (v : vector S) : solver :=
  {|
  iter := iter st; x := v; z := z st; y := y st; x_tilde := x_tilde st;
  z_tilde := z_tilde st; z_prev := z_prev st; rho_vec := rho_vec st;
  rho_inv_vec := rho_inv_vec st; rho := rho st; res_prim := res_prim st;
  res_dual := res_dual st; _max_Ax_z_norm := _max_Ax_z_norm st;
  _max_Px_ATy_q_norm := _max_Px_ATy_q_norm st;
  constr_type := constr_type st; _settings := _settings st;
  _info := _info st; kkt_mat := kkt_mat st;
  kkt_mat_sparse := kkt_mat_sparse st; linear_solver := linear_solver st
  |}.

Definition set_z (st : solver) (v : vector S) : solver :=
  {|
  iter := iter st; x := x st; z := v; y := y st; x_tilde := x_tilde st;
  z_tilde := z_tilde st; z_prev := z_prev st; rho_vec := rho_vec st;
  rho_inv_vec := rho_inv_vec st; rho := rho st; res_prim := res_prim st;
  res_dual := res_dual st; _max_Ax_z_norm := _max_Ax_z_norm st;
  _max_Px_ATy_q_norm := _max_Px_ATy_q_norm st;
  constr_type := constr_type st; _settings := _settings st;
  _info := _info st; kkt_mat := kkt_mat st;
  kkt_mat_sparse := kkt_mat_sparse st; linear_solver := linear_solver st
  |}.

Definition set_y (st : solver) (v : vector S) : solver :=
  {|
  iter := iter st; x := x st; z := z st; y := v; x_tilde := x_tilde st;
  z_tilde := z_tilde st; z_prev := z_prev st; rho_vec := rho_vec st;
  rho_inv_vec := rho_inv_vec st; rho := rho st; res_prim := res_prim st;
  res_dual := res_dual st; _max_Ax_z_norm := _max_Ax_z_norm st;
  _max_Px_ATy_q_norm := _max_Px_ATy_q_norm st;
  constr_type := constr_type st; _settings := _settings st;
  _info := _info st; kkt_mat := kkt_mat st;
  kkt_mat_sparse := kkt_mat_sparse st; linear_solver := linear_solver st
  |}.

Definition set_x_tilde (st : solver) (v : vector S) : solver :=
  {|
  iter := iter st; x := x st; z := z st; y := y st; x_tilde := v;
  z_tilde := z_tilde st; z_prev := z_prev st; rho_vec := rho_vec st;
  rho_inv_vec := rho_inv_vec st; rho := rho st; res_prim := res_prim st;
  res_dual := res_dual st; _max_Ax_z_norm := _max_Ax_z_norm st;
  _max_Px_ATy_q_norm := _max_Px_ATy_q_norm st;
  constr_type := constr_type st; _settings := _settings st;
  _info := _info st; kkt_mat := kkt_mat st;
  kkt_mat_sparse := kkt_mat_sparse st; linear_solver := linear_solver st
  |}.

Definition set_z_tilde (st : solver) (v : vector S) : solver :=
  {|
  iter := iter st; x := x st; z := z st; y := y st;
  x_tilde := x_tilde st; z_tilde := v; z_prev := z_prev st;
  rho_vec := rho_vec st; rho_inv_vec := rho_inv_vec st; rho := rho st;
  res_prim := res_prim st; res_dual := res_dual st;
  _max_Ax_z_norm := _max_Ax_z_norm st;
  _max_Px_ATy_q_norm := _max_Px_ATy_q_norm st;
  constr_type := constr_type st; _settings := _settings st;
  _info := _info st; kkt_mat := kkt_mat st;
  kkt_mat_sparse := kkt_mat_sparse st; linear_solver := linear_solver st
  |}.

Definition set_z_prev (st : solver) (v : vector S) : solver :=
  {|
  iter := iter st; x := x st; z := z st; y := y st;
  x_tilde := x_tilde st; z_tilde := z_tilde st; z_prev := v;
  rho_vec := rho_vec st; rho_inv_vec := rho_inv_vec st; rho := rho st;
  res_prim := res_prim st; res_dual := res_dual st;
  _max_Ax_z_norm := _max_Ax_z_norm st;
  _max_Px_ATy_q_norm := _max_Px_ATy_q_norm st;
  constr_type := constr_type st; _settings := _settings st;
  _info := _info st; kkt_mat := kkt_mat st;
  kkt_mat_sparse := kkt_mat_sparse st; linear_solver := linear_solver st
  |}.

Definition set_rho_vec (st : solver) (v : vector S) : solver :=
  {|
  iter := iter st; x := x st; z := z st; y := y st;
  x_tilde := x_tilde st; z_tilde := z_tilde st; z_prev := z_prev st;
  rho_vec := v; rho_inv_vec := rho_inv_vec st; rho := rho st;
  res_prim := res_prim st; res_dual := res_dual st;
  _max_Ax_z_norm := _max_Ax_z_norm st;
  _max_Px_ATy_q_norm := _max_Px_ATy_q_norm st;
  constr_type := constr_type st; _settings := _settings st;
  _info := _info st; kkt_mat := kkt_mat st;
  kkt_mat_sparse := kkt_mat_sparse st; linear_solver := linear_solver st
  |}.

Definition set_rho_inv_vec (st : solver) (v : vector S) : solver :=
  {|
  iter := iter st; x := x st; z := z st; y := y st;
  x_tilde := x_tilde st; z_tilde := z_tilde st; z_prev := z_prev st;
  rho_vec := rho_vec st; rho_inv_vec := v; rho := rho st;
  res_prim := res_prim st; res_dual := res_dual st;
  _max_Ax_z_norm := _max_Ax_z_norm st;
  _max_Px_ATy_q_norm := _max_Px_ATy_q_norm st;
  constr_type := constr_type st; _settings := _settings st;
  _info := _info st; kkt_mat := kkt_mat st;
  kkt_mat_sparse := kkt_mat_sparse st; linear_solver := linear_solver st
  |}.

Definition set_rho (st : solver) (v : S) : solver :=
  {|
  iter := iter st; x := x st; z := z st; y := y st;
  x_tilde := x_tilde st; z_tilde := z_tilde st; z_prev := z_prev st;
  rho_vec := rho_vec st; rho_inv_vec := rho_inv_vec st; rho := v;
  res_prim := res_prim st; res_dual := res_dual st;
  _max_Ax_z_norm := _max_Ax_z_norm st;
  _max_Px_ATy_q_norm := _max_Px_ATy_q_norm st;
  constr_type := constr_type st; _settings := _settings st;
  _info := _info st; kkt_mat := kkt_mat st;
  kkt_mat_sparse := kkt_mat_sparse st; linear_solver := linear_solver st
  |}.

Definition set_max_Ax_z_norm (st : solver) (v : S) : solver :=
  {|
  iter := iter st; x := x st; z := z st; y := y st;
  x_tilde := x_tilde st; z_tilde := z_tilde st; z_prev := z_prev st;
  rho_vec := rho_vec st; rho_inv_vec := rho_inv_vec st; rho := rho st;
  res_prim := res_prim st; res_dual := res_dual st; _max_Ax_z_norm := v;
  _max_Px_ATy_q_norm := _max_Px_ATy_q_norm st;
  constr_type := constr_type st; _settings := _settings st;
  _info := _info st; kkt_mat := kkt_mat st;
  kkt_mat_sparse := kkt_mat_sparse st; linear_solver := linear_solver st
  |}.

Definition set_max_Px_ATy_q_norm (st : solver) (v : S) : solver :=
  {|
  iter := iter st; x := x st; z := z st; y := y st;
  x_tilde := x_tilde st; z_tilde := z_tilde st; z_prev := z_prev st;
  rho_vec := rho_vec st; rho_inv_vec := rho_inv_vec st; rho := rho st;
  res_prim := res_prim st; res_dual := res_dual st;
  _max_Ax_z_norm := _max_Ax_z_norm st; _max_Px_ATy_q_norm := v;
  constr_type := constr_type st; _settings := _settings st;
  _info := _info st; kkt_mat := kkt_mat st;
  kkt_mat_sparse := kkt_mat_sparse st; linear_solver := linear_solver st
  |}.

Definition set_constr_type (st : solver) (v : list constr_t) : solver :=
  {|
  iter := iter st; x := x st; z := z st; y := y st;
  x_tilde := x_tilde st; z_tilde := z_tilde st; z_prev := z_prev st;
  rho_vec := rho_vec st; rho_inv_vec := rho_inv_vec st; rho := rho st;
  res_prim := res_prim st; res_dual := res_dual st;
  _max_Ax_z_norm := _max_Ax_z_norm st;
  _max_Px_ATy_q_norm := _max_Px_ATy_q_norm st; constr_type := v;
  _settings := _settings st; _info := _info st; kkt_mat := kkt_mat st;
  kkt_mat_sparse := kkt_mat_sparse st; linear_solver := linear_solver st
  |}.

Definition set_info (st : solver) (v : Info.t S) : solver :=
  {|
  iter := iter st; x := x st; z := z st; y := y st;
  x_tilde := x_tilde st; z_tilde := z_tilde st; z_prev := z_prev st;
  rho_vec := rho_vec st; rho_inv_vec := rho_inv_vec st; rho := rho st;
  res_prim := res_prim st; res_dual := res_dual st;
  _max_Ax_z_norm := _max_Ax_z_norm st;
  _max_Px_ATy_q_norm := _max_Px_ATy_q_norm st;
  constr_type := constr_type st; _settings := _settings st; _info := v;
  kkt_mat := kkt_mat st; kkt_mat_sparse := kkt_mat_sparse st;
  linear_solver := linear_solver st
  |}.

Definition set_kkt_mat (st : solver) (v : matrix S) : solver :=
  {|
  iter := iter st; x := x st; z := z st; y := y st;
  x_tilde := x_tilde st; z_tilde := z_tilde st; z_prev := z_prev st;
  rho_vec := rho_vec st; rho_inv_vec := rho_inv_vec st; rho := rho st;
  res_prim := res_prim st; res_dual := res_dual st;
  _max_Ax_z_norm := _max_Ax_z_norm st;
  _max_Px_ATy_q_norm := _max_Px_ATy_q_norm st;
  constr_type := constr_type st; _settings := _settings st;
  _info := _info st; kkt_mat := v; kkt_mat_sparse := kkt_mat_sparse st;
  linear_solver := linear_solver st
  |}.

Definition set_kkt_mat_sparse (st : solver) (v : matrix S) : solver :=
  {|
  iter := iter st; x := x st; z := z st; y := y st;
  x_tilde := x_tilde st; z_tilde := z_tilde st; z_prev := z_prev st;
  rho_vec := rho_vec st; rho_inv_vec := rho_inv_vec st; rho := rho st;
  res_prim := res_prim st; res_dual := res_dual st;
  _max_Ax_z_norm := _max_Ax_z_norm st;
  _max_Px_ATy_q_norm := _max_Px_ATy_q_norm st;
  constr_type := constr_type st; _settings := _settings st;
  _info := _info st; kkt_mat := kkt_mat st; kkt_mat_sparse := v;
  linear_solver := linear_solver st
  |}.

Definition set_linear_solver (st : solver) (v : LS) : solver :=
  {|
  iter := iter st; x := x st; z := z st; y := y st;
  x_tilde := x_tilde st; z_tilde := z_tilde st; z_prev := z_prev st;
  rho_vec := rho_vec st; rho_inv_vec := rho_inv_vec st; rho := rho st;
  res_prim := res_prim st; res_dual := res_dual st;
  _max_Ax_z_norm := _max_Ax_z_norm st;
  _max_Px_ATy_q_norm := _max_Px_ATy_q_norm st;
  constr_type := constr_type st; _settings := _settings st;
  _info := _info st; kkt_mat := kkt_mat st;
  kkt_mat_sparse := kkt_mat_sparse st; linear_solver := v
  |}.

End Setters.

(** [for (int i = 0; i < k; i++) body(i)] on a state of type [A]. *)
Fixpoint for_range {A : Type} (k i : nat) (body : nat -> A -> A) (a : A) : A :=
  match k with
  | O => a
  | Datatypes.S k' => for_range k' (Datatypes.S i) body (body i a)
  end.

(** How an iteration of [solve]'s loop, and the loop itself, ends. *)
Inductive flow : Type := Continue | Break.
Inductive loop_exit : Type := ExitBreak | ExitCondition | OutOfFuel.

(** The loop counter [iter] and the settings [max_iter],
    [check_termination], [adaptive_rho_interval] are C++ [int]s, 32 bits
    wide. *)
Definition INT_MAX : Z := 2147483647.
Definition INT_MIN : Z := -2147483648.

Definition int_range (v : Z) : Prop := INT_MIN <= v <= INT_MAX.

(** [v] reduced to 32 bits, two's complement. *)
Definition int_wrap (v : Z) : Z := (v - INT_MIN) mod 2 ^ 32 + INT_MIN.

(** [a % b] on [int]s is undefined in C++ for [b = 0] and for
    [INT_MIN % -1], whose quotient overflows; the integer division
    traps. *)
Definition int_rem_traps (a b : Z) : bool :=
  (b =? 0) || ((a =? INT_MIN) && (b =? -1)).

(** How far a run has come after a number of passes: it has returned, an
    integer division has trapped, or it is still running. *)
Inductive run (A : Type) : Type :=
| Returned (a : A)
| Trapped
| Running.
Arguments Returned {A} a.
Arguments Trapped {A}.
Arguments Running {A}.

Section Solver.
Context {S : Type} `{Scalar S}.

(** Template parameters: the dimensions, the triangle the linear solver
    reads, and the solver class with the operations [solve] calls. *)
Variables n m : nat.
Variable LinearSolver_UpLo : Z.
Context {linear_solver_t : Type}.
Variable ls_compute : linear_solver_t -> matrix S -> linear_solver_t.
Variable ls_factorize : linear_solver_t -> matrix S -> linear_solver_t.
Variable ls_solve : linear_solver_t -> vector S -> vector S.

Let solver : Type := QPSolverSparse S linear_solver_t.
Let qp_t : Type := QP.t S.

Definition RHO_MIN : S := s_lit 1 (-6).
Definition RHO_MAX : S := s_lit 1 6.
Definition RHO_TOL : S := s_lit 1 (-4).
Definition RHO_EQ_FACTOR : S := s_lit 1 3.
Definition LOOSE_BOUNDS_THRESH : S := s_lit 1 16.
Definition DIV_BY_ZERO_REGUL : S := s_lit 1 (-10).

(** The constructor zeroes [x], [z], [y]; every other member starts with
    whatever [raw] holds. *)
Definition QPSolverSparse_new (raw : solver) : solver :=
  let st := set_x raw (vassign n Zero) in
  let st := set_z st (vassign m Zero) in
  set_y st (vassign m Zero).

(** [v.segment(start, len) = e] on a vector of [k] coefficients. *)
Definition segment_assign (k start len : nat) (v : vector S) (e : vexpr S)
  : vector S :=
  vassign k (fun i =>
    if (start <=? i)%nat && (i <? start + len)%nat
    then e (i - start)%nat else vec v i).

(** [sparseView()] keeps every nonzero coefficient: the sparse matrix has
    the coefficients of the dense one. *)
Definition sparseView (K : matrix S) : matrix S := K.

(** In [LinearSolver_UpLo == Eigen::Upper|Eigen::Lower] the comparison binds
    tighter than the bitwise or. *)
Definition UpLo_test : bool :=
  negb (Z.lor (Z.b2z (LinearSolver_UpLo =? Eigen_Upper)) Eigen_Lower =? 0).

(** Both calls pass the member [kkt_mat] as [kkt]. *)
Definition KKT_mat_update (qp : qp_t) (st : solver) : solver :=
  let N := (n + m)%nat in
  let kkt := kkt_mat st in
  let kkt :=
    block_assign N N 0 0 n n kkt
      (madd (mat (QP.P qp))
            (mscale (Settings.sigma (_settings st)) Identity)) in
  let kkt :=
    if UpLo_test
    then block_assign N N 0 (N - m) n m kkt (transpose (mat (QP.A qp)))
    else kkt in
  let kkt := block_assign N N (N - m) 0 m n kkt (mat (QP.A qp)) in
  let kkt :=
    block_assign N N (N - m) (N - m) m m kkt
      (asDiagonal (vscale (s_lit (-1) 0) (vec (rho_inv_vec st)))) in
  let st := set_kkt_mat st kkt in
  set_kkt_mat_sparse st (sparseView (kkt_mat st)).

Definition form_KKT_rhs (qp : qp_t) (st : solver) (rhs : vector S)
  : vector S :=
  let N := (n + m)%nat in
  let rhs :=
    segment_assign N 0 n rhs
      (vsub (vscale (Settings.sigma (_settings st)) (vec (x st)))
            (vec (QP.q qp))) in
  segment_assign N (N - m) m rhs
    (vsub (vec (z st)) (cwiseProduct (vec (rho_inv_vec st)) (vec (y st)))).

Definition box_projection (zv lv uv : vector S) : vector S :=
  vassign m (cwiseMin (cwiseMax (vec zv) (vec lv)) (vec uv)).

(** The test [constr_type_init] applies to row [i], on [l[i]] and [u[i]]. *)
Definition classify (li ui : S) : constr_t :=
  if (li <? - LOOSE_BOUNDS_THRESH)%sc && (ui >? LOOSE_BOUNDS_THRESH)%sc
  then LOOSE_BOUNDS
  else if (ui - li <? RHO_TOL)%sc then EQUALITY_CONSTRAINT
  else INEQUALITY_CONSTRAINT.

Definition constr_type_init (qp : qp_t) (st : solver) : solver :=
  set_constr_type st
    (for_range m 0
       (fun i ct =>
          write INEQUALITY_CONSTRAINT m ct i
            (classify (vec (QP.l qp) i) (vec (QP.u qp) i)))
       (constr_type st)).

(** The [switch] of [rho_update] on the type of a row. *)
Definition rho_of (rho0 : S) (c : constr_t) : S :=
  match c with
  | LOOSE_BOUNDS => RHO_MIN
  | EQUALITY_CONSTRAINT => (RHO_EQ_FACTOR * rho0)%sc
  | INEQUALITY_CONSTRAINT => rho0
  end.

Definition rho_update (rho0 : S) (st : solver) : solver :=
  let st :=
    set_rho_vec st
      (for_range m 0
         (fun i rv =>
            write s_zero m rv i
              (rho_of rho0 (coeff INEQUALITY_CONSTRAINT (constr_type st) i)))
         (rho_vec st)) in
  let st := set_rho_inv_vec st (vassign m (cwiseInverse (vec (rho_vec st)))) in
  set_rho st rho0.

Definition Ax (qp : qp_t) (st : solver) : vexpr S :=
  mat_vec n (mat (QP.A qp)) (vec (x st)).
Definition Px (qp : qp_t) (st : solver) : vexpr S :=
  mat_vec n (mat (QP.P qp)) (vec (x st)).
Definition ATy (qp : qp_t) (st : solver) : vexpr S :=
  mat_vec m (transpose (mat (QP.A qp))) (vec (y st)).

Definition residual_prim (qp : qp_t) (st : solver) : S :=
  lpNorm_Infinity m (vsub (Ax qp st) (vec (z st))).

Definition residual_dual (qp : qp_t) (st : solver) : S :=
  lpNorm_Infinity n (vadd (vadd (Px qp st) (vec (QP.q qp))) (ATy qp st)).

Definition update_state (qp : qp_t) (st : solver) : solver :=
  let norm_Ax := lpNorm_Infinity m (Ax qp st) in
  let norm_z := lpNorm_Infinity m (vec (z st)) in
  let st := set_max_Ax_z_norm st (s_fmax norm_Ax norm_z) in
  let norm_Px := lpNorm_Infinity n (Px qp st) in
  let norm_ATy := lpNorm_Infinity n (ATy qp st) in
  let norm_q := lpNorm_Infinity n (vec (QP.q qp)) in
  let st :=
    set_max_Px_ATy_q_norm st (s_fmax norm_Px (s_fmax norm_ATy norm_q)) in
  let st := set_info st (Info.set_res_prim (_info st) (residual_prim qp st)) in
  set_info st (Info.set_res_dual (_info st) (residual_dual qp st)).

Definition rho_estimate (rho0 : S) (qp : qp_t) (st : solver) : S :=
  let rp_norm :=
    (Info.res_prim (_info st) / (_max_Ax_z_norm st + DIV_BY_ZERO_REGUL))%sc in
  let rd_norm :=
    (Info.res_dual (_info st)
     / (_max_Px_ATy_q_norm st + DIV_BY_ZERO_REGUL))%sc in
  (rho0 * s_sqrt (rp_norm / (rd_norm + DIV_BY_ZERO_REGUL)))%sc.

Definition eps_prim (qp : qp_t) (st : solver) : S :=
  let norm_Ax := lpNorm_Infinity m (Ax qp st) in
  let norm_z := lpNorm_Infinity m (vec (z st)) in
  (Settings.eps_abs (_settings st)
   + Settings.eps_rel (_settings st) * s_fmax norm_Ax norm_z)%sc.

Definition eps_dual (qp : qp_t) (st : solver) : S :=
  let norm_Px := lpNorm_Infinity n (Px qp st) in
  let norm_ATy := lpNorm_Infinity n (ATy qp st) in
  let norm_q := lpNorm_Infinity n (vec (QP.q qp)) in
  (Settings.eps_abs (_settings st)
   + Settings.eps_rel (_settings st)
     * s_fmax norm_Px (s_fmax norm_ATy norm_q))%sc.

Definition termination_criteria (qp : qp_t) (st : solver) : bool :=
  (Info.res_prim (_info st) <=? eps_prim qp st)%sc
  && (Info.res_dual (_info st) <=? eps_dual qp st)%sc.

(** Lines 147-164: the relaxed ADMM update.  The local [rhs] is written in
    full by [form_KKT_rhs] before it is read. *)
Definition admm_update (qp : qp_t) (st : solver) : solver :=
  let st := set_z_prev st (vassign m (vec (z st))) in
  let rhs := form_KKT_rhs qp st [] in
  let x_tilde_nu := ls_solve (linear_solver st) rhs in
  let st := set_x_tilde st (vassign n (head (vec x_tilde_nu))) in
  let st :=
    set_z_tilde st
      (vassign m
         (vadd (vec (z_prev st))
               (cwiseProduct (vec (rho_inv_vec st))
                  (vsub (tail (n + m) m (vec x_tilde_nu)) (vec (y st)))))) in
  let alpha := Settings.alpha (_settings st) in
  let st :=
    set_x st
      (vassign n
         (vadd (vscale alpha (vec (x_tilde st)))
               (vscale (s_one - alpha)%sc (vec (x st))))) in
  let st :=
    set_z st
      (vassign m
         (vadd (vadd (vscale alpha (vec (z_tilde st)))
                     (vscale (s_one - alpha)%sc (vec (z_prev st))))
               (cwiseProduct (vec (rho_inv_vec st)) (vec (y st))))) in
  let st := set_z st (box_projection (z st) (QP.l qp) (QP.u qp)) in
  set_y st
    (vassign m
       (vadd (vec (y st))
             (cwiseProduct (vec (rho_vec st))
                (vsub (vadd (vscale alpha (vec (z_tilde st)))
                            (vscale (s_one - alpha)%sc (vec (z_prev st))))
                      (vec (z st)))))).

(** The local [check_termination] of lines 166-170; [%] is C++'s truncating
    remainder. *)
Definition check_termination_flag (st : solver) : bool :=
  negb (Settings.check_termination (_settings st) =? 0)
  && (Z.rem (iter st) (Settings.check_termination (_settings st)) =? 0).

(** Lines 172-182. *)
Definition termination_step (qp : qp_t) (check_termination : bool)
           (st : solver) : flow * solver :=
  if check_termination then
    let st := update_state qp st in
    if termination_criteria qp st
    then (Break, set_info st (Info.set_status (_info st) Info.SOLVED))
    else (Continue, st)
  else (Continue, st).

(** The guard of line 184.  With [adaptive_rho] set and
    [adaptive_rho_interval = 0] the source evaluates [iter % 0], which C++
    leaves undefined (the integer division traps); [Z.rem iter 0] is [iter],
    so that here the pass goes on as one that is not due.  The two agree
    whenever [adaptive_rho] is off or the interval is not 0
    ([defined_run]); [admm_loop_int] stops where the division traps. *)
Definition adaptive_rho_due (st : solver) : bool :=
  Settings.adaptive_rho (_settings st)
  && (Z.rem (iter st) (Settings.adaptive_rho_interval (_settings st)) =? 0).

Definition clamp_rho (new_rho : S) : S :=
  s_fmax RHO_MIN (s_fmin new_rho RHO_MAX).

Definition rho_trigger (st : solver) (new_rho : S) : bool :=
  (new_rho <? rho st / Settings.adaptive_rho_tolerance (_settings st))%sc
  || (new_rho >? rho st * Settings.adaptive_rho_tolerance (_settings st))%sc.

(** Lines 184-199. *)
Definition adaptive_rho_step (qp : qp_t) (check_termination : bool)
           (st : solver) : solver :=
  if adaptive_rho_due st then
    let st := if negb check_termination then update_state qp st else st in
    let new_rho := rho_estimate (rho st) qp st in
    let new_rho := clamp_rho new_rho in
    if rho_trigger st new_rho then
      let st := rho_update new_rho st in
      let st := KKT_mat_update qp st in
      set_linear_solver st
        (ls_factorize (linear_solver st) (kkt_mat_sparse st))
    else st
  else st.

(** One pass through the body of the [for] loop, lines 147-199. *)
Definition loop_body (qp : qp_t) (st : solver) : flow * solver :=
  let st := admm_update qp st in
  let check_termination := check_termination_flag st in
  match termination_step qp check_termination st with
  | (Break, st) => (Break, st)
  | (Continue, st) => (Continue, adaptive_rho_step qp check_termination st)
  end.

(** [for (...; iter <= _settings.max_iter; iter++) body], with the counter
    as an integer that does not overflow.  This is the loop of the source on
    every run in which [iter++] stays within [int] and no remainder
    traps, in particular with the settings of [defined_run];
    [admm_loop_int] below is the loop with the 32-bit counter. *)
Fixpoint admm_loop (fuel : nat) (qp : qp_t) (st : solver)
  : loop_exit * solver :=
  match fuel with
  | O => (OutOfFuel, st)
  | Datatypes.S fuel' =>
      if iter st <=? Settings.max_iter (_settings st) then
        match loop_body qp st with
        | (Break, st) => (ExitBreak, st)
        | (Continue, st) => admm_loop fuel' qp (set_iter st (iter st + 1))
        end
      else (ExitCondition, st)
  end.

(** The same loop as the machine runs it, with [iter] a 32-bit [int].  Two
    operations of the loop are undefined in C++ for some settings.  At
    [iter = INT_MAX] the increment overflows; compiled for two's
    complement the counter wraps to [INT_MIN].  The remainders
    [iter % check_termination] (line 166, computed when
    [check_termination != 0]) and [iter % adaptive_rho_interval] (line 184,
    computed by every pass that does not [break] when [adaptive_rho] is
    set) trap on a zero divisor and on [INT_MIN % -1].  The loop need not
    be left: the value is the state it is left with when that happens
    within [fuel] tests of its condition. *)
Fixpoint admm_loop_int (fuel : nat) (qp : qp_t) (st : solver)
  : run solver :=
  match fuel with
  | O => Running
  | Datatypes.S fuel' =>
      if iter st <=? Settings.max_iter (_settings st) then
        if negb (Settings.check_termination (_settings st) =? 0)
           && int_rem_traps (iter st)
                (Settings.check_termination (_settings st))
        then Trapped
        else
          match loop_body qp st with
          | (Break, st) => Returned st
          | (Continue, st) =>
              if Settings.adaptive_rho (_settings st)
                 && int_rem_traps (iter st)
                      (Settings.adaptive_rho_interval (_settings st))
              then Trapped
              else admm_loop_int fuel' qp
                     (set_iter st (int_wrap (iter st + 1)))
          end
      else Returned st
  end.

(** Lines 134-146, up to the loop's initialization [iter = 1]. *)
Definition solve_init (qp : qp_t) (st : solver) : solver :=
  let st :=
    if negb (Settings.warm_start (_settings st)) then
      let st := set_x st (vassign n Zero) in
      let st := set_z st (vassign m Zero) in
      set_y st (vassign m Zero)
    else st in
  let st := constr_type_init qp st in
  let st := rho_update (Settings.rho (_settings st)) st in
  let st := KKT_mat_update qp st in
  let st :=
    set_linear_solver st
      (ls_compute (linear_solver st) (kkt_mat_sparse st)) in
  set_iter st 1.

(** The loop tests its condition at most [max_iter + 1] times. *)
Definition solve_fuel (st : solver) : nat :=
  Datatypes.S (Z.to_nat (Settings.max_iter (_settings st))).

Definition solve_loop (qp : qp_t) (st : solver) : loop_exit * solver :=
  let st := solve_init qp st in
  admm_loop (solve_fuel st) qp st.

(** Lines 202-205. *)
Definition solve_finish (st : solver) : solver :=
  let st :=
    if iter st >? Settings.max_iter (_settings st)
    then set_info st (Info.set_status (_info st) Info.MAX_ITER)
    else st in
  set_info st (Info.set_iter (_info st) (iter st)).

Definition solve (qp : qp_t) (st : solver) : solver :=
  solve_finish (snd (solve_loop qp st)).

Definition solve_exit (qp : qp_t) (st : solver) : loop_exit :=
  fst (solve_loop qp st).

(** [solve] as the machine runs it, with the 32-bit counter. *)
Definition solve_int (fuel : nat) (qp : qp_t) (st : solver)
  : run solver :=
  let st := solve_init qp st in
  match admm_loop_int fuel qp st with
  | Returned st => Returned (solve_finish st)
  | Trapped => Trapped
  | Running => Running
  end.

(** *** The specification's wording, for comparison *)

(** Step 5 of the iteration as the specification words the projection:
    [z <- max(l, min(u, z))]. *)
Definition spec_box_projection (zv lv uv : vector S) : vector S :=
  vassign m (cwiseMax (vec lv) (cwiseMin (vec uv) (vec zv))).

(** Steps 1 to 6 of the iteration as the specification words them. *)
Definition spec_admm_update (qp : qp_t) (st : solver) : solver :=
  let st := set_z_prev st (vassign m (vec (z st))) in
  let w := ls_solve (linear_solver st) (form_KKT_rhs qp st []) in
  let st := set_x_tilde st (vassign n (head (vec w))) in
  let nu := tail (n + m) m (vec w) in
  let st :=
    set_z_tilde st
      (vassign m
         (vadd (vec (z_prev st))
               (cwiseProduct (vec (rho_inv_vec st)) (vsub nu (vec (y st)))))) in
  let alpha := Settings.alpha (_settings st) in
  let st :=
    set_x st
      (vassign n
         (vadd (vscale alpha (vec (x_tilde st)))
               (vscale (s_one - alpha)%sc (vec (x st))))) in
  let st :=
    set_z st
      (vassign m
         (vadd (vadd (vscale alpha (vec (z_tilde st)))
                     (vscale (s_one - alpha)%sc (vec (z_prev st))))
               (cwiseProduct (vec (rho_inv_vec st)) (vec (y st))))) in
  let st := set_z st (spec_box_projection (z st) (QP.l qp) (QP.u qp)) in
  set_y st
    (vassign m
       (vadd (vec (y st))
             (cwiseProduct (vec (rho_vec st))
                (vsub (vadd (vscale alpha (vec (z_tilde st)))
                            (vscale (s_one - alpha)%sc (vec (z_prev st))))
                      (vec (z st)))))).

(** [l <= v <= u] componentwise. *)
Definition within_bounds (qp : qp_t) (v : vector S) : Prop :=
  forall i, (i < m)%nat ->
    (vec (QP.l qp) i <=? vec v i)%sc = true /\
    (vec v i <=? vec (QP.u qp) i)%sc = true.

Definition bounds_ordered (qp : qp_t) : Prop :=
  forall i, (i < m)%nat -> (vec (QP.l qp) i <=? vec (QP.u qp) i)%sc = true.

(** The specification's invalid settings: nonpositive [rho] or [sigma],
    [alpha] outside (0, 2), a negative tolerance, [max_iter < 1],
    [adaptive_rho_tolerance <= 1]. *)
Definition invalid_settings (s : Settings.t S) : bool :=
  negb (s_zero <? Settings.rho s)%sc
  || negb (s_zero <? Settings.sigma s)%sc
  || negb ((s_zero <? Settings.alpha s)%sc
           && (Settings.alpha s <? s_lit 2 0)%sc)
  || (Settings.eps_rel s <? s_zero)%sc
  || (Settings.eps_abs s <? s_zero)%sc
  || (Settings.max_iter s <? 1)
  || (Settings.adaptive_rho_tolerance s <=? s_one)%sc.

(** The specification's invalid problem, as far as the comparisons of
    [Scalar] express it: [l i > u i] for some row. *)
Definition invalid_problem (qp : qp_t) : bool :=
  existsb (fun i => (vec (QP.l qp) i >? vec (QP.u qp) i)%sc) (seq 0 m).

(** The settings with which a run of [solve] executes nothing that C++
    leaves undefined: the counter runs from 1 to at most
    [max_iter + 1 <= INT_MAX], so that [iter++] never overflows, and
    [iter % adaptive_rho_interval] never divides by zero. *)
Definition defined_run (s : Settings.t S) : Prop :=
  Settings.max_iter s < INT_MAX /\
  (Settings.adaptive_rho s = true -> Settings.adaptive_rho_interval s <> 0).

(** *** Relations between solver objects, for the properties *)

(** The penalty vectors follow [rho] and the classification, the matrix is
    the one assembled from them, and the linear solver was last given that
    matrix. *)
Definition in_step (qp : QP.t S) (s : solver) : Prop :=
  (forall i, (i < m)%nat ->
     vec (rho_vec s) i
     = rho_of (rho s) (coeff INEQUALITY_CONSTRAINT (constr_type s) i) /\
     vec (rho_inv_vec s) i = (s_one / vec (rho_vec s) i)%sc) /\
  kkt_mat s = kkt_mat (KKT_mat_update qp s) /\
  kkt_mat_sparse s = kkt_mat s /\
  exists ls0,
    linear_solver s = ls_compute ls0 (kkt_mat_sparse s) \/
    linear_solver s = ls_factorize ls0 (kkt_mat_sparse s).

(** Two solver objects agree on the members a pass of the loop reads
    before writing them. *)
Definition same_live (s1 s2 : solver) : Prop :=
  x s1 = x s2 /\ z s1 = z s2 /\ y s1 = y s2 /\
  _settings s1 = _settings s2 /\ rho s1 = rho s2 /\
  rho_inv_vec s1 = rho_inv_vec s2 /\ kkt_mat s1 = kkt_mat s2 /\
  kkt_mat_sparse s1 = kkt_mat_sparse s2 /\
  linear_solver s1 = linear_solver s2 /\
  (forall i, (i < m)%nat -> vec (rho_vec s1) i = vec (rho_vec s2) i) /\
  (forall i, (i < m)%nat ->
     coeff INEQUALITY_CONSTRAINT (constr_type s1) i
     = coeff INEQUALITY_CONSTRAINT (constr_type s2) i).

(** They agree on what [update_state] leaves behind. *)
Definition same_res (s1 s2 : solver) : Prop :=
  Info.res_prim (_info s1) = Info.res_prim (_info s2) /\
  Info.res_dual (_info s1) = Info.res_dual (_info s2) /\
  _max_Ax_z_norm s1 = _max_Ax_z_norm s2 /\
  _max_Px_ATy_q_norm s1 = _max_Px_ATy_q_norm s2.

(** [s'] has the members of [s] that [same_live] looks at. *)
Definition live_eq (s' s : solver) : Prop :=
  x s' = x s /\ z s' = z s /\ y s' = y s /\
  _settings s' = _settings s /\ rho s' = rho s /\
  rho_inv_vec s' = rho_inv_vec s /\ kkt_mat s' = kkt_mat s /\
  kkt_mat_sparse s' = kkt_mat_sparse s /\
  linear_solver s' = linear_solver s /\
  rho_vec s' = rho_vec s /\ constr_type s' = constr_type s.

Definition primal_solution (st : solver) : vector S := x st.
Definition dual_solution (st : solver) : vector S := y st.
Definition settings (st : solver) : Settings.t S := _settings st.
Definition info (st : solver) : Info.t S := _info st.

End Solver.

(** ** Binary64: the order of two values, and NaN *)

(** A rank in which two binary64 values that are numbers compare as
    [SFcompare] compares them: the class (infinite, finite, zero, with its
    sign), then exponent and mantissa. *)
Definition SFrank (a : spec_float) : Z * Z * Z :=
  match a with
  | S754_nan => (0, 0, 0)
  | S754_zero _ => (0, 0, 0)
  | S754_infinity true => (-2, 0, 0)
  | S754_infinity false => (2, 0, 0)
  | S754_finite true ma ea => (-1, - ea, Z.neg ma)
  | S754_finite false ma ea => (1, ea, Z.pos ma)
  end.

Definition lex_compare (p q : Z * Z * Z) : comparison :=
  match p, q with
  | (a1, b1, c1), (a2, b2, c2) =>
      match a1 ?= a2 with
      | Eq => match b1 ?= b2 with Eq => c1 ?= c2 | o => o end
      | o => o
      end
  end.

(** Every coefficient of [v] is NaN or lies between the bounds of its
    row. *)
Definition within_bounds_or_nan (m : nat) (qp : QP.t float)
           (v : vector float) : Prop :=
  forall i, (i < m)%nat ->
    PrimFloat.is_nan (vec v i) = true \/
    (PrimFloat.leb (vec (QP.l qp) i) (vec v i) = true /\
     PrimFloat.leb (vec v i) (vec (QP.u qp) i) = true).

(** ** A dense stand-in for the linear solver

    The class is instantiated with an Eigen factorization; the examples below
    use Gaussian elimination without pivoting on the full dense matrix, kept
    in the solver object by [compute] and [factorize]. *)
Module DenseSolver.
Section DenseSolver.
Context {S : Type} `{Scalar S}.

Definition dot (a b : list S) : S :=
fold_left (fun acc p => (acc + fst p * snd p)%sc) (combine a b) s_zero.

(** Rows are augmented with the right-hand side; a row that has served as
  pivot row keeps its coefficients from the pivot on. *)
Fixpoint eliminate (k : nat) (rows : list (list S)) : list (list S) :=
match k, rows with
| Datatypes.S k', r :: rest =>
    let p := hd s_zero r in
    r :: eliminate k'
           (map (fun r' =>
                   let f := (hd s_zero r' / p)%sc in
                   tl (map (fun ab => (snd ab - f * fst ab)%sc)
                           (combine r r')))
                rest)
| _, _ => []
end.

Fixpoint back_substitute (rows : list (list S)) : list S :=
match rows with
| [] => []
| r :: rest =>
    let xs := back_substitute rest in
    let b := last r s_zero in
    ((b - dot (removelast (tl r)) xs) / hd s_zero r)%sc :: xs
end.

Definition t : Type := matrix S.
Definition compute (_ : t) (M : matrix S) : t := M.
Definition factorize (_ : t) (M : matrix S) : t := M.
Definition solve (M : t) (b : vector S) : vector S :=
back_substitute
  (eliminate (length M) (map (fun rb => fst rb ++ [snd rb]) (combine M b))).

End DenseSolver.
End DenseSolver.

(** ** Example inputs *)

(** The class at the exact rationals and at binary64, with the dense
    stand-in solver reading the lower triangle. *)
Definition solver_Q : Type := QPSolverSparse Qc (matrix Qc).
Definition solver_F : Type := QPSolverSparse float (matrix float).

Abbreviation solve_Q n m :=
  (solve (S:=Qc) n m Eigen_Lower
         DenseSolver.compute DenseSolver.factorize DenseSolver.solve).
Abbreviation solve_F n m :=
  (solve (S:=float) n m Eigen_Lower
         DenseSolver.compute DenseSolver.factorize DenseSolver.solve).
Abbreviation solve_init_Q n m :=
  (solve_init (S:=Qc) n m Eigen_Lower DenseSolver.compute).
Abbreviation solve_init_F n m :=
  (solve_init (S:=float) n m Eigen_Lower DenseSolver.compute).
Abbreviation loop_body_F n m :=
  (loop_body (S:=float) n m Eigen_Lower
             DenseSolver.factorize DenseSolver.solve).
Abbreviation admm_update_Q n m :=
  (admm_update (S:=Qc) n m DenseSolver.solve).

(** A solver object as its constructor leaves it, with the given settings. *)
Definition fresh {S : Type} `{Scalar S} (n m : nat) (s : Settings.t S)
  : QPSolverSparse S (matrix S) :=
  QPSolverSparse_new n m
    {| iter := 0; x := []; z := []; y := []; x_tilde := []; z_tilde := [];
       z_prev := []; rho_vec := []; rho_inv_vec := []; rho := s_zero;
       res_prim := s_zero; res_dual := s_zero;
       _max_Ax_z_norm := s_zero; _max_Px_ATy_q_norm := s_zero;
       constr_type := []; _settings := s;
       _info := {| Info.status := Info.SOLVED; Info.iter := 0;
                   Info.res_prim := s_zero; Info.res_dual := s_zero |};
       kkt_mat := []; kkt_mat_sparse := []; linear_solver := [] |}.

Definition with_max_iter {S : Type} (s : Settings.t S) (k : Z) : Settings.t S :=
  {| Settings.rho := Settings.rho s; Settings.sigma := Settings.sigma s;
     Settings.alpha := Settings.alpha s; Settings.eps_rel := Settings.eps_rel s;
     Settings.eps_abs := Settings.eps_abs s; Settings.max_iter := k;
     Settings.check_termination := Settings.check_termination s;
     Settings.warm_start := Settings.warm_start s;
     Settings.adaptive_rho := Settings.adaptive_rho s;
     Settings.adaptive_rho_tolerance := Settings.adaptive_rho_tolerance s;
     Settings.adaptive_rho_interval := Settings.adaptive_rho_interval s |}.

Definition with_check_termination {S : Type} (s : Settings.t S) (k : Z)
  : Settings.t S :=
  {| Settings.rho := Settings.rho s; Settings.sigma := Settings.sigma s;
     Settings.alpha := Settings.alpha s; Settings.eps_rel := Settings.eps_rel s;
     Settings.eps_abs := Settings.eps_abs s;
     Settings.max_iter := Settings.max_iter s;
     Settings.check_termination := k;
     Settings.warm_start := Settings.warm_start s;
     Settings.adaptive_rho := Settings.adaptive_rho s;
     Settings.adaptive_rho_tolerance := Settings.adaptive_rho_tolerance s;
     Settings.adaptive_rho_interval := Settings.adaptive_rho_interval s |}.

Definition with_adaptive_rho {S : Type} (s : Settings.t S) (k : Z)
  : Settings.t S :=
  {| Settings.rho := Settings.rho s; Settings.sigma := Settings.sigma s;
     Settings.alpha := Settings.alpha s; Settings.eps_rel := Settings.eps_rel s;
     Settings.eps_abs := Settings.eps_abs s;
     Settings.max_iter := Settings.max_iter s;
     Settings.check_termination := Settings.check_termination s;
     Settings.warm_start := Settings.warm_start s;
     Settings.adaptive_rho := true;
     Settings.adaptive_rho_tolerance := Settings.adaptive_rho_tolerance s;
     Settings.adaptive_rho_interval := k |}.

Definition QcZ (k : Z) : Qc := Q2Qc (inject_Z k).
Definition QcD (a : Z) (b : positive) : Qc := Q2Qc (Qmake a b).

(** minimize (1/2)(x1^2 + x2^2) subject to x1 + x2 = 1. *)
Definition qp_equality : QP.t Qc :=
  {| QP.P := [[QcZ 1; QcZ 0]; [QcZ 0; QcZ 1]];
     QP.q := [QcZ 0; QcZ 0];
     QP.A := [[QcZ 1; QcZ 1]];
     QP.l := [QcZ 1];
     QP.u := [QcZ 1] |}.

(** minimize (1/2)(x1^2 + x2^2) - x1 - x2 subject to 0 <= xi <= 1/2. *)
Definition qp_box : QP.t Qc :=
  {| QP.P := [[QcZ 1; QcZ 0]; [QcZ 0; QcZ 1]];
     QP.q := [QcZ (-1); QcZ (-1)];
     QP.A := [[QcZ 1; QcZ 0]; [QcZ 0; QcZ 1]];
     QP.l := [QcZ 0; QcZ 0];
     QP.u := [QcD 1 2; QcD 1 2] |}.


(** A 1-by-1 problem whose bounds cross: [l = 1 > u = 0]. *)
Definition qp_crossed : QP.t Qc :=
  {| QP.P := [[QcZ 1]];
     QP.q := [QcZ 0];
     QP.A := [[QcZ 1]];
     QP.l := [QcZ 1];
     QP.u := [QcZ 0] |}.

(** Settings of the examples: termination tested in every pass; three
    passes; no termination test; no pass at all. *)
Definition settings_check_each : Settings.t Qc :=
  with_check_termination (with_max_iter Settings.default 30) 1.
Definition settings_three : Settings.t Qc := with_max_iter Settings.default 3.
Definition settings_no_iter : Settings.t Qc := with_max_iter Settings.default 0.

(** The states the examples start from: at the first pass of [solve] on the
    box problem and on the crossed bounds. *)
Definition st_box_first : solver_Q :=
  solve_init_Q 2 2 qp_box (fresh 2 2 Settings.default).
Definition st_crossed_first : solver_Q :=
  solve_init_Q 1 1 qp_crossed (fresh 1 1 Settings.default).

(** A state whose rows are classified equality, loose, inequality. *)
Definition st_three_rows : solver_Q :=
  set_constr_type (fresh 1 3 Settings.default)
    [EQUALITY_CONSTRAINT; LOOSE_BOUNDS; INEQUALITY_CONSTRAINT].

(** The box problem in binary64. *)
Definition qp_box_F : QP.t float :=
  {| QP.P := [[1; 0]; [0; 1]]%float;
     QP.q := [-1; -1]%float;
     QP.A := [[1; 0]; [0; 1]]%float;
     QP.l := [0; 0]%float;
     QP.u := [0.5; 0.5]%float |}.

(** The equality problem in binary64. *)
Definition qp_equality_F : QP.t float :=
  {| QP.P := [[1; 0]; [0; 1]]%float;
     QP.q := [0; 0]%float;
     QP.A := [[1; 1]]%float;
     QP.l := [1]%float;
     QP.u := [1]%float |}.

Definition settings_one_F : Settings.t float :=
  with_max_iter Settings.default 1.

(** Adaptive penalty in every pass, no termination test, two passes. *)
Definition settings_adaptive_F : Settings.t float :=
  with_adaptive_rho
    (with_check_termination (with_max_iter Settings.default 2) 0) 1.

(** The state at the second pass of the adaptive run on the equality
    problem. *)
Definition st_adaptive_second_F : solver_F :=
  let st := solve_init_F 2 1 qp_equality_F (fresh 2 1 settings_adaptive_F) in
  let st := snd (loop_body_F 2 1 qp_equality_F st) in
  set_iter st (iter st + 1).

(** Warm start, three passes. *)
Definition settings_warm : Settings.t Qc :=
  {| Settings.rho := Settings.rho Settings.default;
     Settings.sigma := Settings.sigma Settings.default;
     Settings.alpha := Settings.alpha Settings.default;
     Settings.eps_rel := Settings.eps_rel Settings.default;
     Settings.eps_abs := Settings.eps_abs Settings.default;
     Settings.max_iter := 3;
     Settings.check_termination := 1;
     Settings.warm_start := true;
     Settings.adaptive_rho := false;
     Settings.adaptive_rho_tolerance :=
       Settings.adaptive_rho_tolerance Settings.default;
     Settings.adaptive_rho_interval :=
       Settings.adaptive_rho_interval Settings.default |}.

(** Two objects for a warm start from [x = (1/4, 1/4)], [z = (1/4, 1/4)],
    [y = (0, 0)] that differ in the members [solve] does not initialize. *)
Definition st_warm : solver_Q :=
  set_z (set_x (fresh 2 2 settings_warm) [QcD 1 4; QcD 1 4])
        [QcD 1 4; QcD 1 4].
Definition st_warm_stale : solver_Q :=
  set_info
    (set_max_Ax_z_norm
       (set_rho
          (set_constr_type
             (set_rho_vec
                (set_z_prev (set_kkt_mat st_warm [[QcZ 7]]) [QcZ 9])
                [QcZ 5; QcZ 5])
             [LOOSE_BOUNDS])
          (QcZ 3))
       (QcZ 11))
    {| Info.status := Info.MAX_ITER; Info.iter := 99;
       Info.res_prim := QcZ 8; Info.res_dual := QcZ 8 |}.

(** The solution of the box problem with its multipliers. *)
Definition st_box_optimal : solver_Q :=
  set_y (set_z (set_x (fresh 2 2 Settings.default) [QcD 1 2; QcD 1 2])
               [QcD 1 2; QcD 1 2])
        [QcD 1 2; QcD 1 2].


(** A problem within the specification's data model ([P = 0], finite
    entries, [l <= u]) whose first KKT system has a solution beyond the
    largest binary64 number. *)
Definition qp_overflow_F : QP.t float :=
  {| QP.P := [[0]]%float;
     QP.q := [-1e308]%float;
     QP.A := [[1]]%float;
     QP.l := [0]%float;
     QP.u := [0.5]%float |}.

Definition settings_two_F : Settings.t float :=
  with_max_iter Settings.default 2.


(** * Properties *)

(** ** The rationals satisfy the laws *)

Lemma Qc_lt_spec (a b : Qc) : s_lt a b = true <-> (a < b)%Qc.
Proof.
  simpl. unfold QcScalar.lt, Qclt.
  rewrite negb_true_iff, <- not_true_iff_false, Qle_bool_iff.
  split; [apply Qnot_le_lt | apply Qlt_not_le].
Qed.

Lemma Qc_le_spec (a b : Qc) : s_le a b = true <-> (a <= b)%Qc.
Proof. simpl. unfold QcScalar.le, Qcle. apply Qle_bool_iff. Qed.

Lemma Qc_zero : (s_zero : Qc) = 0%Qc.
Proof. apply Qc_is_canon. reflexivity. Qed.

Lemma Qc_lit_pos (k e : Z) : 0 < k -> (0 < QcScalar.lit k e)%Qc.
Proof.
  intros Hk. unfold QcScalar.lit, Qclt.
  destruct (0 <=? e) eqn:He; cbn [this Q2Qc];
    rewrite !Qred_correct.
  - change 0%Q with (inject_Z 0). rewrite <- Zlt_Qlt.
    apply Z.leb_le in He. apply Z.mul_pos_pos; [lia|].
    apply Z.pow_pos_nonneg; lia.
  - unfold Qlt. cbn [Qnum Qden this Q2Qc Qred]. simpl. lia.
Qed.

#[export] Instance Qc_ScalarLaws : ScalarLaws Qc.
Proof.
  constructor.
  - intros a. apply Qc_le_spec, Qcle_refl.
  - intros a b Hab. apply Qc_le_spec, Qclt_le_weak, Qc_lt_spec, Hab.
  - intros a b Hab. apply Qc_le_spec, Qcnot_lt_le. intros Hlt.
    apply Qc_lt_spec in Hlt. congruence.
  - intros a b Hab. apply not_true_iff_false. intros Hlt.
    apply Qc_lt_spec in Hlt. apply Qc_le_spec in Hab.
    exact (Qclt_not_le _ _ Hlt Hab).
  - intros a b Hab Hba. apply Qcle_antisym; now apply Qc_le_spec.
  - intros a b c Hab Hbc.
    apply Qc_le_spec. eapply Qcle_trans; apply Qc_le_spec; eassumption.
  - intros k e Hk. apply Qc_lt_spec. rewrite Qc_zero. now apply Qc_lit_pos.
  - intros a b Ha Hb. apply Qc_lt_spec. rewrite Qc_zero.
    apply Qc_lt_spec in Ha, Hb. rewrite Qc_zero in Ha, Hb.
    rewrite <- (Qcmult_0_l b). now apply Qcmult_lt_compat_r.
  - intros a. change (QcScalar.lit (-1) 0 * a = - a)%Qc.
    replace (QcScalar.lit (-1) 0) with (Qcopp 1%Qc)
      by (apply Qc_is_canon; reflexivity).
    ring.
Qed.


(** ** Storage *)

Section StorageFacts.
Context {A : Type} (d : A).

Lemma length_assign (k : nat) (e : nat -> A) : length (assign k e) = k.
Proof. unfold assign. now rewrite length_map, length_seq. Qed.

Lemma coeff_assign (k : nat) (e : nat -> A) (i : nat) :
  (i < k)%nat -> coeff d (assign k e) i = e i.
Proof.
  intros Hi. unfold coeff, assign.
  rewrite (nth_indep _ d (e O)) by (now rewrite length_map, length_seq).
  rewrite (map_nth e (seq 0 k) O i), seq_nth; auto.
Qed.

Lemma assign_ext (k : nat) (e e' : nat -> A) :
  (forall i, (i < k)%nat -> e i = e' i) -> assign k e = assign k e'.
Proof.
  intros He. unfold assign. apply map_ext_in.
  intros i Hi. apply in_seq in Hi. apply He. lia.
Qed.

Lemma coeff_write (k : nat) (v : list A) (i j : nat) (a : A) :
  (j < k)%nat ->
  coeff d (write d k v i a) j = if Nat.eqb j i then a else coeff d v j.
Proof. intros Hj. unfold write. now rewrite coeff_assign. Qed.

(** A loop [for (i = i0; i < i0 + c; i++) v[i] = f(i)] over an array of [k]
    slots leaves [f j] in every slot it visits and the rest as it was. *)
Lemma for_range_write (f : nat -> A) (k c : nat) :
  forall (i0 : nat) (v : list A) (j : nat),
    (j < k)%nat ->
    coeff d (for_range c i0 (fun i a => write d k a i (f i)) v) j
    = if (i0 <=? j)%nat && (j <? i0 + c)%nat then f j else coeff d v j.
Proof.
  induction c as [|c IH]; intros i0 v j Hj; cbn [for_range].
  - destruct (Nat.leb_spec i0 j), (Nat.ltb_spec j (i0 + 0)); simpl; auto; lia.
  - rewrite IH by exact Hj. rewrite coeff_write by exact Hj.
    destruct (Nat.leb_spec (Datatypes.S i0) j),
             (Nat.ltb_spec j (Datatypes.S i0 + c)),
             (Nat.leb_spec i0 j),
             (Nat.ltb_spec j (i0 + Datatypes.S c)),
             (Nat.eqb_spec j i0); simpl; subst; auto; lia.
Qed.

Lemma for_range_write_all (f : nat -> A) (k : nat) (v : list A) (j : nat) :
  (j < k)%nat ->
  coeff d (for_range k 0 (fun i a => write d k a i (f i)) v) j = f j.
Proof.
  intros Hj. rewrite for_range_write by exact Hj.
  simpl. now replace (j <? k)%nat with true by (symmetry; apply Nat.ltb_lt; lia).
Qed.

End StorageFacts.

Section EigenFacts.
Context {S : Type} `{Scalar S}.

Lemma vec_vassign (k : nat) (e : vexpr S) (i : nat) :
  (i < k)%nat -> vec (vassign k e) i = e i.
Proof. apply coeff_assign. Qed.

Lemma vassign_ext (k : nat) (e e' : vexpr S) :
  (forall i, (i < k)%nat -> e i = e' i) -> vassign k e = vassign k e'.
Proof. apply assign_ext. Qed.

Lemma mat_massign (r c : nat) (e : mexpr S) (i j : nat) :
  (i < r)%nat -> (j < c)%nat -> mat (massign r c e) i j = e i j.
Proof.
  intros Hi Hj. unfold mat, massign.
  rewrite coeff_assign by exact Hi. now apply coeff_assign.
Qed.

(** Reading a block assignment: inside the block the expression, outside
    the previous coefficient. *)
Lemma mat_block_assign (r c r0 c0 h w : nat) (K : matrix S) (e : mexpr S)
      (i j : nat) :
  (i < r)%nat -> (j < c)%nat ->
  mat (block_assign r c r0 c0 h w K e) i j
  = if in_block r0 c0 h w i j
    then e (i - r0)%nat (j - c0)%nat else mat K i j.
Proof. intros Hi Hj. unfold block_assign. now rewrite mat_massign. Qed.

Lemma in_block_true (r0 c0 h w i j : nat) :
  (r0 <= i < r0 + h)%nat -> (c0 <= j < c0 + w)%nat ->
  in_block r0 c0 h w i j = true.
Proof.
  intros Hi Hj. unfold in_block.
  repeat (apply andb_true_iff; split);
    try (apply Nat.leb_le; lia); apply Nat.ltb_lt; lia.
Qed.

Lemma in_block_false (r0 c0 h w i j : nat) :
  (i < r0 \/ r0 + h <= i \/ j < c0 \/ c0 + w <= j)%nat ->
  in_block r0 c0 h w i j = false.
Proof.
  intros Hout. unfold in_block.
  destruct (Nat.leb_spec r0 i), (Nat.ltb_spec i (r0 + h)),
           (Nat.leb_spec c0 j), (Nat.ltb_spec j (c0 + w)); simpl; auto; lia.
Qed.

Lemma vec_segment_assign (k start len : nat) (v : vector S) (e : vexpr S)
      (i : nat) :
  (i < k)%nat ->
  vec (segment_assign k start len v e) i
  = if (start <=? i)%nat && (i <? start + len)%nat
    then e (i - start)%nat else vec v i.
Proof. intros Hi. unfold segment_assign. now rewrite vec_vassign. Qed.

End EigenFacts.

(** ** The 32-bit counter *)


Lemma int_wrap_id (v : Z) : int_range v -> int_wrap v = v.
Proof.
  unfold int_range, int_wrap, INT_MIN, INT_MAX. intros Hv.
  rewrite Z.mod_small by lia. lia.
Qed.

Lemma int_wrap_overflow : int_wrap (INT_MAX + 1) = INT_MIN.
Proof. reflexivity. Qed.

(** ** Binary64 comparisons *)

Lemma SFcompare_antisym (a b : spec_float) :
  SFcompare b a = option_map CompOpp (SFcompare a b).
Proof.
  destruct a as [sa|sa| |sa ma ea], b as [sb|sb| |sb mb eb];
    try reflexivity;
    try (destruct sa; reflexivity); try (destruct sb; reflexivity);
    try (destruct sa, sb; reflexivity).
  cbn [SFcompare option_map].
  destruct sa, sb; try reflexivity.
  - rewrite (Z.compare_antisym ea eb).
    destruct (ea ?= eb)%Z; cbn [CompOpp]; try reflexivity.
    now rewrite (Pos.compare_cont_antisym ma mb Eq).
  - rewrite (Z.compare_antisym ea eb).
    destruct (ea ?= eb)%Z; cbn [CompOpp]; try reflexivity.
    now rewrite (Pos.compare_cont_antisym ma mb Eq).
Qed.

Lemma SFcompare_nan (a b : spec_float) :
  SFcompare a b = None -> a = S754_nan \/ b = S754_nan.
Proof.
  destruct a as [sa|sa| |sa ma ea], b as [sb|sb| |sb mb eb];
    cbn [SFcompare]; auto; discriminate.
Qed.

Lemma is_nan_false (a : float) :
  PrimFloat.is_nan a = false -> Prim2SF a <> S754_nan.
Proof.
  unfold PrimFloat.is_nan. rewrite eqb_spec. intros Hn E.
  rewrite E in Hn. discriminate.
Qed.

Lemma F64_lt_le (a b : float) :
  PrimFloat.ltb a b = true -> PrimFloat.leb a b = true.
Proof.
  rewrite ltb_spec, leb_spec. unfold SFltb, SFleb.
  now destruct (SFcompare (Prim2SF a) (Prim2SF b)) as [[| |]|].
Qed.

Lemma F64_nlt_le (a b : float) :
  PrimFloat.is_nan a = false -> PrimFloat.is_nan b = false ->
  PrimFloat.ltb a b = false -> PrimFloat.leb b a = true.
Proof.
  intros Ha Hb. apply is_nan_false in Ha, Hb.
  rewrite ltb_spec, leb_spec. unfold SFltb, SFleb.
  rewrite (SFcompare_antisym (Prim2SF a) (Prim2SF b)).
  destruct (SFcompare (Prim2SF a) (Prim2SF b)) as [[| |]|] eqn:E;
    cbn [option_map CompOpp]; try reflexivity; try discriminate.
  intros _. apply SFcompare_nan in E. tauto.
Qed.

Lemma SFcompare_rank (a b : spec_float) :
  a <> S754_nan -> b <> S754_nan ->
  SFcompare a b = Some (lex_compare (SFrank a) (SFrank b)).
Proof.
  intros Ha Hb.
  destruct a as [sa|sa| |sa ma ea], b as [sb|sb| |sb mb eb];
    try congruence;
    try (destruct sa; reflexivity); try (destruct sb; reflexivity);
    try (destruct sa, sb; reflexivity).
  cbn [SFcompare SFrank lex_compare].
  destruct sa, sb; try reflexivity.
  unfold lex_compare. change (-1 ?= -1) with Eq. cbv iota.
  rewrite (Z.compare_opp ea eb), (Z.compare_antisym ea eb).
  destruct (ea ?= eb); reflexivity.
Qed.

Lemma lex_compare_le_trans (p q r : Z * Z * Z) :
  lex_compare p q <> Gt -> lex_compare q r <> Gt -> lex_compare p r <> Gt.
Proof.
  destruct p as [[a1 b1] c1], q as [[a2 b2] c2], r as [[a3 b3] c3].
  cbn [lex_compare].
  destruct (Z.compare_spec a1 a2), (Z.compare_spec a2 a3),
    (Z.compare_spec a1 a3); try lia; try congruence;
    destruct (Z.compare_spec b1 b2), (Z.compare_spec b2 b3),
      (Z.compare_spec b1 b3); try lia; try congruence;
    destruct (Z.compare_spec c1 c2), (Z.compare_spec c2 c3),
      (Z.compare_spec c1 c3); try lia; try congruence.
Qed.

Lemma F64_leb_compare (a b : float) :
  PrimFloat.leb a b = true <->
  Prim2SF a <> S754_nan /\ Prim2SF b <> S754_nan /\
  lex_compare (SFrank (Prim2SF a)) (SFrank (Prim2SF b)) <> Gt.
Proof.
  rewrite leb_spec. unfold SFleb. split.
  - intros H.
    assert (Ha : Prim2SF a <> S754_nan).
    { intros E. rewrite E in H. discriminate. }
    assert (Hb : Prim2SF b <> S754_nan).
    { intros E. rewrite E in H. now destruct (Prim2SF a). }
    rewrite (SFcompare_rank _ _ Ha Hb) in H.
    repeat split; try assumption.
    intros E. rewrite E in H. discriminate.
  - intros (Ha & Hb & H). rewrite (SFcompare_rank _ _ Ha Hb).
    now destruct (lex_compare _ _).
Qed.

Lemma F64_le_trans (a b c : float) :
  PrimFloat.leb a b = true -> PrimFloat.leb b c = true ->
  PrimFloat.leb a c = true.
Proof.
  rewrite !F64_leb_compare. intros (Ha & Hb & Hab) (_ & Hc & Hbc).
  repeat split; try assumption. eapply lex_compare_le_trans; eassumption.
Qed.

Lemma SFeqb_refl (f : spec_float) : f <> S754_nan -> SFeqb f f = true.
Proof.
  intros Hf. unfold SFeqb. rewrite (SFcompare_rank f f Hf Hf).
  destruct (SFrank f) as [[r1 r2] r3]. cbn [lex_compare].
  now rewrite !Z.compare_refl.
Qed.

Lemma F64_le_not_nan (a b : float) :
  PrimFloat.leb a b = true ->
  PrimFloat.is_nan a = false /\ PrimFloat.is_nan b = false.
Proof.
  rewrite F64_leb_compare. intros (Ha & Hb & _).
  unfold PrimFloat.is_nan. rewrite !eqb_spec.
  split; now rewrite SFeqb_refl.
Qed.

Lemma F64_le_refl (a : float) :
  PrimFloat.is_nan a = false -> PrimFloat.leb a a = true.
Proof.
  intros Ha. apply is_nan_false in Ha. apply F64_leb_compare.
  repeat split; try assumption.
  destruct (SFrank (Prim2SF a)) as [[r1 r2] r3]. cbn [lex_compare].
  rewrite !Z.compare_refl. discriminate.
Qed.

Lemma F64_le_nlt (a b : float) :
  PrimFloat.leb a b = true -> PrimFloat.ltb b a = false.
Proof.
  rewrite ltb_spec, leb_spec. unfold SFltb, SFleb.
  rewrite (SFcompare_antisym (Prim2SF a) (Prim2SF b)).
  now destruct (SFcompare (Prim2SF a) (Prim2SF b)) as [[| |]|].
Qed.

Lemma F64_le_antisym (a b : float) :
  PrimFloat.leb a b = true -> PrimFloat.leb b a = true ->
  PrimFloat.eqb a b = true.
Proof.
  rewrite eqb_spec, !leb_spec. unfold SFeqb, SFleb.
  rewrite (SFcompare_antisym (Prim2SF a) (Prim2SF b)).
  now destruct (SFcompare (Prim2SF a) (Prim2SF b)) as [[| |]|].
Qed.

(** NaN compares false with everything. *)
Lemma F64_nan_unordered (a t : float) :
  PrimFloat.is_nan a = true ->
  PrimFloat.ltb a t = false /\ PrimFloat.ltb t a = false /\
  PrimFloat.leb a t = false /\ PrimFloat.leb t a = false.
Proof.
  intros N.
  assert (E : Prim2SF a = S754_nan).
  { destruct (Prim2SF a) eqn:Ea; try reflexivity; exfalso;
      unfold PrimFloat.is_nan in N; rewrite eqb_spec, Ea in N;
      rewrite SFeqb_refl in N by discriminate; discriminate. }
  rewrite !ltb_spec, !leb_spec. unfold SFltb, SFleb. rewrite E.
  repeat split; try reflexivity; now destruct (Prim2SF t).
Qed.

(** In binary64 the projection leaves NaN where the relaxed value is NaN,
    and a value between the bounds otherwise. *)
Lemma std_clamp_binary64 (zi li ui : float) :
  PrimFloat.leb li ui = true ->
  (PrimFloat.is_nan zi = true ->
   PrimFloat.is_nan (std_min (std_max zi li) ui) = true) /\
  (PrimFloat.is_nan zi = false ->
   PrimFloat.leb li (std_min (std_max zi li) ui) = true /\
   PrimFloat.leb (std_min (std_max zi li) ui) ui = true).
Proof.
  intros Hlu. unfold std_min, std_max. cbn [s_lt F64_Scalar].
  destruct (F64_le_not_nan _ _ Hlu) as [Nl Nu].
  split.
  - intros Nz.
    destruct (F64_nan_unordered zi li Nz) as (E1 & _).
    destruct (F64_nan_unordered zi ui Nz) as (_ & E2 & _).
    rewrite E1, E2. exact Nz.
  - intros Nz.
    destruct (PrimFloat.ltb zi li) eqn:Hzl.
    + rewrite (F64_le_nlt _ _ Hlu). split; [now apply F64_le_refl | exact Hlu].
    + apply (F64_nlt_le _ _ Nz Nl) in Hzl.
      destruct (PrimFloat.ltb ui zi) eqn:Huz.
      * split; [exact Hlu | now apply F64_le_refl].
      * split; [exact Hzl | now apply F64_nlt_le].
Qed.

(** With [l <= u] and a relaxed value that is a number, clamping below
    first and clamping above first give the same number (equal as binary64
    values; they can differ in the sign of a zero). *)
Lemma std_clamp_orders_agree_binary64 (zi li ui : float) :
  PrimFloat.leb li ui = true ->
  PrimFloat.is_nan zi = false ->
  PrimFloat.eqb (std_min (std_max zi li) ui) (std_max li (std_min ui zi))
  = true.
Proof.
  intros Hlu Nz. unfold std_min, std_max. cbn [s_lt F64_Scalar].
  destruct (F64_le_not_nan _ _ Hlu) as [Nl Nu].
  assert (Rf : forall t,
             PrimFloat.is_nan t = false -> PrimFloat.eqb t t = true).
  { intros t Nt. apply F64_le_antisym; now apply F64_le_refl. }
  assert (Hnl : forall p q, PrimFloat.is_nan p = false ->
                  PrimFloat.is_nan q = false ->
                  PrimFloat.ltb p q = false -> PrimFloat.leb q p = true)
    by exact F64_nlt_le.
  destruct (PrimFloat.ltb zi li) eqn:Hzl.
  - rewrite (F64_le_nlt _ _ Hlu).
    assert (Hzu : PrimFloat.ltb zi ui = true).
    { destruct (PrimFloat.ltb zi ui) eqn:E; [reflexivity|].
      apply (Hnl _ _ Nz Nu) in E.
      pose proof (F64_le_nlt _ _ (F64_le_trans _ _ _ Hlu E)). congruence. }
    rewrite Hzu, (F64_le_nlt _ _ (F64_lt_le _ _ Hzl)). now apply Rf.
  - pose proof (Hnl _ _ Nz Nl Hzl) as Hlz.
    destruct (PrimFloat.ltb ui zi) eqn:Huz.
    + rewrite (F64_le_nlt _ _ (F64_lt_le _ _ Huz)).
      destruct (PrimFloat.ltb li ui) eqn:E; [now apply Rf|].
      apply F64_le_antisym; [now apply Hnl | exact Hlu].
    + pose proof (Hnl _ _ Nu Nz Huz) as Hzu.
      destruct (PrimFloat.ltb zi ui) eqn:E.
      * destruct (PrimFloat.ltb li zi) eqn:E'; [now apply Rf|].
        apply F64_le_antisym; [now apply Hnl | exact Hlz].
      * pose proof (Hnl _ _ Nz Nu E) as Huz'.
        destruct (PrimFloat.ltb li ui) eqn:E'.
        -- now apply F64_le_antisym.
        -- pose proof (Hnl _ _ Nl Nu E') as Hul.
           apply F64_le_antisym;
             [exact (F64_le_trans _ _ _ Hzu Hul) | exact Hlz].
Qed.

(** ** The solver *)

Section SolverFacts.
Context {S : Type} `{Scalar S}.
Variables n m : nat.
Variable LinearSolver_UpLo : Z.
Context {linear_solver_t : Type}.
Variable ls_compute : linear_solver_t -> matrix S -> linear_solver_t.
Variable ls_factorize : linear_solver_t -> matrix S -> linear_solver_t.
Variable ls_solve : linear_solver_t -> vector S -> vector S.

Let solver : Type := QPSolverSparse S linear_solver_t.

Local Abbreviation KKT_mat_update := (KKT_mat_update n m LinearSolver_UpLo).
Local Abbreviation form_KKT_rhs := (form_KKT_rhs n m).
Local Abbreviation box_projection := (box_projection m).
Local Abbreviation constr_type_init := (constr_type_init m).
Local Abbreviation rho_update := (rho_update m).
Local Abbreviation update_state := (update_state n m).
Local Abbreviation residual_prim := (residual_prim n m).
Local Abbreviation residual_dual := (residual_dual n m).
Local Abbreviation eps_prim := (eps_prim n m).
Local Abbreviation eps_dual := (eps_dual n m).
Local Abbreviation Ax := (Ax n).
Local Abbreviation Px := (Px n).
Local Abbreviation ATy := (ATy m).
Local Abbreviation termination_criteria := (termination_criteria n m).
Local Abbreviation admm_update := (admm_update n m ls_solve).
Local Abbreviation termination_step := (termination_step n m).
Local Abbreviation adaptive_rho_step :=
  (adaptive_rho_step n m LinearSolver_UpLo ls_factorize).
Local Abbreviation loop_body :=
  (loop_body n m LinearSolver_UpLo ls_factorize ls_solve).
Local Abbreviation admm_loop :=
  (admm_loop n m LinearSolver_UpLo ls_factorize ls_solve).
Local Abbreviation admm_loop_int :=
  (admm_loop_int n m LinearSolver_UpLo ls_factorize ls_solve).
Local Abbreviation solve_init :=
  (solve_init n m LinearSolver_UpLo ls_compute).
Local Abbreviation solve_loop :=
  (solve_loop n m LinearSolver_UpLo ls_compute ls_factorize ls_solve).
Local Abbreviation solve :=
  (solve n m LinearSolver_UpLo ls_compute ls_factorize ls_solve).
Local Abbreviation solve_exit :=
  (solve_exit n m LinearSolver_UpLo ls_compute ls_factorize ls_solve).
Local Abbreviation solve_int :=
  (solve_int n m LinearSolver_UpLo ls_compute ls_factorize ls_solve).

(** *** What each step leaves alone *)

Ltac split_ifs :=
  repeat match goal with
         | |- context [if ?c then _ else _] => destruct c
         end.

Lemma update_state_frame (qp : QP.t S) (st : solver) :
  iter (update_state qp st) = iter st /\ x (update_state qp st) = x st /\
  z (update_state qp st) = z st /\ y (update_state qp st) = y st /\
  _settings (update_state qp st) = _settings st /\
  constr_type (update_state qp st) = constr_type st /\
  rho (update_state qp st) = rho st /\
  rho_vec (update_state qp st) = rho_vec st /\
  rho_inv_vec (update_state qp st) = rho_inv_vec st /\
  kkt_mat (update_state qp st) = kkt_mat st /\
  kkt_mat_sparse (update_state qp st) = kkt_mat_sparse st /\
  linear_solver (update_state qp st) = linear_solver st /\
  Info.status (_info (update_state qp st)) = Info.status (_info st) /\
  Info.iter (_info (update_state qp st)) = Info.iter (_info st).
Proof. repeat split; reflexivity. Qed.

Lemma rho_update_frame (rho0 : S) (st : solver) :
  iter (rho_update rho0 st) = iter st /\ x (rho_update rho0 st) = x st /\
  z (rho_update rho0 st) = z st /\ y (rho_update rho0 st) = y st /\
  _settings (rho_update rho0 st) = _settings st /\
  constr_type (rho_update rho0 st) = constr_type st /\
  _info (rho_update rho0 st) = _info st /\
  kkt_mat (rho_update rho0 st) = kkt_mat st /\
  kkt_mat_sparse (rho_update rho0 st) = kkt_mat_sparse st /\
  linear_solver (rho_update rho0 st) = linear_solver st.
Proof. repeat split; reflexivity. Qed.

Lemma KKT_mat_update_frame (qp : QP.t S) (st : solver) :
  iter (KKT_mat_update qp st) = iter st /\ x (KKT_mat_update qp st) = x st /\
  z (KKT_mat_update qp st) = z st /\ y (KKT_mat_update qp st) = y st /\
  _settings (KKT_mat_update qp st) = _settings st /\
  constr_type (KKT_mat_update qp st) = constr_type st /\
  _info (KKT_mat_update qp st) = _info st /\
  rho (KKT_mat_update qp st) = rho st /\
  rho_vec (KKT_mat_update qp st) = rho_vec st /\
  rho_inv_vec (KKT_mat_update qp st) = rho_inv_vec st /\
  linear_solver (KKT_mat_update qp st) = linear_solver st.
Proof. repeat split; reflexivity. Qed.

Lemma admm_update_frame (qp : QP.t S) (st : solver) :
  iter (admm_update qp st) = iter st /\
  _settings (admm_update qp st) = _settings st /\
  constr_type (admm_update qp st) = constr_type st /\
  _info (admm_update qp st) = _info st /\ rho (admm_update qp st) = rho st /\
  rho_vec (admm_update qp st) = rho_vec st /\
  rho_inv_vec (admm_update qp st) = rho_inv_vec st /\
  kkt_mat (admm_update qp st) = kkt_mat st /\
  kkt_mat_sparse (admm_update qp st) = kkt_mat_sparse st /\
  linear_solver (admm_update qp st) = linear_solver st /\
  _max_Ax_z_norm (admm_update qp st) = _max_Ax_z_norm st /\
  _max_Px_ATy_q_norm (admm_update qp st) = _max_Px_ATy_q_norm st.
Proof. repeat split; reflexivity. Qed.

Lemma termination_step_frame (qp : QP.t S) (c : bool) (st : solver) :
  iter (snd (termination_step qp c st)) = iter st /\
  x (snd (termination_step qp c st)) = x st /\
  z (snd (termination_step qp c st)) = z st /\
  y (snd (termination_step qp c st)) = y st /\
  _settings (snd (termination_step qp c st)) = _settings st /\
  constr_type (snd (termination_step qp c st)) = constr_type st /\
  rho (snd (termination_step qp c st)) = rho st /\
  rho_vec (snd (termination_step qp c st)) = rho_vec st /\
  rho_inv_vec (snd (termination_step qp c st)) = rho_inv_vec st /\
  kkt_mat (snd (termination_step qp c st)) = kkt_mat st /\
  kkt_mat_sparse (snd (termination_step qp c st)) = kkt_mat_sparse st /\
  linear_solver (snd (termination_step qp c st)) = linear_solver st.
Proof.
  unfold termination_step. cbv zeta.
  split_ifs; repeat split; reflexivity.
Qed.

Lemma adaptive_rho_step_frame (qp : QP.t S) (c : bool) (st : solver) :
  iter (adaptive_rho_step qp c st) = iter st /\
  x (adaptive_rho_step qp c st) = x st /\
  z (adaptive_rho_step qp c st) = z st /\
  y (adaptive_rho_step qp c st) = y st /\
  _settings (adaptive_rho_step qp c st) = _settings st /\
  constr_type (adaptive_rho_step qp c st) = constr_type st /\
  Info.status (_info (adaptive_rho_step qp c st)) = Info.status (_info st) /\
  Info.iter (_info (adaptive_rho_step qp c st)) = Info.iter (_info st).
Proof.
  unfold adaptive_rho_step. cbv zeta.
  split_ifs; repeat split; reflexivity.
Qed.

(** *** One pass through the loop body *)

Lemma pair_eq_snd {X Y : Type} (a a' : X) (b b' : Y) :
  (a, b) = (a', b') -> b = b'.
Proof. intros E. exact (f_equal snd E). Qed.

Lemma loop_body_frame (qp : QP.t S) (st : solver) :
  iter (snd (loop_body qp st)) = iter st /\
  _settings (snd (loop_body qp st)) = _settings st /\
  constr_type (snd (loop_body qp st)) = constr_type st /\
  x (snd (loop_body qp st)) = x (admm_update qp st) /\
  z (snd (loop_body qp st)) = z (admm_update qp st) /\
  y (snd (loop_body qp st)) = y (admm_update qp st).
Proof.
  unfold loop_body. cbv zeta.
  set (st1 := admm_update qp st).
  set (c := check_termination_flag st1).
  pose proof (termination_step_frame qp c st1) as Ht. cbv zeta in Ht.
  destruct (termination_step qp c st1) as [[|] st2]; cbn [fst snd] in *.
  - pose proof (adaptive_rho_step_frame qp c st2) as Ha. cbv zeta in Ha.
    repeat split; try (etransitivity; [apply Ha|]); apply Ht.
  - repeat split; apply Ht.
Qed.

(** The body leaves through [break] exactly when this pass checks
    termination and the criterion holds on the refreshed residuals. *)
Lemma loop_body_break (qp : QP.t S) (st st' : solver) :
  loop_body qp st = (Break, st') <->
  let st1 := update_state qp (admm_update qp st) in
  check_termination_flag (admm_update qp st) = true /\
  termination_criteria qp st1 = true /\
  st' = set_info st1 (Info.set_status (_info st1) Info.SOLVED).
Proof.
  unfold loop_body, termination_step. cbv zeta.
  destruct (check_termination_flag (admm_update qp st)).
  - destruct (termination_criteria qp (update_state qp (admm_update qp st))).
    + split.
      * intros E. apply pair_eq_snd in E. subst st'. auto.
      * intros (_ & _ & ->). reflexivity.
    + split; [discriminate | intros (_ & E & _); discriminate].
  - split; [discriminate | intros (E & _); discriminate].
Qed.

(** Otherwise the residuals have been refreshed at most once when the
    adaptive step runs. *)
Lemma loop_body_continue (qp : QP.t S) (st st' : solver) :
  loop_body qp st = (Continue, st') ->
  let st1 := admm_update qp st in
  let c := check_termination_flag st1 in
  (c = true -> termination_criteria qp (update_state qp st1) = false) /\
  st' = adaptive_rho_step qp c (if c then update_state qp st1 else st1).
Proof.
  unfold loop_body, termination_step. cbv zeta.
  destruct (check_termination_flag (admm_update qp st)).
  - destruct (termination_criteria qp (update_state qp (admm_update qp st)));
      [discriminate|].
    intros E. apply pair_eq_snd in E. subst st'. auto.
  - intros E. apply pair_eq_snd in E. subst st'.
    split; [discriminate | reflexivity].
Qed.

(** *** The loop *)

Lemma admm_loop_unfold (fuel : nat) (qp : QP.t S) (st : solver) :
  admm_loop (Datatypes.S fuel) qp st =
  if iter st <=? Settings.max_iter (_settings st) then
    match loop_body qp st with
    | (Break, st1) => (ExitBreak, st1)
    | (Continue, st1) => admm_loop fuel qp (set_iter st1 (iter st1 + 1))
    end
  else (ExitCondition, st).
Proof. reflexivity. Qed.

(** A property kept by the body and by the increment of [iter] holds when
    the loop is left. *)
Lemma admm_loop_invariant (qp : QP.t S) (I : solver -> Prop) :
  (forall st, I st -> I (snd (loop_body qp st))) ->
  (forall st k, I st -> I (set_iter st k)) ->
  forall fuel st, I st -> I (snd (admm_loop fuel qp st)).
Proof.
  intros Hbody Hiter. induction fuel as [|fuel IH]; intros st HI.
  - exact HI.
  - rewrite admm_loop_unfold.
    destruct (iter st <=? Settings.max_iter (_settings st)); [|exact HI].
    specialize (Hbody st HI).
    destruct (loop_body qp st) as [[|] st1]; cbn [fst snd] in Hbody.
    + apply IH, Hiter, Hbody.
    + exact Hbody.
Qed.

(** A property that every pass establishes holds at the exit as soon as one
    pass has run. *)
Lemma admm_loop_established (qp : QP.t S) (I : solver -> Prop) :
  (forall st, I (snd (loop_body qp st))) ->
  (forall st k, I st -> I (set_iter st k)) ->
  forall fuel st,
    iter st <= Settings.max_iter (_settings st) ->
    I (snd (admm_loop (Datatypes.S fuel) qp st)).
Proof.
  intros Hbody Hiter fuel st Hle. rewrite admm_loop_unfold.
  apply Z.leb_le in Hle. rewrite Hle.
  pose proof (Hbody st) as Hb.
  destruct (loop_body qp st) as [[|] st1]; cbn [fst snd] in Hb.
  - apply admm_loop_invariant; auto.
  - exact Hb.
Qed.

(** How the loop is left, and where the counter stands then. *)
Lemma admm_loop_exit (qp : QP.t S) :
  forall fuel st,
    let r := admm_loop fuel qp st in
    _settings (snd r) = _settings st /\
    match fst r with
    | ExitBreak =>
        iter st <= iter (snd r) <= Settings.max_iter (_settings st) /\
        exists st0, _settings st0 = _settings st /\
                    loop_body qp st0 = (Break, snd r)
    | ExitCondition =>
        iter (snd r) = Z.max (iter st) (Settings.max_iter (_settings st) + 1)
    | OutOfFuel =>
        iter (snd r) = iter st + Z.of_nat fuel /\
        (fuel <> O ->
         iter st + Z.of_nat fuel - 1 <= Settings.max_iter (_settings st))
    end.
Proof.
  induction fuel as [|fuel IH]; intros st; cbv zeta.
  - cbn [admm_loop fst snd]. repeat split; lia.
  - rewrite admm_loop_unfold.
    destruct (Z.leb_spec (iter st) (Settings.max_iter (_settings st)))
      as [Hle|Hgt].
    + pose proof (loop_body_frame qp st) as (Hi & Hs & _). cbv zeta in Hi, Hs.
      destruct (loop_body qp st) as [[|] st1] eqn:Hb; cbn [fst snd] in *.
      * rewrite Hi.
        specialize (IH (set_iter st1 (iter st + 1))). cbv zeta in IH.
        change (_settings (set_iter st1 (iter st + 1))) with (_settings st1) in IH.
        change (iter (set_iter st1 (iter st + 1))) with (iter st + 1) in IH.
        rewrite Hs in IH.
        destruct (admm_loop fuel qp (set_iter st1 (iter st + 1)))
          as [e st2]; cbn [fst snd] in *.
        destruct IH as [IHs IHe]. split; [exact IHs|].
        destruct e.
        -- destruct IHe as [Hr (st0 & Hs0 & Hb0)]. split; [lia|].
           exists st0. auto.
        -- lia.
        -- split; [lia|]. intros _. destruct fuel; lia.
      * split; [exact Hs|]. split; [lia|]. exists st. auto.
    + cbn [fst snd]. split; [reflexivity | lia].
Qed.

(** *** The loop with the 32-bit counter *)

Lemma admm_loop_int_unfold (fuel : nat) (qp : QP.t S) (st : solver) :
  admm_loop_int fuel qp st =
  match fuel with
  | O => Running
  | Datatypes.S fuel' =>
      if iter st <=? Settings.max_iter (_settings st) then
        if negb (Settings.check_termination (_settings st) =? 0)
           && int_rem_traps (iter st)
                (Settings.check_termination (_settings st))
        then Trapped
        else
          match loop_body qp st with
          | (Break, st1) => Returned st1
          | (Continue, st1) =>
              if Settings.adaptive_rho (_settings st1)
                 && int_rem_traps (iter st1)
                      (Settings.adaptive_rho_interval (_settings st1))
              then Trapped
              else admm_loop_int fuel' qp
                     (set_iter st1 (int_wrap (iter st1 + 1)))
          end
      else Returned st
  end.
Proof. destruct fuel; reflexivity. Qed.

Lemma set_iter_frame (s : solver) (k : Z) :
  iter (set_iter s k) = k /\ _settings (set_iter s k) = _settings s.
Proof. split; reflexivity. Qed.

(** From a counter above [INT_MIN], no remainder of a pass traps unless
    [adaptive_rho] is set and [adaptive_rho_interval] is 0. *)
Lemma no_trap (s : Settings.t S) (k : Z) :
  INT_MIN < k ->
  (Settings.adaptive_rho s = true -> Settings.adaptive_rho_interval s <> 0) ->
  negb (Settings.check_termination s =? 0)
  && int_rem_traps k (Settings.check_termination s) = false /\
  Settings.adaptive_rho s
  && int_rem_traps k (Settings.adaptive_rho_interval s) = false.
Proof.
  intros Hk Hd. unfold int_rem_traps.
  replace (k =? INT_MIN) with false by (symmetry; apply Z.eqb_neq; lia).
  cbn [andb]. rewrite !orb_false_r. split.
  - now destruct (Settings.check_termination s =? 0).
  - destruct (Settings.adaptive_rho s); [|reflexivity].
    apply Z.eqb_neq. now apply Hd.
Qed.

(** With the settings of [defined_run] the counter is incremented only
    from values below [INT_MAX] and never wraps, and no remainder traps:
    the loop with the 32-bit counter is [admm_loop]. *)
Lemma admm_loop_int_agrees (qp : QP.t S) :
  forall fuel st,
    defined_run (_settings st) ->
    INT_MIN < iter st ->
    admm_loop_int fuel qp st
    = match admm_loop fuel qp st with
      | (OutOfFuel, _) => Running
      | (_, s) => Returned s
      end.
Proof.
  induction fuel as [|fuel IH]; intros st Hdef Hlo; [reflexivity|].
  rewrite admm_loop_unfold, admm_loop_int_unfold.
  destruct (Z.leb_spec (iter st) (Settings.max_iter (_settings st)))
    as [Hle|Hgt]; [|reflexivity].
  destruct (no_trap (_settings st) (iter st) Hlo (proj2 Hdef)) as [N1 N2].
  rewrite N1.
  pose proof (loop_body_frame qp st) as (Hi & Hs & _).
  destruct (loop_body qp st) as [[|] st1]; cbn [fst snd] in Hi, Hs;
    [|reflexivity].
  rewrite Hs, Hi, N2.
  assert (E : int_wrap (iter st + 1) = iter st + 1).
  { apply int_wrap_id. destruct Hdef as [Hmx _]. unfold int_range. lia. }
  rewrite E.
  apply IH.
  - destruct (set_iter_frame st1 (iter st + 1)) as [_ ->]. now rewrite Hs.
  - destruct (set_iter_frame st1 (iter st + 1)) as [-> _]. lia.
Qed.

(** Once the run has ended, more fuel changes nothing. *)
Lemma admm_loop_int_fuel (qp : QP.t S) :
  forall fuel st k,
    admm_loop_int fuel qp st <> Running ->
    admm_loop_int (fuel + k) qp st = admm_loop_int fuel qp st.
Proof.
  induction fuel as [|fuel IH]; intros st k Hne.
  - now destruct Hne.
  - change (Datatypes.S fuel + k)%nat with (Datatypes.S (fuel + k)).
    rewrite (admm_loop_int_unfold (Datatypes.S fuel)) in Hne.
    rewrite (admm_loop_int_unfold (Datatypes.S fuel)),
      (admm_loop_int_unfold (Datatypes.S (fuel + k))).
    destruct (iter st <=? Settings.max_iter (_settings st)); [|reflexivity].
    destruct (negb (Settings.check_termination (_settings st) =? 0)
              && int_rem_traps (iter st)
                   (Settings.check_termination (_settings st)));
      [reflexivity|].
    destruct (loop_body qp st) as [[|] st1]; [|reflexivity].
    destruct (Settings.adaptive_rho (_settings st1)
              && int_rem_traps (iter st1)
                   (Settings.adaptive_rho_interval (_settings st1)));
      [reflexivity|].
    now apply IH.
Qed.



(** With [adaptive_rho] set and [adaptive_rho_interval = 0] the first pass
    that does not [break] traps. *)
Lemma admm_loop_int_traps (qp : QP.t S) (fuel : nat) (st : solver) :
  Settings.adaptive_rho (_settings st) = true ->
  Settings.adaptive_rho_interval (_settings st) = 0 ->
  iter st <= Settings.max_iter (_settings st) ->
  fst (loop_body qp st) = Continue ->
  admm_loop_int (Datatypes.S fuel) qp st = Trapped.
Proof.
  intros Ha Hz Hle Hc. rewrite admm_loop_int_unfold.
  apply Z.leb_le in Hle. rewrite Hle.
  destruct (negb (Settings.check_termination (_settings st) =? 0)
            && int_rem_traps (iter st)
                 (Settings.check_termination (_settings st)));
    [reflexivity|].
  pose proof (loop_body_frame qp st) as (_ & Hs & _).
  destruct (loop_body qp st) as [[|] st1]; cbn [fst snd] in Hc, Hs;
    [|discriminate].
  now rewrite Hs, Ha, Hz.
Qed.

(** *** [solve] as a whole *)

Lemma constr_type_init_frame (qp : QP.t S) (st : solver) :
  iter (constr_type_init qp st) = iter st /\
  x (constr_type_init qp st) = x st /\ z (constr_type_init qp st) = z st /\
  y (constr_type_init qp st) = y st /\
  _settings (constr_type_init qp st) = _settings st /\
  _info (constr_type_init qp st) = _info st /\
  rho (constr_type_init qp st) = rho st /\
  rho_vec (constr_type_init qp st) = rho_vec st /\
  rho_inv_vec (constr_type_init qp st) = rho_inv_vec st.
Proof. repeat split; reflexivity. Qed.

Lemma solve_init_frame (qp : QP.t S) (st : solver) :
  iter (solve_init qp st) = 1 /\
  _settings (solve_init qp st) = _settings st /\
  _info (solve_init qp st) = _info st.
Proof.
  unfold solve_init. cbv zeta.
  destruct (negb (Settings.warm_start (_settings st))); repeat split; reflexivity.
Qed.

Lemma solve_finish_frame (st : solver) :
  iter (solve_finish st) = iter st /\ x (solve_finish st) = x st /\
  z (solve_finish st) = z st /\ y (solve_finish st) = y st /\
  _settings (solve_finish st) = _settings st /\
  constr_type (solve_finish st) = constr_type st /\
  rho (solve_finish st) = rho st /\ rho_vec (solve_finish st) = rho_vec st /\
  rho_inv_vec (solve_finish st) = rho_inv_vec st /\
  kkt_mat (solve_finish st) = kkt_mat st /\
  linear_solver (solve_finish st) = linear_solver st /\
  Info.iter (_info (solve_finish st)) = iter st /\
  Info.res_prim (_info (solve_finish st)) = Info.res_prim (_info st) /\
  Info.res_dual (_info (solve_finish st)) = Info.res_dual (_info st) /\
  Info.status (_info (solve_finish st))
  = (if iter st >? Settings.max_iter (_settings st)
     then Info.MAX_ITER else Info.status (_info st)).
Proof.
  unfold solve_finish. cbv zeta.
  destruct (iter st >? Settings.max_iter (_settings st));
    repeat split; reflexivity.
Qed.

(** The fuel [solve] gives its loop is never used up: the loop is left by
    [break] or by its condition, and the counter and the status follow. *)
Lemma solve_exit_cases (qp : QP.t S) (st : solver) :
  let r := solve qp st in
  let mx := Settings.max_iter (_settings st) in
  _settings r = _settings st /\
  match solve_exit qp st with
  | ExitBreak =>
      Info.status (_info r) = Info.SOLVED /\
      1 <= Info.iter (_info r) <= mx /\
      exists st0,
        _settings st0 = _settings st /\
        iter st0 = Info.iter (_info r) /\
        loop_body qp st0 = (Break, snd (solve_loop qp st))
  | ExitCondition =>
      Info.status (_info r) = Info.MAX_ITER /\
      Info.iter (_info r) = Z.max 1 (mx + 1)
  | OutOfFuel => False
  end.
Proof.
  unfold solve, solve_exit, solve_loop. cbv zeta.
  pose proof (solve_init_frame qp st) as (Hi & Hs & _). cbv zeta in Hi, Hs.
  set (st1 := solve_init qp st) in *.
  pose proof (admm_loop_exit qp (solve_fuel st1) st1) as [Hs2 He].
  pose proof (solve_finish_frame (snd (admm_loop (solve_fuel st1) qp st1)))
    as (_ & _ & _ & _ & Hfs & _ & _ & _ & _ & _ & _ & Hfi & _ & _ & Hst).
  cbv zeta in Hfs, Hfi, Hst.
  rewrite Hs in Hs2, He. rewrite Hi in He.
  destruct (admm_loop (solve_fuel st1) qp st1) as [e st2]; cbn [fst snd] in *.
  split; [congruence|]. rewrite Hs2 in Hst.
  destruct e.
  - destruct He as [Hr (st0 & Hs0 & Hb)]. rewrite Hfi, Hst.
    replace (iter st2 >? Settings.max_iter (_settings st)) with false
      by (symmetry; rewrite Z.gtb_ltb; apply Z.ltb_ge; lia).
    split; [|split; [lia|]].
    + apply loop_body_break in Hb.
      destruct Hb as (_ & _ & ->). reflexivity.
    + exists st0. split; [exact Hs0|]. split; [|exact Hb].
      pose proof (loop_body_frame qp st0) as (Hit & _).
      rewrite Hb in Hit. exact (eq_sym Hit).
  - rewrite Hfi, Hst, He.
    replace (Z.max 1 (Settings.max_iter (_settings st) + 1)
             >? Settings.max_iter (_settings st)) with true
      by (symmetry; rewrite Z.gtb_ltb; apply Z.ltb_lt; lia).
    auto.
  - destruct He as [He Hb]. unfold solve_fuel in He, Hb. rewrite Hs in He, Hb.
    specialize (Hb ltac:(discriminate)). lia.
Qed.

(** With the settings of [defined_run] the solver with the 32-bit counter
    returns, within the [max_iter + 1] tests of the loop condition, what
    [solve] returns, and the counter it reports is an [int]. *)
Lemma solve_int_returns (qp : QP.t S) (st : solver) :
  defined_run (_settings st) ->
  (forall fuel, (solve_fuel (solve_init qp st) <= fuel)%nat ->
                solve_int fuel qp st = Returned (solve qp st)) /\
  int_range (Info.iter (_info (solve qp st))).
Proof.
  intros Hdef.
  destruct (solve_exit_cases qp st) as [_ Hex]. cbv zeta in Hex.
  assert (He : solve_exit qp st <> OutOfFuel).
  { destruct (solve_exit qp st); [discriminate | discriminate | easy]. }
  assert (Hr : 1 <= Info.iter (_info (solve qp st))
               <= Z.max 1 (Settings.max_iter (_settings st) + 1)).
  { destruct (solve_exit qp st).
    - destruct Hex as (_ & Hi & _). lia.
    - destruct Hex as (_ & Hi). lia.
    - contradiction. }
  clear Hex. split.
  - destruct (solve_init_frame qp st) as (Hi & Hs & _).
    assert (Ha : admm_loop_int (solve_fuel (solve_init qp st)) qp
                               (solve_init qp st)
                 = match admm_loop (solve_fuel (solve_init qp st)) qp
                                   (solve_init qp st) with
                   | (OutOfFuel, _) => Running
                   | (_, s) => Returned s
                   end).
    { apply admm_loop_int_agrees.
      - now rewrite Hs.
      - rewrite Hi. reflexivity. }
    assert (Ui : forall fuel,
               solve_int fuel qp st
               = match admm_loop_int fuel qp (solve_init qp st) with
                 | Returned s => Returned (solve_finish s)
                 | Trapped => Trapped
                 | Running => Running
                 end) by reflexivity.
    assert (Us : solve qp st
                 = solve_finish
                     (snd (admm_loop (solve_fuel (solve_init qp st)) qp
                                     (solve_init qp st)))) by reflexivity.
    assert (Ue : solve_exit qp st
                 = fst (admm_loop (solve_fuel (solve_init qp st)) qp
                                  (solve_init qp st))) by reflexivity.
    rewrite Ue in He.
    assert (Hn : admm_loop_int (solve_fuel (solve_init qp st)) qp
                               (solve_init qp st) <> Running).
    { rewrite Ha. revert He.
      generalize (admm_loop (solve_fuel (solve_init qp st)) qp
                            (solve_init qp st)).
      intros [e s2] He. cbn [fst] in He.
      destruct e; [discriminate | discriminate | now destruct He]. }
    intros fuel Hfuel.
    replace fuel
      with (solve_fuel (solve_init qp st)
            + (fuel - solve_fuel (solve_init qp st)))%nat by lia.
    rewrite Ui, (admm_loop_int_fuel qp _ _ _ Hn), Ha, Us.
    revert He.
    generalize (admm_loop (solve_fuel (solve_init qp st)) qp
                          (solve_init qp st)).
    intros [e s2] He. cbn [fst snd] in *.
    destruct e; [reflexivity | reflexivity | now destruct He].
  - destruct Hdef as [Hmx _]. unfold int_range, INT_MIN, INT_MAX in *. lia.
Qed.


(** The norms, residuals and tolerances read [x], [y], [z] and the
    settings only. *)
Lemma residuals_ext (qp : QP.t S) (st st' : solver) :
  x st' = x st -> y st' = y st -> z st' = z st ->
  _settings st' = _settings st ->
  residual_prim qp st' = residual_prim qp st /\
  residual_dual qp st' = residual_dual qp st /\
  eps_prim qp st' = eps_prim qp st /\
  eps_dual qp st' = eps_dual qp st.
Proof.
  intros Hx Hy Hz Hs.
  unfold residual_prim, residual_dual, eps_prim, eps_dual, Ax, Px, ATy.
  rewrite Hx, Hy, Hz, Hs. auto.
Qed.

Lemma termination_criteria_update_state (qp : QP.t S) (st : solver) :
  termination_criteria qp (update_state qp st)
  = (residual_prim qp st <=? eps_prim qp st)%sc
    && (residual_dual qp st <=? eps_dual qp st)%sc.
Proof. reflexivity. Qed.

(** *** Constraint classification *)

Lemma constr_type_init_coeff (qp : QP.t S) (st : solver) (i : nat) :
  (i < m)%nat ->
  coeff INEQUALITY_CONSTRAINT (constr_type (constr_type_init qp st)) i
  = classify (vec (QP.l qp) i) (vec (QP.u qp) i).
Proof.
  intros Hi. unfold constr_type_init.
  change (constr_type (set_constr_type st ?c)) with c.
  exact (for_range_write_all INEQUALITY_CONSTRAINT
           (fun i => classify (vec (QP.l qp) i) (vec (QP.u qp) i))
           m (constr_type st) i Hi).
Qed.

Lemma solve_init_constr_type (qp : QP.t S) (st : solver) :
  constr_type (solve_init qp st) = constr_type (constr_type_init qp st).
Proof.
  unfold solve_init. cbv zeta.
  destruct (negb (Settings.warm_start (_settings st))); reflexivity.
Qed.

Lemma loop_body_constr_type (qp : QP.t S) (st : solver) :
  constr_type (snd (loop_body qp st)) = constr_type st.
Proof. apply loop_body_frame. Qed.

Lemma solve_constr_type (qp : QP.t S) (st : solver) :
  constr_type (solve qp st) = constr_type (constr_type_init qp st).
Proof.
  unfold solve, solve_loop. cbv zeta.
  destruct (solve_finish_frame
              (snd (admm_loop (solve_fuel (solve_init qp st)) qp
                              (solve_init qp st))))
    as (_ & _ & _ & _ & _ & -> & _).
  rewrite <- solve_init_constr_type.
  apply (admm_loop_invariant qp
           (fun s => constr_type s = constr_type (solve_init qp st))).
  - intros s Hs. now rewrite loop_body_constr_type.
  - intros s k Hs. exact Hs.
  - reflexivity.
Qed.

Lemma classify_cases (li ui : S) :
  let loose :=
    (li <? - s_lit 1 16)%sc && (ui >? s_lit 1 16)%sc in
  let tight := (ui - li <? s_lit 1 (-4))%sc in
  (classify li ui = LOOSE_BOUNDS <-> loose = true) /\
  (classify li ui = EQUALITY_CONSTRAINT <-> loose = false /\ tight = true) /\
  (classify li ui = INEQUALITY_CONSTRAINT <-> loose = false /\ tight = false).
Proof.
  unfold classify, LOOSE_BOUNDS_THRESH, RHO_TOL. cbv zeta.
  destruct ((li <? - s_lit 1 16)%sc && (ui >? s_lit 1 16)%sc);
    destruct (ui - li <? s_lit 1 (-4))%sc;
    repeat split; intros; try discriminate; try tauto;
    match goal with H : _ /\ _ |- _ => destruct H; discriminate end.
Qed.

(** C4.  Row [i] is classified once, when [solve] starts: LOOSE_BOUNDS iff
    [l i < -1e16] and [u i > 1e16] (both strict); otherwise EQUALITY iff
    [u i - l i < 1e-4]; otherwise INEQUALITY.  No pass of the loop changes
    [constr_type], and [solve] returns with the classification it started
    with. *)
Theorem constr_type_classification (qp : QP.t S) (st : solver) (i : nat) :
  (i < m)%nat ->
  let li := vec (QP.l qp) i in
  let ui := vec (QP.u qp) i in
  let loose := (li <? - s_lit 1 16)%sc && (ui >? s_lit 1 16)%sc in
  let tight := (ui - li <? s_lit 1 (-4))%sc in
  let c := coeff INEQUALITY_CONSTRAINT (constr_type (solve qp st)) i in
  (c = LOOSE_BOUNDS <->
   (li <? - s_lit 1 16)%sc = true /\ (ui >? s_lit 1 16)%sc = true) /\
  (c = EQUALITY_CONSTRAINT <-> loose = false /\ tight = true) /\
  (c = INEQUALITY_CONSTRAINT <-> loose = false /\ tight = false) /\
  constr_type (solve qp st) = constr_type (constr_type_init qp st) /\
  (forall st', constr_type (snd (loop_body qp st')) = constr_type st').
Proof.
  intros Hi li ui loose tight c.
  assert (Hc : c = classify li ui).
  { unfold c. rewrite solve_constr_type. now apply constr_type_init_coeff. }
  destruct (classify_cases li ui) as (Hl & He & Hn). cbv zeta in Hl, He, Hn.
  rewrite Hc.
  split; [|split; [exact He | split; [exact Hn | split]]].
  - rewrite Hl. apply andb_true_iff.
  - apply solve_constr_type.
  - apply loop_body_constr_type.
Qed.

(** *** Penalty schedule *)

Context {L : ScalarLaws S}.

Lemma rho_update_rho_vec (rho0 : S) (st : solver) (i : nat) :
  (i < m)%nat ->
  vec (rho_vec (rho_update rho0 st)) i
  = rho_of rho0 (coeff INEQUALITY_CONSTRAINT (constr_type st) i).
Proof.
  intros Hi.
  exact (for_range_write_all s_zero
           (fun i => rho_of rho0 (coeff INEQUALITY_CONSTRAINT (constr_type st) i))
           m (rho_vec st) i Hi).
Qed.

Lemma rho_update_rho_inv_vec (rho0 : S) (st : solver) (i : nat) :
  (i < m)%nat ->
  vec (rho_inv_vec (rho_update rho0 st)) i
  = (s_one / vec (rho_vec (rho_update rho0 st)) i)%sc.
Proof.
  intros Hi. unfold rho_update. cbv zeta.
  change (rho_inv_vec (set_rho (set_rho_inv_vec ?s ?v) _)) with v.
  now rewrite vec_vassign.
Qed.

Lemma rho_of_pos (rho0 : S) (c : constr_t) :
  (s_zero <? rho0)%sc = true -> (s_zero <? rho_of rho0 c)%sc = true.
Proof.
  intros Hpos. destruct c; cbn [rho_of].
  - exact Hpos.
  - apply s_mul_pos; [apply s_lit_pos; lia | exact Hpos].
  - apply s_lit_pos. lia.
Qed.

(** C5.  After [rho_update rho0] with [rho0 > 0]: row [i] has penalty 1e-6
    if it is LOOSE_BOUNDS, 1e3 * rho0 if EQUALITY, rho0 if INEQUALITY;
    [rho_inv_vec i] is [1 / rho_vec i]; [rho_vec i] is positive; and the
    scalar [rho] is [rho0]. *)
Theorem rho_update_schedule (rho0 : S) (st : solver) (i : nat) :
  (s_zero <? rho0)%sc = true ->
  (i < m)%nat ->
  let st' := rho_update rho0 st in
  vec (rho_vec st') i
  = match coeff INEQUALITY_CONSTRAINT (constr_type st) i with
    | LOOSE_BOUNDS => s_lit 1 (-6)
    | EQUALITY_CONSTRAINT => (s_lit 1 3 * rho0)%sc
    | INEQUALITY_CONSTRAINT => rho0
    end /\
  vec (rho_inv_vec st') i = (s_one / vec (rho_vec st') i)%sc /\
  (s_zero <? vec (rho_vec st') i)%sc = true /\
  rho st' = rho0 /\
  constr_type st' = constr_type st.
Proof.
  intros Hpos Hi st'. unfold st'.
  rewrite rho_update_rho_inv_vec, rho_update_rho_vec by exact Hi.
  split; [|split; [reflexivity | split; [|split; reflexivity]]].
  - now destruct (coeff INEQUALITY_CONSTRAINT (constr_type st) i).
  - now apply rho_of_pos.
Qed.

(** *** The KKT system *)

Lemma UpLo_test_true : UpLo_test LinearSolver_UpLo = true.
Proof.
  unfold UpLo_test.
  now destruct (LinearSolver_UpLo =? Eigen_Upper).
Qed.

(** The assembled matrix, block by block, and the right-hand side. *)
Lemma KKT_blocks (qp : QP.t S) (st : solver) (rhs0 : vector S) :
  let sigma := Settings.sigma (_settings st) in
  let st' := KKT_mat_update qp st in
  let M := mat (kkt_mat st') in
  let rhs := vec (form_KKT_rhs qp st rhs0) in
  (forall i j, (i < n)%nat -> (j < n)%nat ->
     M i j = (mat (QP.P qp) i j + sigma * Identity i j)%sc) /\
  (forall i j, (i < m)%nat -> (j < m)%nat ->
     M (n + i)%nat (n + j)%nat
     = if Nat.eqb i j then (s_lit (-1) 0 * vec (rho_inv_vec st) i)%sc
       else s_zero) /\
  (forall i j, (i < m)%nat -> (j < n)%nat ->
     M (n + i)%nat j = mat (QP.A qp) i j) /\
  (forall i j, (i < n)%nat -> (j < m)%nat ->
     M i (n + j)%nat = mat (QP.A qp) j i) /\
  kkt_mat_sparse st' = kkt_mat st' /\
  length (kkt_mat st') = (n + m)%nat /\
  (forall i, (i < n + m)%nat ->
     length (coeff [] (kkt_mat st') i) = (n + m)%nat) /\
  length (form_KKT_rhs qp st rhs0) = (n + m)%nat /\
  (forall i, (i < n)%nat ->
     rhs i = (sigma * vec (x st) i - vec (QP.q qp) i)%sc) /\
  (forall i, (i < m)%nat ->
     rhs (n + i)%nat
     = (vec (z st) i - vec (rho_inv_vec st) i * vec (y st) i)%sc).
Proof.
  intros sigma st' M rhs. unfold M, st', rhs, KKT_mat_update, form_KKT_rhs.
  cbv zeta. rewrite UpLo_test_true.
  change (kkt_mat (set_kkt_mat_sparse (set_kkt_mat ?s ?k) _)) with k.
  replace (n + m - m)%nat with n by lia.
  repeat split.
  - intros i j Hi Hj.
    rewrite !mat_block_assign by lia.
    rewrite (in_block_false n n), (in_block_false n 0), (in_block_false 0 n),
      (in_block_true 0 0) by lia.
    now rewrite !Nat.sub_0_r.
  - intros i j Hi Hj.
    rewrite !mat_block_assign by lia.
    rewrite (in_block_true n n) by lia.
    replace (n + i - n)%nat with i by lia.
    replace (n + j - n)%nat with j by lia.
    unfold asDiagonal, vscale.
    reflexivity.
  - intros i j Hi Hj.
    rewrite !mat_block_assign by lia.
    rewrite (in_block_false n n), (in_block_true n 0) by lia.
    replace (n + i - n)%nat with i by lia.
    now rewrite Nat.sub_0_r.
  - intros i j Hi Hj.
    rewrite !mat_block_assign by lia.
    rewrite (in_block_false n n), (in_block_false n 0), (in_block_true 0 n)
      by lia.
    replace (n + j - n)%nat with j by lia.
    now rewrite Nat.sub_0_r.
  - apply length_assign.
  - intros i Hi. unfold block_assign at 1. unfold massign.
    rewrite coeff_assign by exact Hi. apply length_assign.
  - apply length_assign.
  - intros i Hi.
    rewrite !vec_segment_assign by lia.
    replace ((n <=? i)%nat && (i <? n + m)%nat) with false
      by (symmetry; destruct (Nat.leb_spec n i); simpl; auto; lia).
    replace ((0 <=? i)%nat && (i <? 0 + n)%nat) with true
      by (symmetry; apply andb_true_iff; split;
          [apply Nat.leb_le | apply Nat.ltb_lt]; lia).
    now rewrite Nat.sub_0_r.
  - intros i Hi.
    rewrite vec_segment_assign by lia.
    replace ((n <=? n + i)%nat && (n + i <? n + m)%nat) with true
      by (symmetry; apply andb_true_iff; split;
          [apply Nat.leb_le | apply Nat.ltb_lt]; lia).
    now replace (n + i - n)%nat with i by lia.
Qed.

(** *** The relaxed update and the box projection *)

Lemma std_clamp_within (zi li ui : S) :
  (li <=? ui)%sc = true ->
  (li <=? std_min (std_max zi li) ui)%sc = true /\
  (std_min (std_max zi li) ui <=? ui)%sc = true.
Proof.
  intros Hlu. unfold std_min, std_max.
  destruct (zi <? li)%sc eqn:Hzl.
  - rewrite (s_le_nlt _ _ Hlu). split; [apply s_le_refl | exact Hlu].
  - apply s_nlt_le in Hzl.
    destruct (ui <? zi)%sc eqn:Huz.
    + split; [exact Hlu | apply s_le_refl].
    + split; [exact Hzl | now apply s_nlt_le].
Qed.


Lemma box_projection_within (qp : QP.t S) (zv : vector S) :
  bounds_ordered m qp ->
  within_bounds m qp (box_projection zv (QP.l qp) (QP.u qp)).
Proof.
  intros Hlu i Hi. unfold box_projection.
  rewrite vec_vassign by exact Hi.
  apply std_clamp_within, Hlu, Hi.
Qed.


(** The vectors an iteration assigns, each in terms of those assigned
    before it. *)
Lemma admm_update_vectors (qp : QP.t S) (st : solver) :
  let alpha := Settings.alpha (_settings st) in
  let w := ls_solve (linear_solver st) (form_KKT_rhs qp st []) in
  let st' := admm_update qp st in
  let relaxed :=
    vadd (vscale alpha (vec (z_tilde st')))
         (vscale (s_one - alpha)%sc (vec (z_prev st'))) in
  z_prev st' = vassign m (vec (z st)) /\
  x_tilde st' = vassign n (head (vec w)) /\
  z_tilde st'
  = vassign m
      (vadd (vec (z_prev st'))
            (cwiseProduct (vec (rho_inv_vec st))
                          (vsub (tail (n + m) m (vec w)) (vec (y st))))) /\
  x st'
  = vassign n
      (vadd (vscale alpha (vec (x_tilde st')))
            (vscale (s_one - alpha)%sc (vec (x st)))) /\
  z st'
  = box_projection
      (vassign m
         (vadd relaxed (cwiseProduct (vec (rho_inv_vec st)) (vec (y st)))))
      (QP.l qp) (QP.u qp) /\
  y st'
  = vassign m
      (vadd (vec (y st))
            (cwiseProduct (vec (rho_vec st)) (vsub relaxed (vec (z st'))))).
Proof. repeat split; reflexivity. Qed.


(** The coefficients an iteration assigns, in terms of the incoming state
    and of the linear solver's answer [w]. *)
Lemma admm_update_components (qp : QP.t S) (st : solver) :
  let alpha := Settings.alpha (_settings st) in
  let rho_inv := vec (rho_inv_vec st) in
  let w := vec (ls_solve (linear_solver st) (form_KKT_rhs qp st [])) in
  let st' := admm_update qp st in
  let zt i := (vec (z st) i + rho_inv i * (w (n + i)%nat - vec (y st) i))%sc in
  let relaxed i := (alpha * zt i + (s_one - alpha) * vec (z st) i)%sc in
  (forall i, (i < n)%nat ->
     vec (x_tilde st') i = w i /\
     vec (x st') i = (alpha * w i + (s_one - alpha) * vec (x st) i)%sc) /\
  (forall i, (i < m)%nat ->
     vec (z_prev st') i = vec (z st) i /\
     vec (z_tilde st') i = zt i /\
     vec (z st') i
     = std_min (std_max (relaxed i + rho_inv i * vec (y st) i)%sc
                        (vec (QP.l qp) i))
               (vec (QP.u qp) i) /\
     vec (y st') i
     = (vec (y st) i + vec (rho_vec st) i * (relaxed i - vec (z st') i))%sc).
Proof.
  intros alpha rho_inv w st' zt relaxed.
  destruct (admm_update_vectors qp st) as (Hzp & Hxt & Hzt & Hx & Hz & Hy).
  cbv zeta in Hzp, Hxt, Hzt, Hx, Hz, Hy. fold st' in Hzp, Hxt, Hzt, Hx, Hz, Hy.
  assert (Ezp : forall i, (i < m)%nat -> vec (z_prev st') i = vec (z st) i).
  { intros i Hi. rewrite Hzp. now apply vec_vassign. }
  assert (Ezt : forall i, (i < m)%nat -> vec (z_tilde st') i = zt i).
  { intros i Hi. rewrite Hzt, vec_vassign by exact Hi.
    unfold vadd, cwiseProduct, vsub, tail, zt, w, rho_inv.
    rewrite Ezp by exact Hi.
    now replace (n + m - m + i)%nat with (n + i)%nat by lia. }
  assert (Ext : forall i, (i < n)%nat -> vec (x_tilde st') i = w i).
  { intros i Hi. rewrite Hxt. now apply vec_vassign. }
  split.
  - intros i Hi. split; [now apply Ext|].
    rewrite Hx, vec_vassign by exact Hi.
    unfold vadd, vscale. now rewrite Ext by exact Hi.
  - intros i Hi. split; [now apply Ezp|]. split; [now apply Ezt|]. split.
    + rewrite Hz. unfold box_projection.
      rewrite !vec_vassign by exact Hi.
      unfold cwiseMin, cwiseMax. rewrite vec_vassign by exact Hi.
      unfold vadd, vscale, cwiseProduct, relaxed.
      now rewrite Ezt, Ezp by exact Hi.
    + rewrite Hy, vec_vassign by exact Hi.
      unfold vadd, vscale, cwiseProduct, vsub, relaxed.
      now rewrite Ezt, Ezp by exact Hi.
Qed.


(** What every projection establishes of [z] holds through the rest of
    the pass, and of the [z] that [solve] returns after at least one
    pass. *)
Lemma projected_z_kept (qp : QP.t S) (I : vector S -> Prop) :
  (forall s, I (z (admm_update qp s))) ->
  forall st,
    I (z (snd (loop_body qp st))) /\
    (1 <= Settings.max_iter (_settings st) -> I (z (solve qp st))).
Proof.
  intros Hup.
  assert (Hbody : forall s, I (z (snd (loop_body qp s)))).
  { intros s. destruct (loop_body_frame qp s) as (_ & _ & _ & _ & Hz & _).
    rewrite Hz. apply Hup. }
  intros st. split; [apply Hbody|].
  intros Hmax. unfold solve, solve_loop. cbv zeta.
  destruct (solve_init_frame qp st) as (Hi & Hs & _).
  destruct (solve_finish_frame
              (snd (admm_loop (solve_fuel (solve_init qp st)) qp
                              (solve_init qp st))))
    as (_ & _ & Hz & _).
  rewrite Hz.
  apply (admm_loop_established qp (fun s => I (z s))).
  - exact Hbody.
  - intros s k Hs'. exact Hs'.
  - rewrite Hi, Hs. exact Hmax.
Qed.

(** Over an ordered element type, with [l <= u] in every row, [z] lies
    between [l] and [u] once a pass has projected it, stays there through
    the rest of the pass (termination test, adaptive step), and is there
    when [solve] returns after at least one pass. *)
Lemma z_in_box_ordered (qp : QP.t S) (st : solver) :
  bounds_ordered m qp ->
  within_bounds m qp (z (admm_update qp st)) /\
  within_bounds m qp (z (snd (loop_body qp st))) /\
  (1 <= Settings.max_iter (_settings st) ->
   within_bounds m qp (z (solve qp st))).
Proof.
  intros Hlu.
  assert (Hup : forall s, within_bounds m qp (z (admm_update qp s))).
  { intros s. destruct (admm_update_vectors qp s) as (_ & _ & _ & _ & Hz & _).
    cbv zeta in Hz. rewrite Hz. now apply box_projection_within. }
  assert (Hbody : forall s, within_bounds m qp (z (snd (loop_body qp s)))).
  { intros s. destruct (loop_body_frame qp s) as (_ & _ & _ & _ & Hz & _).
    cbv zeta in Hz. rewrite Hz. apply Hup. }
  split; [apply Hup | split; [apply Hbody|]].
  intros Hmax. unfold solve, solve_loop. cbv zeta.
  destruct (solve_init_frame qp st) as (Hi & Hs & _). cbv zeta in Hi, Hs.
  destruct (solve_finish_frame
              (snd (admm_loop (solve_fuel (solve_init qp st)) qp
                              (solve_init qp st))))
    as (_ & _ & Hz & _).
  cbv zeta in Hz. rewrite Hz.
  apply (admm_loop_established qp (fun s => within_bounds m qp (z s))).
  - exact Hbody.
  - intros s k Hs'. exact Hs'.
  - rewrite Hi, Hs. exact Hmax.
Qed.

(** *** Termination *)

(** C2.  If [solve] returns with status SOLVED, the returned [x], [y], [z]
    satisfy the two residual tests: the infinity norm of [A x - z] is at most
    [eps_abs + eps_rel * max(|A x|, |z|)], and that of [P x + q + A^T y] at
    most [eps_abs + eps_rel * max(|P x|, |A^T y|, |q|)]; [info] reports these
    residuals. *)
Theorem solved_within_tolerances (qp : QP.t S) (st : solver) :
  Info.status (_info (solve qp st)) = Info.SOLVED ->
  let r := solve qp st in
  let eps_abs := Settings.eps_abs (_settings r) in
  let eps_rel := Settings.eps_rel (_settings r) in
  (lpNorm_Infinity m (vsub (Ax qp r) (vec (z r)))
   <=? eps_abs + eps_rel * s_fmax (lpNorm_Infinity m (Ax qp r))
                                  (lpNorm_Infinity m (vec (z r))))%sc = true /\
  (lpNorm_Infinity n (vadd (vadd (Px qp r) (vec (QP.q qp))) (ATy qp r))
   <=? eps_abs
       + eps_rel * s_fmax (lpNorm_Infinity n (Px qp r))
                          (s_fmax (lpNorm_Infinity n (ATy qp r))
                                  (lpNorm_Infinity n (vec (QP.q qp)))))%sc
  = true /\
  Info.res_prim (_info r) = residual_prim qp r /\
  Info.res_dual (_info r) = residual_dual qp r.
Proof.
  intros Hsolved r eps_abs eps_rel.
  destruct (solve_exit_cases qp st) as [_ Hex]. cbv zeta in Hex.
  destruct (solve_exit qp st).
  - destruct Hex as (_ & _ & st0 & _ & _ & Hb).
    apply loop_body_break in Hb. destruct Hb as (_ & Hcrit & Hst).
    rewrite termination_criteria_update_state in Hcrit.
    apply andb_true_iff in Hcrit.
    set (a := admm_update qp st0) in *.
    assert (Hr : x r = x a /\ y r = y a /\ z r = z a /\
                 _settings r = _settings a /\
                 Info.res_prim (_info r) = residual_prim qp a /\
                 Info.res_dual (_info r) = residual_dual qp a).
    { unfold r, solve.
      destruct (solve_finish_frame (snd (solve_loop qp st)))
        as (_ & Hx & Hz & Hy & Hs & _ & _ & _ & _ & _ & _ & _ & Hp & Hd & _).
      cbv zeta in Hx, Hy, Hz, Hs, Hp, Hd.
      rewrite Hx, Hy, Hz, Hs, Hp, Hd, Hst. repeat split; reflexivity. }
    destruct Hr as (Hx & Hy & Hz & Hs & Hp & Hd).
    destruct (residuals_ext qp a r Hx Hy Hz Hs) as (Rp & Rd & Ep & Ed).
    rewrite <- Rp, <- Rd, <- Ep, <- Ed in Hcrit.
    rewrite Hp, Hd, Rp, Rd.
    destruct Hcrit as [Hprim Hdual]. repeat split; assumption.
  - destruct Hex as [Hmax _]. rewrite Hmax in Hsolved. discriminate.
  - contradiction.
Qed.

Lemma check_termination_flag_frame (qp : QP.t S) (st : solver) :
  check_termination_flag (admm_update qp st) = check_termination_flag st.
Proof. reflexivity. Qed.

Lemma adaptive_rho_due_admm_update (qp : QP.t S) (st : solver) :
  adaptive_rho_due (admm_update qp st) = adaptive_rho_due st.
Proof. reflexivity. Qed.

Lemma adaptive_rho_due_update_state (qp : QP.t S) (st : solver) :
  adaptive_rho_due (update_state qp st) = adaptive_rho_due st.
Proof. reflexivity. Qed.

Lemma rho_trigger_admm_update (qp : QP.t S) (st : solver) (new_rho : S) :
  rho_trigger (admm_update qp st) new_rho = rho_trigger st new_rho.
Proof. reflexivity. Qed.

Lemma rho_trigger_update_state (qp : QP.t S) (st : solver) (new_rho : S) :
  rho_trigger (update_state qp st) new_rho = rho_trigger st new_rho.
Proof. reflexivity. Qed.

Lemma rho_admm_update (qp : QP.t S) (st : solver) :
  rho (update_state qp (admm_update qp st)) = rho st.
Proof. reflexivity. Qed.





(** *** Adaptive penalty *)

(** The state a pass ends in, by the three decisions it takes.  The
    residuals are refreshed once, by the termination test or else by the
    adaptive step, before the new penalty is estimated. *)
Lemma loop_body_result (qp : QP.t S) (st : solver) :
  let a := admm_update qp st in
  let st1 := update_state qp a in
  let new_rho := clamp_rho (rho_estimate (rho st) qp st1) in
  snd (loop_body qp st)
  = if check_termination_flag st && termination_criteria qp st1
    then set_info st1 (Info.set_status (_info st1) Info.SOLVED)
    else if adaptive_rho_due st && rho_trigger st new_rho
         then let s := KKT_mat_update qp (rho_update new_rho st1) in
              set_linear_solver s
                (ls_factorize (linear_solver s) (kkt_mat_sparse s))
         else if check_termination_flag st || adaptive_rho_due st
              then st1 else a.
Proof.
  cbv zeta. unfold loop_body, termination_step, adaptive_rho_step. cbv zeta.
  rewrite check_termination_flag_frame.
  destruct (check_termination_flag st); cbn [andb orb negb].
  - destruct (termination_criteria qp (update_state qp (admm_update qp st)));
      cbn [snd]; [reflexivity|].
    rewrite adaptive_rho_due_update_state, adaptive_rho_due_admm_update.
    destruct (adaptive_rho_due st); cbn [andb]; [|reflexivity].
    rewrite rho_trigger_update_state, rho_trigger_admm_update, rho_admm_update.
    now destruct (rho_trigger st _).
  - cbn [snd]. rewrite adaptive_rho_due_admm_update.
    destruct (adaptive_rho_due st); cbn [andb]; [|reflexivity].
    rewrite rho_trigger_update_state, rho_trigger_admm_update, rho_admm_update.
    now destruct (rho_trigger st _).
Qed.

(** The estimate in terms of the residuals and norms of the iterate. *)
Lemma rho_estimate_formula (qp : QP.t S) (a : solver) :
  let zeta := s_lit 1 (-10) in
  let rp :=
    (residual_prim qp a
     / (s_fmax (lpNorm_Infinity m (Ax qp a)) (lpNorm_Infinity m (vec (z a)))
        + zeta))%sc in
  let rd :=
    (residual_dual qp a
     / (s_fmax (lpNorm_Infinity n (Px qp a))
               (s_fmax (lpNorm_Infinity n (ATy qp a))
                       (lpNorm_Infinity n (vec (QP.q qp))))
        + zeta))%sc in
  clamp_rho (rho_estimate (rho a) qp (update_state qp a))
  = s_fmax (s_lit 1 (-6))
           (s_fmin (rho a * s_sqrt (rp / (rd + zeta)))%sc (s_lit 1 6)).
Proof. reflexivity. Qed.

Lemma set_linear_solver_frame (s : solver) (ls : linear_solver_t) :
  _settings (set_linear_solver s ls) = _settings s /\
  rho (set_linear_solver s ls) = rho s /\
  rho_vec (set_linear_solver s ls) = rho_vec s /\
  rho_inv_vec (set_linear_solver s ls) = rho_inv_vec s /\
  constr_type (set_linear_solver s ls) = constr_type s /\
  kkt_mat (set_linear_solver s ls) = kkt_mat s /\
  kkt_mat_sparse (set_linear_solver s ls) = kkt_mat_sparse s /\
  linear_solver (set_linear_solver s ls) = ls.
Proof. repeat split; reflexivity. Qed.

(** The members [rho_update] and [KKT_mat_update] leave alone. *)
Lemma refresh_frame (qp : QP.t S) (rho1 : S) (s0 : solver) :
  let s := KKT_mat_update qp (rho_update rho1 s0) in
  rho s = rho1 /\ rho_vec s = rho_vec (rho_update rho1 s0) /\
  rho_inv_vec s = rho_inv_vec (rho_update rho1 s0) /\
  _settings s = _settings s0 /\ linear_solver s = linear_solver s0 /\
  constr_type s = constr_type s0.
Proof. repeat split; reflexivity. Qed.

Lemma update_state_admm_update_frame (qp : QP.t S) (st : solver) :
  constr_type (update_state qp (admm_update qp st)) = constr_type st /\
  _settings (update_state qp (admm_update qp st)) = _settings st /\
  linear_solver (update_state qp (admm_update qp st)) = linear_solver st.
Proof. repeat split; reflexivity. Qed.

(** The solver object after the penalty has been changed to [rho1]: the
    penalty vectors follow [rho1] and the classification, the KKT matrix is
    the one of the problem with the lower right block of the new penalty,
    and the linear solver has factorized that matrix. *)
Lemma refreshed_penalty_and_KKT (qp : QP.t S) (rho1 : S) (s0 : solver) :
  let s := KKT_mat_update qp (rho_update rho1 s0) in
  let r := set_linear_solver s
             (ls_factorize (linear_solver s) (kkt_mat_sparse s)) in
  let ct i := coeff INEQUALITY_CONSTRAINT (constr_type s0) i in
  rho r = rho1 /\
  (forall i, (i < m)%nat ->
     vec (rho_vec r) i = rho_of rho1 (ct i) /\
     vec (rho_inv_vec r) i = (s_one / rho_of rho1 (ct i))%sc) /\
  (forall i j, (i < n)%nat -> (j < n)%nat ->
     mat (kkt_mat r) i j
     = (mat (QP.P qp) i j
        + Settings.sigma (_settings s0) * Identity i j)%sc) /\
  (forall i j, (i < m)%nat -> (j < m)%nat ->
     mat (kkt_mat r) (n + i)%nat (n + j)%nat
     = if Nat.eqb i j
       then (s_lit (-1) 0 * (s_one / rho_of rho1 (ct i)))%sc
       else s_zero) /\
  (forall i j, (i < m)%nat -> (j < n)%nat ->
     mat (kkt_mat r) (n + i)%nat j = mat (QP.A qp) i j) /\
  (forall i j, (i < n)%nat -> (j < m)%nat ->
     mat (kkt_mat r) i (n + j)%nat = mat (QP.A qp) j i) /\
  kkt_mat_sparse r = kkt_mat r /\
  linear_solver r = ls_factorize (linear_solver s0) (kkt_mat r).
Proof.
  intros s r ct.
  destruct (refresh_frame qp rho1 s0) as (Fr & Fv & Fi & Fs & Fl & Fc).
  fold s in Fr, Fv, Fi, Fs, Fl, Fc.
  destruct (KKT_blocks qp (rho_update rho1 s0) [])
    as (Htl & Hbr & Hbl & Htr & Hsp & _).
  fold s in Htl, Hbr, Hbl, Htr, Hsp.
  assert (Es : _settings (rho_update rho1 s0) = _settings s0) by reflexivity.
  rewrite Es in Htl.
  assert (Rv : forall i, (i < m)%nat ->
             vec (rho_vec (rho_update rho1 s0)) i = rho_of rho1 (ct i)).
  { intros i Hi. now apply rho_update_rho_vec. }
  assert (Ri : forall i, (i < m)%nat ->
             vec (rho_inv_vec (rho_update rho1 s0)) i
             = (s_one / rho_of rho1 (ct i))%sc).
  { intros i Hi. rewrite rho_update_rho_inv_vec by exact Hi.
    now rewrite Rv. }
  clearbody s.
  destruct (set_linear_solver_frame s
              (ls_factorize (linear_solver s) (kkt_mat_sparse s)))
    as (_ & Lr & Lv & Li & _ & Lk & Lsp & Ll).
  fold r in Lr, Lv, Li, Lk, Lsp, Ll. clearbody r.
  rewrite Lr, Lv, Li, Lk, Lsp, Ll, Fv, Fi, Fl, Hsp.
  split; [exact Fr|].
  split; [intros i Hi; split; [now apply Rv | now apply Ri]|].
  split; [exact Htl|].
  split.
  { intros i j Hi Hj. rewrite (Hbr i j Hi Hj).
    destruct (Nat.eqb i j); [|reflexivity]. now rewrite Ri. }
  split; [exact Hbl|]. split; [exact Htr|]. split; reflexivity.
Qed.

(** C9.  In a pass of the loop the penalty [rho], its vectors, the KKT
    matrix and the factorization stay as they are unless [adaptive_rho] is
    on, [iter] is a multiple of [adaptive_rho_interval] and the clamped
    estimate [new_rho] is below [rho / adaptive_rho_tolerance] or above
    [rho * adaptive_rho_tolerance]; when they change, [rho] becomes
    [new_rho], the penalty of every row follows [new_rho], the KKT matrix is
    assembled again (its blocks are [P + sigma I], [A], the transpose of
    [A], and [-1.0] times the diagonal of the inverses of the new
    penalties) and the linear solver the pass started with factorizes that
    matrix. *)
Theorem adaptive_rho_cadence (qp : QP.t S) (st : solver) :
  let r := snd (loop_body qp st) in
  let a := admm_update qp st in
  let zeta := s_lit 1 (-10) in
  let rp :=
    (residual_prim qp a
     / (s_fmax (lpNorm_Infinity m (Ax qp a)) (lpNorm_Infinity m (vec (z a)))
        + zeta))%sc in
  let rd :=
    (residual_dual qp a
     / (s_fmax (lpNorm_Infinity n (Px qp a))
               (s_fmax (lpNorm_Infinity n (ATy qp a))
                       (lpNorm_Infinity n (vec (QP.q qp))))
        + zeta))%sc in
  let new_rho :=
    s_fmax (s_lit 1 (-6))
           (s_fmin (rho st * s_sqrt (rp / (rd + zeta)))%sc (s_lit 1 6)) in
  let tol := Settings.adaptive_rho_tolerance (_settings st) in
  let interval := Settings.adaptive_rho_interval (_settings st) in
  let ct i := coeff INEQUALITY_CONSTRAINT (constr_type st) i in
  let unchanged :=
    rho r = rho st /\ rho_vec r = rho_vec st /\
    rho_inv_vec r = rho_inv_vec st /\ kkt_mat r = kkt_mat st /\
    kkt_mat_sparse r = kkt_mat_sparse st /\
    linear_solver r = linear_solver st in
  (Settings.adaptive_rho (_settings st) = false \/
   Z.rem (iter st) interval <> 0 -> unchanged) /\
  ((new_rho <? rho st / tol)%sc = false ->
   (new_rho >? rho st * tol)%sc = false -> unchanged) /\
  (rho r <> rho st \/ rho_vec r <> rho_vec st ->
   Settings.adaptive_rho (_settings st) = true /\
   Z.rem (iter st) interval = 0 /\
   ((new_rho <? rho st / tol)%sc = true \/
    (new_rho >? rho st * tol)%sc = true) /\
   rho r = new_rho /\
   r = (let s := KKT_mat_update qp (rho_update new_rho (update_state qp a)) in
        set_linear_solver s
          (ls_factorize (linear_solver s) (kkt_mat_sparse s))) /\
   (forall i, (i < m)%nat ->
      vec (rho_vec r) i = rho_of new_rho (ct i) /\
      vec (rho_inv_vec r) i = (s_one / rho_of new_rho (ct i))%sc) /\
   (forall i j, (i < n)%nat -> (j < n)%nat ->
      mat (kkt_mat r) i j
      = (mat (QP.P qp) i j
         + Settings.sigma (_settings st) * Identity i j)%sc) /\
   (forall i j, (i < m)%nat -> (j < m)%nat ->
      mat (kkt_mat r) (n + i)%nat (n + j)%nat
      = if Nat.eqb i j
        then (s_lit (-1) 0 * (s_one / rho_of new_rho (ct i)))%sc
        else s_zero) /\
   (forall i j, (i < m)%nat -> (j < n)%nat ->
      mat (kkt_mat r) (n + i)%nat j = mat (QP.A qp) i j) /\
   (forall i j, (i < n)%nat -> (j < m)%nat ->
      mat (kkt_mat r) i (n + j)%nat = mat (QP.A qp) j i) /\
   kkt_mat_sparse r = kkt_mat r /\
   linear_solver r = ls_factorize (linear_solver st) (kkt_mat r)).
Proof.
  intros r a zeta rp rd new_rho tol interval ct unchanged.
  pose proof (loop_body_result qp st) as Hr. cbv zeta in Hr.
  fold r a in Hr.
  pose proof (rho_estimate_formula qp a) as Hf. cbv zeta in Hf.
  change (rho a) with (rho st) in Hf.
  fold zeta rp rd new_rho in Hf. rewrite Hf in Hr. clear Hf.
  assert (Hkeep : forall c1 c2 : bool,
             r = (if c1 then set_info (update_state qp a)
                                (Info.set_status (_info (update_state qp a))
                                                 Info.SOLVED)
                  else if c2 then update_state qp a else a) ->
             unchanged).
  { intros c1 c2 E. unfold unchanged. rewrite E.
    destruct c1; [|destruct c2]; repeat split; reflexivity. }
  assert (Hdue : adaptive_rho_due st = true <->
                 Settings.adaptive_rho (_settings st) = true /\
                 Z.rem (iter st) interval = 0).
  { unfold adaptive_rho_due, interval.
    rewrite andb_true_iff, Z.eqb_eq. tauto. }
  assert (Htrig : rho_trigger st new_rho = true <->
                  (new_rho <? rho st / tol)%sc = true \/
                  (new_rho >? rho st * tol)%sc = true).
  { unfold rho_trigger, tol. apply orb_true_iff. }
  destruct (check_termination_flag st && termination_criteria qp (update_state qp a))
    eqn:Hbreak.
  { assert (Hu : unchanged) by (apply (Hkeep true true); exact Hr).
    repeat split; intros; try apply Hu;
      exfalso; destruct Hu as (? & ? & _); tauto. }
  destruct (adaptive_rho_due st) eqn:Hd; cbn [andb] in Hr.
  - destruct (rho_trigger st new_rho) eqn:Ht.
    + apply proj1 in Hdue. specialize (Hdue eq_refl).
      apply proj1 in Htrig. specialize (Htrig eq_refl).
      split; [|split].
      * intros [Hoff | Hrem]; [destruct Hdue; congruence | tauto].
      * intros H1 H2. destruct Htrig; congruence.
      * intros _. destruct Hdue as [Hon Hrem].
        split; [exact Hon | split; [exact Hrem | split; [exact Htrig|]]].
        pose proof (refreshed_penalty_and_KKT qp new_rho (update_state qp a))
          as T.
        cbv zeta in T.
        destruct (update_state_admm_update_frame qp st) as (Ec & Es & El).
        fold a in Ec, Es, El. rewrite Ec, Es, El in T.
        rewrite <- Hr in T.
        destruct T as (T1 & T2 & T3 & T4 & T5 & T6 & T7 & T8).
        exact (conj T1 (conj Hr (conj T2 (conj T3 (conj T4 (conj T5
                 (conj T6 (conj T7 T8)))))))).
    + assert (Hu : unchanged).
      { apply (Hkeep false true). rewrite Hr. now rewrite orb_true_r. }
      repeat split; intros; try apply Hu;
        exfalso; destruct Hu as (? & ? & _); tauto.
  - assert (Hu : unchanged) by (apply (Hkeep false (check_termination_flag st || false)); exact Hr).
    repeat split; intros; try apply Hu;
      exfalso; destruct Hu as (? & ? & _); tauto.
Qed.

(** *** No input is rejected *)

(** C8.  [solve] tests neither the settings nor the problem.  On a run that
    executes nothing undefined ([max_iter < INT_MAX], and a nonzero
    [adaptive_rho_interval] when [adaptive_rho] is set), whether the
    settings and the problem are valid or not, it starts by overwriting the
    solver state from them ([x], [z], [y] zeroed unless [warm_start]; the
    classification; [rho] set to [settings.rho]), runs the loop, and
    returns with status SOLVED (left by [break]) or MAX_ITER (iterations
    used up) and [info.iter >= 1]: there is no error outcome.  With
    [max_iter < 1] it returns the reinitialized state at once with MAX_ITER
    and [info.iter = 1].  On these runs the 32-bit counter never wraps: the
    solver with that counter returns what [solve] returns. *)
Theorem solve_runs_on_any_input (qp : QP.t S) (st : solver) :
  defined_run (_settings st) ->
  let r := solve qp st in
  let i := solve_init qp st in
  rho i = Settings.rho (_settings st) /\
  constr_type i = constr_type (constr_type_init qp st) /\
  (Settings.warm_start (_settings st) = false ->
   x i = vassign n Zero /\ z i = vassign m Zero /\ y i = vassign m Zero) /\
  (Settings.warm_start (_settings st) = true ->
   x i = x st /\ z i = z st /\ y i = y st) /\
  solve_exit qp st <> OutOfFuel /\
  (Info.status (_info r) = Info.SOLVED <->
   solve_exit qp st = ExitBreak) /\
  (Info.status (_info r) = Info.MAX_ITER <->
   solve_exit qp st = ExitCondition) /\
  1 <= Info.iter (_info r) /\
  (Settings.max_iter (_settings st) < 1 ->
   r = solve_finish i /\
   Info.status (_info r) = Info.MAX_ITER /\ Info.iter (_info r) = 1) /\
  (forall fuel, (solve_fuel i <= fuel)%nat ->
                solve_int fuel qp st = Returned r) /\
  int_range (Info.iter (_info r)).
Proof.
  intros Hdef r i.
  destruct (solve_exit_cases qp st) as [_ Hex]. cbv zeta in Hex. fold r in Hex.
  pose proof (solve_int_returns qp st Hdef) as HL.
  split; [|split; [|split; [|split]]].
  - unfold i, solve_init. cbv zeta.
    now destruct (negb (Settings.warm_start (_settings st))).
  - apply solve_init_constr_type.
  - intros Hw. unfold i, solve_init. cbv zeta. rewrite Hw.
    repeat split; reflexivity.
  - intros Hw. unfold i, solve_init. cbv zeta. rewrite Hw.
    repeat split; reflexivity.
  - destruct (solve_exit qp st) eqn:He.
    + destruct Hex as (Hs & Hi & _).
      split; [discriminate|].
      split; [split; [reflexivity | intros _; exact Hs]|].
      split; [split; [intros E; rewrite Hs in E|]; discriminate|].
      split; [lia|]. split; [intros Hlt; lia | exact HL].
    + destruct Hex as (Hs & Hi).
      split; [discriminate|].
      split; [split; [intros E; rewrite Hs in E|]; discriminate|].
      split; [split; [reflexivity | intros _; exact Hs]|].
      split; [lia|]. split; [|exact HL]. intros Hlt.
      split; [|split; [exact Hs | lia]].
      destruct (solve_init_frame qp st) as (Hi1 & Hs1 & _).
      unfold r, solve, solve_loop, solve_fuel.
      rewrite admm_loop_unfold, Hi1, Hs1.
      replace (1 <=? Settings.max_iter (_settings st)) with false
        by (symmetry; apply Z.leb_gt; lia).
      reflexivity.
    + contradiction.
Qed.

End SolverFacts.

(** *** The KKT system, for every element type *)

Section SolverTheorems.
Context {S : Type} `{Scalar S}.
Variables n m : nat.
Variable LinearSolver_UpLo : Z.
Context {linear_solver_t : Type}.
Variable ls_solve : linear_solver_t -> vector S -> vector S.

Let solver : Type := QPSolverSparse S linear_solver_t.

(** C6.  [KKT_mat_update] leaves in [kkt_mat], a square matrix of [n + m]
    rows, the blocks [P + sigma I] (top left), [A] (bottom left), its
    transpose (top right, which the test on [LinearSolver_UpLo] always
    populates) and [-1.0] times the diagonal of [rho_inv_vec] (bottom right;
    over an ordered field, minus the diagonal), and the sparse matrix handed
    to the linear solver has the same coefficients; [form_KKT_rhs] stacks
    [sigma x - q] on [z - rho_inv_vec * y], whatever [rhs] held before. *)
Theorem KKT_system_blocks (qp : QP.t S) (st : solver) (rhs0 : vector S) :
  let sigma := Settings.sigma (_settings st) in
  let st' := KKT_mat_update n m LinearSolver_UpLo qp st in
  let M := mat (kkt_mat st') in
  let rhs := vec (form_KKT_rhs n m qp st rhs0) in
  (forall i j, (i < n)%nat -> (j < n)%nat ->
     M i j = (mat (QP.P qp) i j + sigma * Identity i j)%sc) /\
  (forall i j, (i < m)%nat -> (j < m)%nat ->
     M (n + i)%nat (n + j)%nat
     = if Nat.eqb i j then (s_lit (-1) 0 * vec (rho_inv_vec st) i)%sc
       else s_zero) /\
  (ScalarLaws S ->
   forall i, (i < m)%nat ->
     M (n + i)%nat (n + i)%nat = (- vec (rho_inv_vec st) i)%sc) /\
  (forall i j, (i < m)%nat -> (j < n)%nat ->
     M (n + i)%nat j = mat (QP.A qp) i j) /\
  (forall i j, (i < n)%nat -> (j < m)%nat ->
     M i (n + j)%nat = mat (QP.A qp) j i) /\
  kkt_mat_sparse st' = kkt_mat st' /\
  length (kkt_mat st') = (n + m)%nat /\
  (forall i, (i < n + m)%nat ->
     length (coeff [] (kkt_mat st') i) = (n + m)%nat) /\
  length (form_KKT_rhs n m qp st rhs0) = (n + m)%nat /\
  (forall i, (i < n)%nat ->
     rhs i = (sigma * vec (x st) i - vec (QP.q qp) i)%sc) /\
  (forall i, (i < m)%nat ->
     rhs (n + i)%nat
     = (vec (z st) i - vec (rho_inv_vec st) i * vec (y st) i)%sc).
Proof.
  intros sigma st' M rhs.
  destruct (KKT_blocks n m LinearSolver_UpLo qp st rhs0)
    as (Htl & Hbr & Hrest).
  split; [exact Htl | split; [exact Hbr | split; [|exact Hrest]]].
  intros L i Hi. unfold M, st'. rewrite (Hbr i i Hi Hi), Nat.eqb_refl.
  apply s_mul_m1.
Qed.

End SolverTheorems.

(** *** The iteration and the projection, for every element type and in
    binary64 *)

Section Binary64Projection.
Variables n m : nat.
Variable LinearSolver_UpLo : Z.
Context {linear_solver_t : Type}.
Variable ls_compute : linear_solver_t -> matrix float -> linear_solver_t.
Variable ls_factorize : linear_solver_t -> matrix float -> linear_solver_t.
Variable ls_solve : linear_solver_t -> vector float -> vector float.

Let solver : Type := QPSolverSparse float linear_solver_t.

Local Abbreviation admm_update := (admm_update n m ls_solve).
Local Abbreviation loop_body :=
  (loop_body n m LinearSolver_UpLo ls_factorize ls_solve).
Local Abbreviation solve :=
  (solve n m LinearSolver_UpLo ls_compute ls_factorize ls_solve).

(** In binary64 a coefficient of the projected [z] is NaN exactly when the
    value that was projected is, and lies between its bounds otherwise. *)
Lemma admm_update_z_binary64 (qp : QP.t float) (st : solver) (i : nat) :
  (i < m)%nat ->
  PrimFloat.leb (vec (QP.l qp) i) (vec (QP.u qp) i) = true ->
  let alpha := Settings.alpha (_settings st) in
  let rho_inv := vec (rho_inv_vec st) in
  let w := vec (ls_solve (linear_solver st) (form_KKT_rhs n m qp st [])) in
  let zt := (vec (z st) i + rho_inv i * (w (n + i)%nat - vec (y st) i))%sc in
  let v := (alpha * zt + (s_one - alpha) * vec (z st) i
            + rho_inv i * vec (y st) i)%sc in
  let zi := vec (z (admm_update qp st)) i in
  PrimFloat.is_nan zi = PrimFloat.is_nan v /\
  (PrimFloat.is_nan zi = true \/
   (PrimFloat.leb (vec (QP.l qp) i) zi = true /\
    PrimFloat.leb zi (vec (QP.u qp) i) = true)) /\
  (PrimFloat.is_nan v = false ->
   PrimFloat.eqb zi (std_max (vec (QP.l qp) i) (std_min (vec (QP.u qp) i) v))
   = true).
Proof.
  intros Hi Hlu alpha rho_inv w zt v zi.
  destruct (admm_update_components n m ls_solve qp st) as [_ Hz].
  destruct (Hz i Hi) as (_ & _ & Ez & _). fold alpha rho_inv w zt v zi in Ez.
  clearbody zi v. rewrite Ez.
  destruct (std_clamp_binary64 v _ _ Hlu) as [Hnan Hnum].
  destruct (PrimFloat.is_nan v) eqn:Nv.
  - rewrite (Hnan eq_refl). split; [reflexivity|]. split; [now left|].
    discriminate.
  - destruct (Hnum eq_refl) as [H1 H2].
    destruct (F64_le_not_nan _ _ H1) as [_ Nz]. rewrite Nz.
    split; [reflexivity|]. split; [right; now split|].
    intros _. now apply std_clamp_orders_agree_binary64.
Qed.

Lemma z_in_box_or_nan (qp : QP.t float) (st : solver) :
  bounds_ordered m qp ->
  within_bounds_or_nan m qp (z (admm_update qp st)) /\
  within_bounds_or_nan m qp (z (snd (loop_body qp st))) /\
  (1 <= Settings.max_iter (_settings st) ->
   within_bounds_or_nan m qp (z (solve qp st))).
Proof.
  intros Hlu.
  assert (Hup : forall s : solver,
             within_bounds_or_nan m qp (z (admm_update qp s))).
  { intros s i Hi.
    exact (proj1 (proj2 (admm_update_z_binary64 qp s i Hi (Hlu i Hi)))). }
  split; [apply Hup|].
  exact (projected_z_kept n m LinearSolver_UpLo ls_compute ls_factorize
           ls_solve qp (within_bounds_or_nan m qp) Hup st).
Qed.

End Binary64Projection.


(** C3.  With [l <= u] in every row, once a pass has projected [z], through
    the rest of the pass (termination test, adaptive step) and when [solve]
    returns after at least one pass: over an ordered element type [z] lies
    between [l] and [u]; in binary64 every coefficient of [z] lies between
    its bounds or is NaN, and it is NaN exactly when the value that was
    projected is NaN ([min] and [max] by comparison leave NaN in place). *)
Theorem z_within_bounds :
  (forall (S : Type) (HS : Scalar S) (L : ScalarLaws S) (n m : nat)
          (UpLo : Z) (LS : Type)
          (ls_compute ls_factorize : LS -> matrix S -> LS)
          (ls_solve : LS -> vector S -> vector S)
          (qp : QP.t S) (st : QPSolverSparse S LS),
      bounds_ordered m qp ->
      within_bounds m qp (z (admm_update n m ls_solve qp st)) /\
      within_bounds m qp
        (z (snd (loop_body n m UpLo ls_factorize ls_solve qp st))) /\
      (1 <= Settings.max_iter (_settings st) ->
       within_bounds m qp
         (z (solve n m UpLo ls_compute ls_factorize ls_solve qp st)))) /\
  (forall (n m : nat) (UpLo : Z) (LS : Type)
          (ls_compute ls_factorize : LS -> matrix float -> LS)
          (ls_solve : LS -> vector float -> vector float)
          (qp : QP.t float) (st : QPSolverSparse float LS),
      bounds_ordered m qp ->
      within_bounds_or_nan m qp (z (admm_update n m ls_solve qp st)) /\
      within_bounds_or_nan m qp
        (z (snd (loop_body n m UpLo ls_factorize ls_solve qp st))) /\
      (1 <= Settings.max_iter (_settings st) ->
       within_bounds_or_nan m qp
         (z (solve n m UpLo ls_compute ls_factorize ls_solve qp st))) /\
      (forall i, (i < m)%nat ->
         let alpha := Settings.alpha (_settings st) in
         let rho_inv := vec (rho_inv_vec st) in
         let w :=
           vec (ls_solve (linear_solver st) (form_KKT_rhs n m qp st [])) in
         let zt :=
           (vec (z st) i + rho_inv i * (w (n + i)%nat - vec (y st) i))%sc in
         let v := (alpha * zt + (s_one - alpha) * vec (z st) i
                   + rho_inv i * vec (y st) i)%sc in
         PrimFloat.is_nan (vec (z (admm_update n m ls_solve qp st)) i)
         = PrimFloat.is_nan v)).
Proof.
  split.
  - intros S HS L n m UpLo LS ls_compute ls_factorize ls_solve qp st Hlu.
    now apply z_in_box_ordered.
  - intros n m UpLo LS ls_compute ls_factorize ls_solve qp st Hlu.
    destruct (z_in_box_or_nan n m UpLo ls_compute ls_factorize ls_solve
                qp st Hlu) as (H1 & H2 & H3).
    split; [exact H1 | split; [exact H2 | split; [exact H3|]]].
    intros i Hi.
    exact (proj1 (admm_update_z_binary64 n m ls_solve qp st i Hi (Hlu i Hi))).
Qed.


(** ** Further properties of the solver *)

Section SolverInvariants.
Context {S : Type} `{Scalar S}.
Variables n m : nat.
Variable LinearSolver_UpLo : Z.
Context {linear_solver_t : Type}.
Variable ls_compute : linear_solver_t -> matrix S -> linear_solver_t.
Variable ls_factorize : linear_solver_t -> matrix S -> linear_solver_t.
Variable ls_solve : linear_solver_t -> vector S -> vector S.

Let solver : Type := QPSolverSparse S linear_solver_t.

Local Abbreviation KKT_mat_update := (KKT_mat_update n m LinearSolver_UpLo).
Local Abbreviation form_KKT_rhs := (form_KKT_rhs n m).
Local Abbreviation box_projection := (box_projection m).
Local Abbreviation constr_type_init := (constr_type_init m).
Local Abbreviation rho_update := (rho_update m).
Local Abbreviation update_state := (update_state n m).
Local Abbreviation residual_prim := (residual_prim n m).
Local Abbreviation residual_dual := (residual_dual n m).
Local Abbreviation eps_prim := (eps_prim n m).
Local Abbreviation eps_dual := (eps_dual n m).
Local Abbreviation termination_criteria := (termination_criteria n m).
Local Abbreviation admm_update := (admm_update n m ls_solve).
Local Abbreviation adaptive_rho_step :=
  (adaptive_rho_step n m LinearSolver_UpLo ls_factorize).
Local Abbreviation loop_body :=
  (loop_body n m LinearSolver_UpLo ls_factorize ls_solve).
Local Abbreviation admm_loop :=
  (admm_loop n m LinearSolver_UpLo ls_factorize ls_solve).
Local Abbreviation solve_init :=
  (solve_init n m LinearSolver_UpLo ls_compute).
Local Abbreviation solve_loop :=
  (solve_loop n m LinearSolver_UpLo ls_compute ls_factorize ls_solve).
Local Abbreviation solve :=
  (solve n m LinearSolver_UpLo ls_compute ls_factorize ls_solve).
Local Abbreviation solve_exit :=
  (solve_exit n m LinearSolver_UpLo ls_compute ls_factorize ls_solve).
Local Abbreviation in_step :=
  (in_step n m LinearSolver_UpLo ls_compute ls_factorize).
Local Abbreviation same_live := (same_live m).

(** [solve] as the loop run from the initialized state. *)
Lemma solve_unfold (qp : QP.t S) (st : solver) :
  solve qp st
  = solve_finish (snd (admm_loop (solve_fuel (solve_init qp st)) qp
                                 (solve_init qp st))).
Proof. reflexivity. Qed.

(** A pass that leaves by [break] is one whose counter is a nonzero
    multiple of [check_termination]. *)
Lemma loop_body_break_iter (qp : QP.t S) (st st' : solver) :
  loop_body qp st = (Break, st') ->
  Settings.check_termination (_settings st) <> 0 /\
  Z.rem (iter st) (Settings.check_termination (_settings st)) = 0.
Proof.
  intros Hb.
  apply (loop_body_break n m LinearSolver_UpLo ls_factorize ls_solve) in Hb.
  destruct Hb as (Hc & _).
  rewrite (check_termination_flag_frame n m ls_solve) in Hc.
  unfold check_termination_flag in Hc.
  apply andb_true_iff in Hc. destruct Hc as [Hnz Hrem].
  apply negb_true_iff, Z.eqb_neq in Hnz. apply Z.eqb_eq in Hrem.
  split; assumption.
Qed.

Lemma solve_info_iter (qp : QP.t S) (st : solver) :
  Info.iter (_info (solve qp st)) = iter (solve qp st).
Proof.
  rewrite solve_unfold.
  destruct (solve_finish_frame
              (snd (admm_loop (solve_fuel (solve_init qp st)) qp
                              (solve_init qp st))))
    as (Hi & _ & _ & _ & _ & _ & _ & _ & _ & _ & _ & Hfi & _).
  now rewrite Hi, Hfi.
Qed.

(** X1.  [info.iter] is the loop counter at the exit.  A run that returns
    SOLVED left the loop in a pass whose counter is a nonzero multiple of
    [check_termination], between [|check_termination|] and [max_iter]; so
    with [max_iter < |check_termination|] the status is always MAX_ITER. *)
Theorem solved_on_a_checked_pass (qp : QP.t S) (st : solver) :
  let r := solve qp st in
  let ct := Settings.check_termination (settings r) in
  let mx := Settings.max_iter (settings r) in
  Info.iter (info r) = iter r /\
  (Info.status (info r) = Info.SOLVED ->
   ct <> 0 /\ Z.rem (Info.iter (info r)) ct = 0 /\
   Z.abs ct <= Info.iter (info r) <= mx) /\
  (mx < Z.abs ct -> Info.status (info r) = Info.MAX_ITER).
Proof.
  intros r ct mx.
  destruct (solve_exit_cases n m LinearSolver_UpLo ls_compute ls_factorize
              ls_solve qp st) as [Hs Hex].
  cbv zeta in Hs, Hex. fold r in Hs, Hex.
  assert (Hit : Info.iter (info r) = iter r).
  { unfold r. rewrite solve_unfold.
    destruct (solve_finish_frame
                (snd (admm_loop (solve_fuel (solve_init qp st)) qp
                                (solve_init qp st))))
      as (Hi & _ & _ & _ & _ & _ & _ & _ & _ & _ & _ & Hfi & _).
    unfold info. now rewrite Hi, Hfi. }
  assert (Hsolved : Info.status (info r) = Info.SOLVED ->
                    ct <> 0 /\ Z.rem (Info.iter (info r)) ct = 0 /\
                    Z.abs ct <= Info.iter (info r) <= mx).
  { intros Hst. unfold info, ct, mx, settings in *. rewrite Hs.
    destruct (solve_exit qp st).
    - destruct Hex as (_ & Hr & st0 & Hs0 & Hi0 & Hb).
      apply loop_body_break_iter in Hb. rewrite Hs0, Hi0 in Hb.
      destruct Hb as [Hnz Hrem].
      split; [exact Hnz | split; [exact Hrem|]].
      split; [|lia].
      apply Z.rem_divide in Hrem; [|exact Hnz].
      apply Z.divide_abs_l in Hrem.
      apply Z.divide_pos_le in Hrem; lia.
    - destruct Hex as [Hmax _]. rewrite Hmax in Hst. discriminate.
    - contradiction. }
  split; [exact Hit | split; [exact Hsolved|]].
  intros Hlt.
  destruct (Info.status (info r)) eqn:E; [|reflexivity].
  destruct (Hsolved eq_refl) as (_ & _ & Hle). lia.
Qed.

(** What a pass leaves in place: the settings and the two members
    [res_prim], [res_dual] of the class itself. *)
Lemma loop_body_untouched (qp : QP.t S) (st : solver) :
  _settings (snd (loop_body qp st)) = _settings st /\
  res_prim (snd (loop_body qp st)) = res_prim st /\
  res_dual (snd (loop_body qp st)) = res_dual st.
Proof.
  pose proof (loop_body_result n m LinearSolver_UpLo ls_factorize ls_solve
                qp st) as Hr.
  cbv zeta in Hr. rewrite Hr.
  destruct (check_termination_flag st && _); [repeat split; reflexivity|].
  destruct (adaptive_rho_due st && _); [repeat split; reflexivity|].
  destruct (check_termination_flag st || _); repeat split; reflexivity.
Qed.

Lemma solve_init_untouched (qp : QP.t S) (st : solver) :
  res_prim (solve_init qp st) = res_prim st /\
  res_dual (solve_init qp st) = res_dual st.
Proof.
  unfold solve_init. cbv zeta.
  destruct (negb (Settings.warm_start (_settings st))); split; reflexivity.
Qed.

Lemma solve_finish_untouched (st : solver) :
  res_prim (solve_finish st) = res_prim st /\
  res_dual (solve_finish st) = res_dual st.
Proof.
  unfold solve_finish. cbv zeta.
  destruct (iter st >? Settings.max_iter (_settings st)); split; reflexivity.
Qed.

(** X2.  [solve] never assigns the settings, nor the members [res_prim] and
    [res_dual] of the class itself: the residuals of a run are in [info]
    only. *)
Theorem solve_leaves_settings_and_residual_members
        (qp : QP.t S) (st : solver) :
  settings (solve qp st) = settings st /\
  res_prim (solve qp st) = res_prim st /\
  res_dual (solve qp st) = res_dual st.
Proof.
  split.
  { apply (solve_exit_cases n m LinearSolver_UpLo ls_compute ls_factorize
             ls_solve qp st). }
  rewrite solve_unfold.
  destruct (solve_init_untouched qp st) as [Hp Hd].
  assert (I : res_prim (snd (admm_loop (solve_fuel (solve_init qp st)) qp
                                       (solve_init qp st))) = res_prim st /\
              res_dual (snd (admm_loop (solve_fuel (solve_init qp st)) qp
                                       (solve_init qp st))) = res_dual st).
  { apply (admm_loop_invariant n m LinearSolver_UpLo ls_factorize ls_solve qp
             (fun s => res_prim s = res_prim st /\ res_dual s = res_dual st)).
    - intros s [Hsp Hsd].
      destruct (loop_body_untouched qp s) as (_ & -> & ->). now split.
    - intros s k Hs. exact Hs.
    - now split. }
  destruct I as [Ip Id].
  split.
  - now rewrite (proj1 (solve_finish_untouched _)).
  - now rewrite (proj2 (solve_finish_untouched _)).
Qed.

(** *** The KKT matrix as a whole *)

Lemma massign_ext (r c : nat) (e e' : mexpr S) :
  (forall i j, (i < r)%nat -> (j < c)%nat -> e i j = e' i j) ->
  massign r c e = massign r c e'.
Proof.
  intros He. unfold massign. apply assign_ext. intros i Hi.
  apply assign_ext. intros j Hj. now apply He.
Qed.

Lemma block_assign_shape (r c r0 c0 h w : nat) (K : matrix S) (e : mexpr S) :
  block_assign r c r0 c0 h w K e
  = massign r c (mat (block_assign r c r0 c0 h w K e)).
Proof.
  unfold block_assign at 1. apply massign_ext. intros i j Hi Hj.
  now rewrite mat_block_assign.
Qed.

(** Every coefficient of the assembled matrix, by the block it lies in. *)
Lemma KKT_entries (qp : QP.t S) (st : solver) (i j : nat) :
  (i < n + m)%nat -> (j < n + m)%nat ->
  mat (kkt_mat (KKT_mat_update qp st)) i j
  = if (i <? n)%nat
    then if (j <? n)%nat
         then (mat (QP.P qp) i j
               + Settings.sigma (_settings st) * Identity i j)%sc
         else mat (QP.A qp) (j - n)%nat i
    else if (j <? n)%nat
         then mat (QP.A qp) (i - n)%nat j
         else if Nat.eqb (i - n)%nat (j - n)%nat
              then (s_lit (-1) 0 * vec (rho_inv_vec st) (i - n)%nat)%sc
              else s_zero.
Proof.
  intros Hi Hj.
  destruct (KKT_blocks n m LinearSolver_UpLo qp st [])
    as (Htl & Hbr & Hbl & Htr & _).
  cbv zeta in Htl, Hbr, Hbl, Htr.
  destruct (Nat.ltb_spec i n) as [Hin|Hin], (Nat.ltb_spec j n) as [Hjn|Hjn].
  - now apply Htl.
  - replace j with (n + (j - n)%nat)%nat at 1 by lia. apply Htr; lia.
  - replace i with (n + (i - n)%nat)%nat at 1 by lia. apply Hbl; lia.
  - replace i with (n + (i - n)%nat)%nat at 1 by lia.
    replace j with (n + (j - n)%nat)%nat at 1 by lia. apply Hbr; lia.
Qed.

Lemma KKT_mat_update_shape (qp : QP.t S) (st : solver) :
  kkt_mat (KKT_mat_update qp st)
  = massign (n + m) (n + m) (mat (kkt_mat (KKT_mat_update qp st))).
Proof.
  unfold KKT_mat_update. cbv zeta.
  change (kkt_mat (set_kkt_mat_sparse (set_kkt_mat ?s ?k) _)) with k.
  apply block_assign_shape.
Qed.

Lemma KKT_mat_update_sparse (qp : QP.t S) (st : solver) :
  kkt_mat_sparse (KKT_mat_update qp st) = kkt_mat (KKT_mat_update qp st).
Proof. reflexivity. Qed.

Lemma KKT_mat_update_state (qp : QP.t S) (st : solver) :
  KKT_mat_update qp st
  = set_kkt_mat_sparse
      (set_kkt_mat st (kkt_mat (KKT_mat_update qp st)))
      (kkt_mat (KKT_mat_update qp st)).
Proof. reflexivity. Qed.

(** The assembly writes every coefficient: what [kkt_mat] held before does
    not matter, only [sigma] and [rho_inv_vec] do. *)
Lemma KKT_mat_update_ext (qp : QP.t S) (st st' : solver) :
  Settings.sigma (_settings st) = Settings.sigma (_settings st') ->
  (forall i, (i < m)%nat ->
     vec (rho_inv_vec st) i = vec (rho_inv_vec st') i) ->
  kkt_mat (KKT_mat_update qp st) = kkt_mat (KKT_mat_update qp st').
Proof.
  intros Hs Hr.
  rewrite (KKT_mat_update_shape qp st), (KKT_mat_update_shape qp st').
  apply massign_ext. intros i j Hi Hj.
  rewrite !KKT_entries by assumption. rewrite Hs.
  destruct (i <? n)%nat eqn:Hin; [reflexivity|].
  destruct (j <? n)%nat; [reflexivity|].
  destruct (Nat.eqb (i - n)%nat (j - n)%nat); [|reflexivity].
  rewrite Hr; [reflexivity|]. apply Nat.ltb_ge in Hin. lia.
Qed.

(** X3.  [KKT_mat_update] writes every coefficient of [kkt_mat] from the
    problem, [sigma] and [rho_inv_vec]: two objects that agree on these get
    the same matrix whatever [kkt_mat] held, and assembling twice is
    assembling once. *)
Theorem KKT_mat_update_overwrites (qp : QP.t S) (st st' : solver) :
  Settings.sigma (settings st) = Settings.sigma (settings st') ->
  rho_inv_vec st = rho_inv_vec st' ->
  kkt_mat (KKT_mat_update qp st) = kkt_mat (KKT_mat_update qp st') /\
  kkt_mat_sparse (KKT_mat_update qp st)
  = kkt_mat_sparse (KKT_mat_update qp st') /\
  KKT_mat_update qp (KKT_mat_update qp st) = KKT_mat_update qp st.
Proof.
  intros Hs Hr.
  assert (E : kkt_mat (KKT_mat_update qp st)
              = kkt_mat (KKT_mat_update qp st')).
  { apply KKT_mat_update_ext; [exact Hs | intros i _; now rewrite Hr]. }
  split; [exact E | split].
  - now rewrite !KKT_mat_update_sparse.
  - assert (E2 : kkt_mat (KKT_mat_update qp (KKT_mat_update qp st))
                 = kkt_mat (KKT_mat_update qp st)).
    { apply KKT_mat_update_ext; [reflexivity | intros; reflexivity]. }
    pose proof (KKT_mat_update_state qp (KKT_mat_update qp st)) as F2.
    pose proof (KKT_mat_update_state qp st) as F1.
    rewrite E2 in F2.
    set (K := kkt_mat (KKT_mat_update qp st)) in *.
    rewrite F2, F1. clearbody K. reflexivity.
Qed.

(** X4.  With a symmetric [P] the assembled matrix is symmetric: the upper
    right block is always written. *)
Theorem KKT_matrix_symmetric (qp : QP.t S) (st : solver) :
  (forall i j, (i < n)%nat -> (j < n)%nat ->
     mat (QP.P qp) i j = mat (QP.P qp) j i) ->
  forall i j, (i < n + m)%nat -> (j < n + m)%nat ->
    mat (kkt_mat (KKT_mat_update qp st)) i j
    = mat (kkt_mat (KKT_mat_update qp st)) j i.
Proof.
  intros HP i j Hi Hj. rewrite !KKT_entries by assumption.
  destruct (Nat.ltb_spec i n) as [Hin|Hin], (Nat.ltb_spec j n) as [Hjn|Hjn];
    try reflexivity.
  - rewrite (HP i j Hin Hjn). unfold Identity. now rewrite Nat.eqb_sym.
  - rewrite Nat.eqb_sym.
    destruct (Nat.eqb_spec (j - n)%nat (i - n)%nat) as [E|E]; [|reflexivity].
    now rewrite E.
Qed.

(** X5.  A change of the penalty reaches the matrix on the diagonal of its
    bottom right block only: every other coefficient is the one assembled
    before. *)
Theorem KKT_penalty_on_diagonal_only (qp : QP.t S) (st : solver) (rho0 : S)
        (i j : nat) :
  (i < n + m)%nat -> (j < n + m)%nat ->
  (i < n)%nat \/ (j < n)%nat \/ i <> j ->
  mat (kkt_mat (KKT_mat_update qp (rho_update rho0 st))) i j
  = mat (kkt_mat (KKT_mat_update qp st)) i j.
Proof.
  intros Hi Hj Hout. rewrite !KKT_entries by assumption.
  change (_settings (rho_update rho0 st)) with (_settings st).
  destruct (Nat.ltb_spec i n) as [Hin|Hin]; [reflexivity|].
  destruct (Nat.ltb_spec j n) as [Hjn|Hjn]; [reflexivity|].
  destruct (Nat.eqb_spec (i - n)%nat (j - n)%nat) as [E|E]; [lia | reflexivity].
Qed.

(** *** The penalty, the matrix and the factorization stay in step *)

Lemma in_step_fields (qp : QP.t S) (s s' : solver) :
  _settings s' = _settings s -> rho s' = rho s ->
  rho_vec s' = rho_vec s -> rho_inv_vec s' = rho_inv_vec s ->
  constr_type s' = constr_type s -> kkt_mat s' = kkt_mat s ->
  kkt_mat_sparse s' = kkt_mat_sparse s ->
  linear_solver s' = linear_solver s ->
  in_step qp s -> in_step qp s'.
Proof.
  intros Hs Hr Hv Hi Hc Hk Hks Hl (Hrho & Hkkt & Hsp & Hls).
  unfold in_step. rewrite Hr, Hv, Hi, Hc, Hk, Hks, Hl.
  split; [exact Hrho | split; [|split; [exact Hsp | exact Hls]]].
  rewrite Hkkt. apply KKT_mat_update_ext.
  - now rewrite Hs.
  - intros i _. now rewrite Hi.
Qed.

Lemma in_step_set_iter (qp : QP.t S) (s : solver) (k : Z) :
  in_step qp s -> in_step qp (set_iter s k).
Proof. apply in_step_fields; reflexivity. Qed.

Lemma in_step_assembled (qp : QP.t S) (s : solver) (ls : linear_solver_t) :
  (forall i, (i < m)%nat ->
     vec (rho_vec s) i
     = rho_of (rho s) (coeff INEQUALITY_CONSTRAINT (constr_type s) i) /\
     vec (rho_inv_vec s) i = (s_one / vec (rho_vec s) i)%sc) ->
  (exists ls0,
      ls = ls_compute ls0 (kkt_mat_sparse (KKT_mat_update qp s)) \/
      ls = ls_factorize ls0 (kkt_mat_sparse (KKT_mat_update qp s))) ->
  in_step qp (set_linear_solver (KKT_mat_update qp s) ls).
Proof.
  intros Hrho Hls. unfold in_step.
  pose proof (set_linear_solver_frame (KKT_mat_update qp s) ls) as F.
  destruct F as (Fs & Fr & Fv & Fi & Fc & Fk & Fks & Fl).
  destruct (KKT_mat_update_frame n m LinearSolver_UpLo qp s)
    as (_ & _ & _ & _ & Ks & Kc & _ & Kr & Kv & Ki & _).
  rewrite Fr, Fv, Fi, Fc, Fk, Fks, Fl, Kr, Kv, Ki, Kc.
  split; [exact Hrho | split; [|split; [reflexivity | exact Hls]]].
  apply KKT_mat_update_ext.
  - now rewrite Fs, Ks.
  - intros i _. now rewrite Fi, Ki.
Qed.

Lemma rho_update_in_step (rho0 : S) (s : solver) (i : nat) :
  (i < m)%nat ->
  vec (rho_vec (rho_update rho0 s)) i
  = rho_of (rho (rho_update rho0 s))
           (coeff INEQUALITY_CONSTRAINT (constr_type (rho_update rho0 s)) i) /\
  vec (rho_inv_vec (rho_update rho0 s)) i
  = (s_one / vec (rho_vec (rho_update rho0 s)) i)%sc.
Proof.
  intros Hi.
  change (rho (rho_update rho0 s)) with rho0.
  change (constr_type (rho_update rho0 s)) with (constr_type s).
  split.
  - now apply rho_update_rho_vec.
  - now apply rho_update_rho_inv_vec.
Qed.

Lemma solve_init_in_step (qp : QP.t S) (st : solver) :
  in_step qp (solve_init qp st).
Proof.
  unfold solve_init. cbv zeta.
  apply in_step_set_iter, in_step_assembled.
  - intros i Hi. now apply rho_update_in_step.
  - eexists. left. reflexivity.
Qed.

Lemma loop_body_in_step (qp : QP.t S) (st : solver) :
  in_step qp st -> in_step qp (snd (loop_body qp st)).
Proof.
  intros HI.
  pose proof (loop_body_result n m LinearSolver_UpLo ls_factorize ls_solve
                qp st) as Hr.
  cbv zeta in Hr. rewrite Hr.
  destruct (check_termination_flag st && _).
  { apply (in_step_fields qp st); try reflexivity. exact HI. }
  destruct (adaptive_rho_due st && _).
  { apply in_step_assembled.
    - intros i Hi. now apply rho_update_in_step.
    - eexists. right. reflexivity. }
  destruct (check_termination_flag st || _);
    (apply (in_step_fields qp st); [reflexivity .. | exact HI]).
Qed.

(** X6.  When [solve] returns, the penalty vectors follow the returned
    [rho] and classification, [rho_inv_vec] is the inverse of [rho_vec] row
    by row, [kkt_mat] is the matrix [KKT_mat_update] assembles from the
    returned state, its sparse copy has the same coefficients, and the
    linear solver was last handed that matrix, by [compute] or by
    [factorize]. *)
Theorem solve_keeps_penalty_and_KKT_in_step (qp : QP.t S) (st : solver) :
  let r := solve qp st in
  (forall i, (i < m)%nat ->
     vec (rho_vec r) i
     = match coeff INEQUALITY_CONSTRAINT (constr_type r) i with
       | LOOSE_BOUNDS => s_lit 1 (-6)
       | EQUALITY_CONSTRAINT => (s_lit 1 3 * rho r)%sc
       | INEQUALITY_CONSTRAINT => rho r
       end /\
     vec (rho_inv_vec r) i = (s_one / vec (rho_vec r) i)%sc) /\
  kkt_mat r = kkt_mat (KKT_mat_update qp r) /\
  kkt_mat_sparse r = kkt_mat r /\
  exists ls0,
    linear_solver r = ls_compute ls0 (kkt_mat_sparse r) \/
    linear_solver r = ls_factorize ls0 (kkt_mat_sparse r).
Proof.
  intros r.
  assert (HI : in_step qp r).
  { unfold r. rewrite solve_unfold.
    set (e := snd (admm_loop (solve_fuel (solve_init qp st)) qp
                             (solve_init qp st))).
    assert (He : in_step qp e).
    { apply (admm_loop_invariant n m LinearSolver_UpLo ls_factorize ls_solve
               qp (in_step qp)).
      - apply loop_body_in_step.
      - intros s k Hs. apply (in_step_fields qp s); try reflexivity. exact Hs.
      - apply solve_init_in_step. }
    destruct (solve_finish_frame e)
      as (_ & _ & _ & _ & Hs & Hc & Hr & Hv & Hi & Hk & Hl & _).
    apply (in_step_fields qp e); try assumption.
    unfold solve_finish. cbv zeta.
    now destruct (iter e >? Settings.max_iter (_settings e)). }
  clearbody r. destruct HI as (Hrho & Hrest).
  split; [|exact Hrest].
  intros i Hi. destruct (Hrho i Hi) as [Hv Hinv].
  split; [|exact Hinv].
  rewrite Hv. now destruct (coeff INEQUALITY_CONSTRAINT (constr_type r) i).
Qed.

(** *** What [solve] reads *)

Lemma same_live_fields (s1 s1' s2 s2' : solver) :
  live_eq s1' s1 -> live_eq s2' s2 -> same_live s1 s2 -> same_live s1' s2'.
Proof.
  intros (A1 & A2 & A3 & A4 & A5 & A6 & A7 & A8 & A9 & A10 & A11)
         (B1 & B2 & B3 & B4 & B5 & B6 & B7 & B8 & B9 & B10 & B11)
         (C1 & C2 & C3 & C4 & C5 & C6 & C7 & C8 & C9 & C10 & C11).
  unfold same_live.
  rewrite A1, A2, A3, A4, A5, A6, A7, A8, A9, A10, A11.
  rewrite B1, B2, B3, B4, B5, B6, B7, B8, B9, B10, B11.
  repeat split; assumption.
Qed.

Lemma form_KKT_rhs_same (qp : QP.t S) (s1 s2 : solver) :
  same_live s1 s2 -> form_KKT_rhs qp s1 [] = form_KKT_rhs qp s2 [].
Proof.
  intros (Hx & Hz & Hy & Hs & _ & Hi & _).
  unfold form_KKT_rhs. cbv zeta. now rewrite Hx, Hz, Hy, Hs, Hi.
Qed.

(** The relaxed update reads [x], [z], [y], the settings, the penalty
    vectors and the linear solver, nothing else. *)
Lemma admm_update_same (qp : QP.t S) (s1 s2 : solver) :
  same_live s1 s2 ->
  same_live (admm_update qp s1) (admm_update qp s2).
Proof.
  intros HL.
  pose proof (form_KKT_rhs_same qp s1 s2 HL) as Hrhs.
  destruct (admm_update_vectors n m ls_solve qp s1)
    as (P1 & T1 & Z1 & X1 & ZZ1 & Y1).
  destruct (admm_update_vectors n m ls_solve qp s2)
    as (P2 & T2 & Z2 & X2 & ZZ2 & Y2).
  destruct (admm_update_frame n m ls_solve qp s1)
    as (_ & Fs1 & Fc1 & _ & Fr1 & Fv1 & Fi1 & Fk1 & Fks1 & Fl1 & _).
  destruct (admm_update_frame n m ls_solve qp s2)
    as (_ & Fs2 & Fc2 & _ & Fr2 & Fv2 & Fi2 & Fk2 & Fks2 & Fl2 & _).
  cbv zeta in *.
  destruct HL as (Hx & Hz & Hy & Hs & Hr & Hi & Hk & Hks & Hl & Hv & Hc).
  assert (EP : z_prev (admm_update qp s1) = z_prev (admm_update qp s2))
    by (now rewrite P1, P2, Hz).
  assert (ET : x_tilde (admm_update qp s1) = x_tilde (admm_update qp s2))
    by (now rewrite T1, T2, Hrhs, Hl).
  assert (EZ : z_tilde (admm_update qp s1) = z_tilde (admm_update qp s2))
    by (now rewrite Z1, Z2, EP, Hrhs, Hl, Hi, Hy).
  assert (EX : x (admm_update qp s1) = x (admm_update qp s2))
    by (now rewrite X1, X2, ET, Hs, Hx).
  assert (EZZ : z (admm_update qp s1) = z (admm_update qp s2))
    by (now rewrite ZZ1, ZZ2, EZ, EP, Hs, Hi, Hy).
  assert (EY : y (admm_update qp s1) = y (admm_update qp s2)).
  { rewrite Y1, Y2, EZ, EP, EZZ, Hs, Hy. apply vassign_ext. intros i Hlt.
    unfold vadd, cwiseProduct. now rewrite (Hv i Hlt). }
  unfold same_live.
  rewrite Fs1, Fs2, Fc1, Fc2, Fr1, Fr2, Fv1, Fv2, Fi1, Fi2, Fk1, Fk2,
    Fks1, Fks2, Fl1, Fl2.
  repeat split; assumption.
Qed.

Lemma update_state_live (qp : QP.t S) (s : solver) :
  live_eq (update_state qp s) s.
Proof. repeat split; reflexivity. Qed.

Lemma update_state_res (qp : QP.t S) (s : solver) :
  Info.res_prim (_info (update_state qp s)) = residual_prim qp s /\
  Info.res_dual (_info (update_state qp s)) = residual_dual qp s /\
  _max_Ax_z_norm (update_state qp s)
  = s_fmax (lpNorm_Infinity m (Ax n qp s)) (lpNorm_Infinity m (vec (z s))) /\
  _max_Px_ATy_q_norm (update_state qp s)
  = s_fmax (lpNorm_Infinity n (Px n qp s))
           (s_fmax (lpNorm_Infinity n (ATy m qp s))
                   (lpNorm_Infinity n (vec (QP.q qp)))).
Proof. repeat split; reflexivity. Qed.

(** [update_state] computes the norms and residuals from [x], [y], [z]. *)
Lemma update_state_same (qp : QP.t S) (s1 s2 : solver) :
  same_live s1 s2 ->
  same_live (update_state qp s1) (update_state qp s2) /\
  same_res (update_state qp s1) (update_state qp s2) /\
  termination_criteria qp (update_state qp s1)
  = termination_criteria qp (update_state qp s2).
Proof.
  intros HL.
  split; [|split].
  - exact (same_live_fields _ _ _ _ (update_state_live qp s1)
             (update_state_live qp s2) HL).
  - destruct HL as (Hx & Hz & Hy & _).
    destruct (update_state_res qp s1) as (A1 & A2 & A3 & A4).
    destruct (update_state_res qp s2) as (B1 & B2 & B3 & B4).
    unfold same_res. rewrite A1, A2, A3, A4, B1, B2, B3, B4.
    unfold residual_prim, residual_dual, Ax, Px, ATy.
    now rewrite Hx, Hy, Hz.
  - destruct HL as (Hx & Hz & Hy & Hs & _).
    rewrite !termination_criteria_update_state.
    destruct (residuals_ext n m qp s2 s1 Hx Hy Hz Hs) as (-> & -> & -> & ->).
    reflexivity.
Qed.

(** A new penalty, the matrix assembled from it and its factorization
    depend on the classification and the settings. *)
Lemma refresh_same (qp : QP.t S)
      (op : linear_solver_t -> matrix S -> linear_solver_t) (rho0 : S)
      (s1 s2 : solver) :
  let refresh s :=
    set_linear_solver (KKT_mat_update qp (rho_update rho0 s))
      (op (linear_solver (KKT_mat_update qp (rho_update rho0 s)))
          (kkt_mat_sparse (KKT_mat_update qp (rho_update rho0 s)))) in
  x s1 = x s2 -> z s1 = z s2 -> y s1 = y s2 ->
  _settings s1 = _settings s2 -> linear_solver s1 = linear_solver s2 ->
  (forall i, (i < m)%nat ->
     coeff INEQUALITY_CONSTRAINT (constr_type s1) i
     = coeff INEQUALITY_CONSTRAINT (constr_type s2) i) ->
  same_live (refresh s1) (refresh s2).
Proof.
  intros refresh Hx Hz Hy Hs Hl Hc. unfold refresh.
  assert (Hv : forall i, (i < m)%nat ->
             vec (rho_vec (rho_update rho0 s1)) i
             = vec (rho_vec (rho_update rho0 s2)) i).
  { intros i Hi. rewrite !rho_update_rho_vec by exact Hi.
    now rewrite (Hc i Hi). }
  assert (Hinv : rho_inv_vec (rho_update rho0 s1)
                 = rho_inv_vec (rho_update rho0 s2)).
  { change (vassign m (cwiseInverse (vec (rho_vec (rho_update rho0 s1))))
            = vassign m (cwiseInverse (vec (rho_vec (rho_update rho0 s2))))).
    apply vassign_ext. intros i Hi. unfold cwiseInverse.
    now rewrite (Hv i Hi). }
  assert (Hk : kkt_mat (KKT_mat_update qp (rho_update rho0 s1))
               = kkt_mat (KKT_mat_update qp (rho_update rho0 s2))).
  { apply KKT_mat_update_ext.
    - change (Settings.sigma (_settings s1) = Settings.sigma (_settings s2)).
      now rewrite Hs.
    - intros i _. now rewrite Hinv. }
  set (r1 := rho_update rho0 s1) in *. set (r2 := rho_update rho0 s2) in *.
  assert (F : forall s : solver,
             x (rho_update rho0 s) = x s /\ z (rho_update rho0 s) = z s /\
             y (rho_update rho0 s) = y s /\
             _settings (rho_update rho0 s) = _settings s /\
             constr_type (rho_update rho0 s) = constr_type s /\
             linear_solver (rho_update rho0 s) = linear_solver s /\
             rho (rho_update rho0 s) = rho0)
    by (intros s; repeat split; reflexivity).
  destruct (F s1) as (X1 & Z1 & Y1 & S1 & C1 & L1 & R1).
  destruct (F s2) as (X2 & Z2 & Y2 & S2 & C2 & L2 & R2).
  fold r1 in X1, Z1, Y1, S1, C1, L1, R1.
  fold r2 in X2, Z2, Y2, S2, C2, L2, R2.
  clearbody r1 r2.
  destruct (KKT_mat_update_frame n m LinearSolver_UpLo qp r1)
    as (_ & KX1 & KZ1 & KY1 & KS1 & KC1 & _ & KR1 & KV1 & KI1 & KL1).
  destruct (KKT_mat_update_frame n m LinearSolver_UpLo qp r2)
    as (_ & KX2 & KZ2 & KY2 & KS2 & KC2 & _ & KR2 & KV2 & KI2 & KL2).
  rewrite !KKT_mat_update_sparse, KL1, KL2, Hk.
  set (k1 := KKT_mat_update qp r1) in *.
  set (k2 := KKT_mat_update qp r2) in *.
  assert (KS : kkt_mat_sparse k1 = kkt_mat k1) by reflexivity.
  assert (KS' : kkt_mat_sparse k2 = kkt_mat k2) by reflexivity.
  clearbody k1 k2.
  unfold same_live.
  destruct (set_linear_solver_frame k1 (op (linear_solver r1) (kkt_mat k2)))
    as (A1 & A2 & A3 & A4 & A5 & A6 & A7 & A8).
  destruct (set_linear_solver_frame k2 (op (linear_solver r2) (kkt_mat k2)))
    as (B1 & B2 & B3 & B4 & B5 & B6 & B7 & B8).
  rewrite A1, A2, A3, A4, A5, A6, A7, A8, B1, B2, B3, B4, B5, B6, B7, B8.
  change (x (set_linear_solver k1 ?l)) with (x k1).
  change (z (set_linear_solver k1 ?l)) with (z k1).
  change (y (set_linear_solver k1 ?l)) with (y k1).
  change (x (set_linear_solver k2 ?l)) with (x k2).
  change (z (set_linear_solver k2 ?l)) with (z k2).
  change (y (set_linear_solver k2 ?l)) with (y k2).
  rewrite KX1, KZ1, KY1, KS1, KC1, KR1, KV1, KI1.
  rewrite KX2, KZ2, KY2, KS2, KC2, KR2, KV2, KI2.
  rewrite X1, Z1, Y1, S1, C1, L1, R1, X2, Z2, Y2, S2, C2, L2, R2.
  rewrite KS, KS', Hk, Hx, Hz, Hy, Hs, Hl, Hinv.
  repeat split; try reflexivity; assumption.
Qed.

Lemma adaptive_rho_step_same (qp : QP.t S) (c : bool) (s1 s2 : solver) :
  iter s1 = iter s2 -> same_live s1 s2 ->
  (c = true -> same_res s1 s2) ->
  same_live (adaptive_rho_step qp c s1) (adaptive_rho_step qp c s2).
Proof.
  intros Hit HL HR. unfold adaptive_rho_step. cbv zeta.
  assert (Hdue : adaptive_rho_due s1 = adaptive_rho_due s2).
  { destruct HL as (_ & _ & _ & Hs & _).
    unfold adaptive_rho_due. now rewrite Hit, Hs. }
  rewrite Hdue. destruct (adaptive_rho_due s2); [|exact HL].
  match goal with
  | |- same_live (if rho_trigger ?a _ then _ else _)
                 (if rho_trigger ?b _ then _ else _) =>
      set (u1 := a); set (u2 := b)
  end.
  assert (HU : same_live u1 u2 /\ same_res u1 u2).
  { unfold u1, u2. destruct c; cbn [negb].
    - split; [exact HL | now apply HR].
    - destruct (update_state_same qp s1 s2 HL) as (A & B & _). now split. }
  clearbody u1 u2. destruct HU as [HL' HR'].
  assert (Hnew : clamp_rho (rho_estimate (rho u1) qp u1)
                 = clamp_rho (rho_estimate (rho u2) qp u2)).
  { destruct HL' as (_ & _ & _ & _ & Hr & _).
    destruct HR' as (R1 & R2 & R3 & R4).
    unfold rho_estimate. cbv zeta. now rewrite Hr, R1, R2, R3, R4. }
  rewrite Hnew.
  assert (Htrig : forall r, rho_trigger u1 r = rho_trigger u2 r).
  { intros r. destruct HL' as (_ & _ & _ & Hs & Hr & _).
    unfold rho_trigger. now rewrite Hs, Hr. }
  rewrite Htrig. destruct (rho_trigger u2 _); [|exact HL'].
  destruct HL' as (Hx & Hz & Hy & Hs & _ & _ & _ & _ & Hl & _ & Hc).
  now apply (refresh_same qp ls_factorize).
Qed.

(** The rest of a pass, from the state the relaxed update leaves. *)
Lemma loop_tail_same (qp : QP.t S) (a1 a2 : solver) :
  iter a1 = iter a2 -> same_live a1 a2 ->
  let tail a :=
    match termination_step n m qp (check_termination_flag a) a with
    | (Break, s) => (Break, s)
    | (Continue, s) =>
        (Continue, adaptive_rho_step qp (check_termination_flag a) s)
    end in
  fst (tail a1) = fst (tail a2) /\
  same_live (snd (tail a1)) (snd (tail a2)) /\
  (fst (tail a1) = Break -> same_res (snd (tail a1)) (snd (tail a2))).
Proof.
  intros Hia HA. cbv beta zeta.
  assert (Hc : check_termination_flag a1 = check_termination_flag a2).
  { destruct HA as (_ & _ & _ & Hs & _).
    unfold check_termination_flag. now rewrite Hia, Hs. }
  rewrite Hc. unfold termination_step. cbv zeta.
  destruct (check_termination_flag a2).
  - destruct (update_state_same qp a1 a2 HA) as (HLu & HRu & Htc).
    rewrite Htc.
    assert (Hiu : iter (update_state qp a1) = iter (update_state qp a2))
      by exact Hia.
    revert HLu HRu Hiu.
    generalize (update_state qp a1). intros u1.
    destruct (termination_criteria qp (update_state qp a2)).
    + generalize (update_state qp a2). intros u2 HLu HRu Hiu.
      cbn [fst snd].
      split; [reflexivity | split].
      * apply (same_live_fields u1 _ u2 _); [| |exact HLu];
          repeat split; reflexivity.
      * intros _. exact HRu.
    + generalize (update_state qp a2). intros u2 HLu HRu Hiu.
      cbn [fst snd].
      split; [reflexivity | split; [|discriminate]].
      apply adaptive_rho_step_same; auto.
  - cbn [fst snd]. split; [reflexivity | split; [|discriminate]].
    apply adaptive_rho_step_same; auto. discriminate.
Qed.

(** A pass of the loop depends on the members [same_live] lists and on the
    counter, and hands them on. *)
Lemma loop_body_same (qp : QP.t S) (s1 s2 : solver) :
  iter s1 = iter s2 -> same_live s1 s2 ->
  fst (loop_body qp s1) = fst (loop_body qp s2) /\
  same_live (snd (loop_body qp s1)) (snd (loop_body qp s2)) /\
  (fst (loop_body qp s1) = Break ->
   same_res (snd (loop_body qp s1)) (snd (loop_body qp s2))).
Proof.
  intros Hit HL.
  pose proof (admm_update_same qp s1 s2 HL) as HA.
  assert (Hia : iter (admm_update qp s1) = iter (admm_update qp s2)).
  { rewrite (proj1 (admm_update_frame n m ls_solve qp s1)).
    now rewrite (proj1 (admm_update_frame n m ls_solve qp s2)). }
  exact (loop_tail_same qp _ _ Hia HA).
Qed.

Lemma admm_loop_same (qp : QP.t S) :
  forall fuel s1 s2,
    iter s1 = iter s2 -> same_live s1 s2 ->
    fst (admm_loop fuel qp s1) = fst (admm_loop fuel qp s2) /\
    iter (snd (admm_loop fuel qp s1)) = iter (snd (admm_loop fuel qp s2)) /\
    same_live (snd (admm_loop fuel qp s1)) (snd (admm_loop fuel qp s2)) /\
    (fst (admm_loop fuel qp s1) = ExitBreak ->
     same_res (snd (admm_loop fuel qp s1)) (snd (admm_loop fuel qp s2))).
Proof.
  induction fuel as [|fuel IH]; intros s1 s2 Hit HL.
  - cbn.
    split; [reflexivity | split; [exact Hit | split; [exact HL|]]].
    discriminate.
  - rewrite !(admm_loop_unfold n m LinearSolver_UpLo ls_factorize ls_solve).
    assert (Hs : _settings s1 = _settings s2) by apply HL.
    rewrite Hit, Hs.
    destruct (iter s2 <=? Settings.max_iter (_settings s2)).
    + destruct (loop_body_same qp s1 s2 Hit HL) as (Hf & HLb & HRb).
      destruct (loop_body_frame n m LinearSolver_UpLo ls_factorize ls_solve
                  qp s1) as (I1 & _).
      destruct (loop_body_frame n m LinearSolver_UpLo ls_factorize ls_solve
                  qp s2) as (I2 & _).
      destruct (loop_body qp s1) as [f1 b1], (loop_body qp s2) as [f2 b2].
      cbn [fst snd] in *. subst f2.
      destruct f1.
      * apply IH.
        -- cbn [iter set_iter]. now rewrite I1, I2, Hit.
        -- apply (same_live_fields b1 _ b2 _); [| |exact HLb];
             repeat split; reflexivity.
      * cbn [fst snd].
        split; [reflexivity | split; [now rewrite I1, I2 | split]].
        -- exact HLb.
        -- intros _. now apply HRb.
    + cbn [fst snd].
      split; [reflexivity | split; [exact Hit | split; [exact HL|]]].
      discriminate.
Qed.

Lemma set_iter_live (s : solver) (k : Z) : live_eq (set_iter s k) s.
Proof. repeat split; reflexivity. Qed.

Lemma solve_finish_live (s : solver) : live_eq (solve_finish s) s.
Proof.
  unfold solve_finish. cbv zeta.
  destruct (iter s >? Settings.max_iter (_settings s));
    repeat split; reflexivity.
Qed.

(** The initialization reads the settings, the linear solver object and,
    on a warm start, [x], [z], [y]. *)
Lemma solve_init_same (qp : QP.t S) (s1 s2 : solver) :
  _settings s1 = _settings s2 ->
  linear_solver s1 = linear_solver s2 ->
  (Settings.warm_start (_settings s1) = true ->
   x s1 = x s2 /\ z s1 = z s2 /\ y s1 = y s2) ->
  same_live (solve_init qp s1) (solve_init qp s2).
Proof.
  intros Hs Hl Hw. unfold solve_init. cbv zeta.
  match goal with
  | |- same_live
         (set_iter (set_linear_solver
                      (KKT_mat_update _ (rho_update _ ?c1)) _) 1)
         (set_iter (set_linear_solver
                      (KKT_mat_update _ (rho_update _ ?c2)) _) 1) =>
      set (C1 := c1); set (C2 := c2)
  end.
  assert (HC : x C1 = x C2 /\ z C1 = z C2 /\ y C1 = y C2 /\
               _settings C1 = _settings s2 /\ _settings C2 = _settings s2 /\
               linear_solver C1 = linear_solver C2 /\
               (forall i, (i < m)%nat ->
                  coeff INEQUALITY_CONSTRAINT (constr_type C1) i
                  = coeff INEQUALITY_CONSTRAINT (constr_type C2) i)).
  { assert (Hct : forall i, (i < m)%nat ->
               coeff INEQUALITY_CONSTRAINT (constr_type C1) i
               = coeff INEQUALITY_CONSTRAINT (constr_type C2) i).
    { intros i Hi. unfold C1, C2.
      now rewrite !(constr_type_init_coeff m) by exact Hi. }
    unfold C1, C2 in *. rewrite Hs in *.
    destruct (Settings.warm_start (_settings s2)); cbn [negb].
    - destruct (Hw eq_refl) as (Hx & Hz & Hy).
      repeat split; assumption.
    - repeat split; try assumption; reflexivity. }
  clearbody C1 C2.
  destruct HC as (Hx & Hz & Hy & S1 & S2 & L & Hct).
  rewrite S1, S2.
  match goal with
  | |- same_live (set_iter ?a 1) (set_iter ?b 1) =>
      apply (same_live_fields a _ b _);
        [apply set_iter_live | apply set_iter_live |]
  end.
  apply (refresh_same qp ls_compute); try assumption.
  now rewrite S1, S2.
Qed.

Lemma solve_exit_unfold (qp : QP.t S) (st : solver) :
  solve_exit qp st
  = fst (admm_loop (solve_fuel (solve_init qp st)) qp (solve_init qp st)).
Proof. reflexivity. Qed.

Lemma solve_status_exit (qp : QP.t S) (st : solver) :
  Info.status (_info (solve qp st))
  = match solve_exit qp st with
    | ExitBreak => Info.SOLVED
    | _ => Info.MAX_ITER
    end.
Proof.
  destruct (solve_exit_cases n m LinearSolver_UpLo ls_compute ls_factorize
              ls_solve qp st) as [_ Hex].
  cbv zeta in Hex.
  destruct (solve_exit qp st); [apply Hex | apply Hex | contradiction].
Qed.

Lemma solve_same (qp : QP.t S) (st1 st2 : solver) :
  _settings st1 = _settings st2 ->
  linear_solver st1 = linear_solver st2 ->
  (Settings.warm_start (_settings st1) = true ->
   x st1 = x st2 /\ z st1 = z st2 /\ y st1 = y st2) ->
  solve_exit qp st1 = solve_exit qp st2 /\
  iter (solve qp st1) = iter (solve qp st2) /\
  same_live (solve qp st1) (solve qp st2) /\
  (solve_exit qp st1 = ExitBreak ->
   Info.res_prim (_info (solve qp st1))
   = Info.res_prim (_info (solve qp st2)) /\
   Info.res_dual (_info (solve qp st1))
   = Info.res_dual (_info (solve qp st2))).
Proof.
  intros Hs Hl Hw.
  pose proof (solve_init_same qp st1 st2 Hs Hl Hw) as HI.
  destruct (solve_init_frame n m LinearSolver_UpLo ls_compute qp st1)
    as (I1 & S1 & _).
  destruct (solve_init_frame n m LinearSolver_UpLo ls_compute qp st2)
    as (I2 & S2 & _).
  assert (Hfuel : solve_fuel (solve_init qp st1)
                  = solve_fuel (solve_init qp st2)).
  { unfold solve_fuel. now rewrite S1, S2, Hs. }
  assert (Hit : iter (solve_init qp st1) = iter (solve_init qp st2))
    by (now rewrite I1, I2).
  rewrite !solve_unfold, !solve_exit_unfold, Hfuel.
  destruct (admm_loop_same qp (solve_fuel (solve_init qp st2))
              (solve_init qp st1) (solve_init qp st2) Hit HI)
    as (Hf & Hie & HLe & HRe).
  revert Hf Hie HLe HRe.
  generalize (admm_loop (solve_fuel (solve_init qp st2)) qp
                        (solve_init qp st1))
             (admm_loop (solve_fuel (solve_init qp st2)) qp
                        (solve_init qp st2)).
  intros e1 e2 Hf Hie HLe HRe.
  destruct (solve_finish_frame (snd e1))
    as (J1 & _ & _ & _ & _ & _ & _ & _ & _ & _ & _ & _ & P1 & D1 & _).
  destruct (solve_finish_frame (snd e2))
    as (J2 & _ & _ & _ & _ & _ & _ & _ & _ & _ & _ & _ & P2 & D2 & _).
  split; [exact Hf | split; [now rewrite J1, J2 | split]].
  - exact (same_live_fields _ _ _ _ (solve_finish_live (snd e1))
             (solve_finish_live (snd e2)) HLe).
  - intros Hb. rewrite P1, P2, D1, D2.
    destruct (HRe Hb) as (R1 & R2 & _). now split.
Qed.

(** X7.  Whatever the members that [solve] does not initialize hold, two
    runs from the same settings and linear solver object, and on a warm
    start from the same [x], [z], [y], return the same solution, status,
    iteration count, penalty and matrix; the residuals reported with SOLVED
    are the same too. *)
Theorem solve_reads_no_stale_member (qp : QP.t S) (st1 st2 : solver) :
  settings st1 = settings st2 ->
  linear_solver st1 = linear_solver st2 ->
  (Settings.warm_start (settings st1) = true ->
   x st1 = x st2 /\ z st1 = z st2 /\ y st1 = y st2) ->
  let r1 := solve qp st1 in
  let r2 := solve qp st2 in
  primal_solution r1 = primal_solution r2 /\
  dual_solution r1 = dual_solution r2 /\ z r1 = z r2 /\
  Info.status (info r1) = Info.status (info r2) /\
  Info.iter (info r1) = Info.iter (info r2) /\
  (Info.status (info r1) = Info.SOLVED ->
   Info.res_prim (info r1) = Info.res_prim (info r2) /\
   Info.res_dual (info r1) = Info.res_dual (info r2)) /\
  rho r1 = rho r2 /\ rho_inv_vec r1 = rho_inv_vec r2 /\
  kkt_mat r1 = kkt_mat r2 /\ linear_solver r1 = linear_solver r2 /\
  (forall i, (i < m)%nat ->
     vec (rho_vec r1) i = vec (rho_vec r2) i /\
     coeff INEQUALITY_CONSTRAINT (constr_type r1) i
     = coeff INEQUALITY_CONSTRAINT (constr_type r2) i).
Proof.
  intros Hs Hl Hw.
  destruct (solve_same qp st1 st2 Hs Hl Hw) as (He & Hit & HL & HR).
  pose proof (solve_status_exit qp st1) as T1.
  pose proof (solve_status_exit qp st2) as T2.
  rewrite <- He in T2.
  pose proof (solve_info_iter qp st1) as I1.
  pose proof (solve_info_iter qp st2) as I2.
  revert Hit HL HR T1 T2 I1 I2.
  generalize (solve qp st1) (solve qp st2).
  intros r1 r2 Hit HL HR T1 T2 I1 I2. cbv zeta.
  unfold primal_solution, dual_solution, info.
  destruct HL as (Hx & Hz & Hy & _ & Hr & Hi & Hk & _ & Hls & Hv & Hc).
  repeat split; try assumption.
  - now rewrite T1, T2.
  - now rewrite I1, I2.
  - apply HR. destruct (solve_exit qp st1); [reflexivity | |];
      rewrite T1 in *; discriminate.
  - apply HR. destruct (solve_exit qp st1); [reflexivity | |];
      rewrite T1 in *; discriminate.
  - now apply Hv.
  - now apply Hc.
Qed.

(** *** The penalty after a pass *)

(** A pass leaves [rho] alone or sets it to a clamped estimate. *)
Lemma loop_body_rho (qp : QP.t S) (st : solver) :
  rho (snd (loop_body qp st)) = rho st \/
  exists r, rho (snd (loop_body qp st)) = clamp_rho r.
Proof.
  pose proof (loop_body_result n m LinearSolver_UpLo ls_factorize ls_solve
                qp st) as Hr.
  cbv zeta in Hr. rewrite Hr.
  destruct (check_termination_flag st && _); [left; reflexivity|].
  destruct (adaptive_rho_due st && _).
  { right. eexists. reflexivity. }
  destruct (check_termination_flag st || _); left; reflexivity.
Qed.

Lemma solve_rho (qp : QP.t S) (st : solver) :
  rho (solve qp st) = Settings.rho (_settings st) \/
  exists r, rho (solve qp st) = clamp_rho r.
Proof.
  rewrite solve_unfold.
  assert (HI : rho (solve_init qp st) = Settings.rho (_settings st)).
  { unfold solve_init. cbv zeta.
    now destruct (negb (Settings.warm_start (_settings st))). }
  assert (Hloop :
            (fun s : solver =>
               rho s = Settings.rho (_settings st) \/
               exists r, rho s = clamp_rho r)
              (snd (admm_loop (solve_fuel (solve_init qp st)) qp
                              (solve_init qp st)))).
  { apply (admm_loop_invariant n m LinearSolver_UpLo ls_factorize ls_solve).
    - intros s Hs. destruct (loop_body_rho qp s) as [E|E].
      + now rewrite E.
      + now right.
    - intros s k Hs. exact Hs.
    - now left. }
  cbv beta in Hloop. revert Hloop.
  generalize (snd (admm_loop (solve_fuel (solve_init qp st)) qp
                             (solve_init qp st))).
  intros e He.
  destruct (solve_finish_frame e) as (_ & _ & _ & _ & _ & _ & -> & _).
  exact He.
Qed.

(** A property that every pass establishes from an invariant holds at the
    exit as soon as one pass has run. *)
Lemma admm_loop_established_from (qp : QP.t S) (J K : solver -> Prop) :
  (forall s, J s -> J (snd (loop_body qp s)) /\ K (snd (loop_body qp s))) ->
  (forall s k, J s -> J (set_iter s k)) ->
  (forall s k, K s -> K (set_iter s k)) ->
  forall fuel st,
    J st -> iter st <= Settings.max_iter (_settings st) ->
    K (snd (admm_loop (Datatypes.S fuel) qp st)).
Proof.
  intros Hbody HJ HK fuel st Hst Hle.
  rewrite (admm_loop_unfold n m LinearSolver_UpLo ls_factorize ls_solve).
  apply Z.leb_le in Hle. rewrite Hle.
  destruct (Hbody st Hst) as [HJ1 HK1].
  destruct (loop_body qp st) as [[|] s1]; cbn [fst snd] in *.
  - apply (admm_loop_invariant n m LinearSolver_UpLo ls_factorize ls_solve
             qp (fun s => J s /\ K s)).
    + intros s [Hs _]. now apply Hbody.
    + intros s k [Hs Hk]. split; [now apply HJ | now apply HK].
    + split; [now apply HJ | now apply HK].
  - exact HK1.
Qed.

(** *** The projection, whatever the bounds *)

Context {L : ScalarLaws S}.

Lemma s_lt_irrefl (a : S) : (a <? a)%sc = false.
Proof. apply s_le_nlt, s_le_refl. Qed.

(** Clamping below and then above never ends above [u]; if the bounds are
    crossed it ends on [u]. *)
Lemma std_clamp_upper (zi li ui : S) :
  (std_min (std_max zi li) ui <=? ui)%sc = true /\
  ((ui <? li)%sc = true -> std_min (std_max zi li) ui = ui).
Proof.
  unfold std_min. split.
  - destruct (ui <? std_max zi li)%sc eqn:E.
    + apply s_le_refl.
    + now apply s_nlt_le.
  - intros Hul.
    assert (E : (ui <? std_max zi li)%sc = true).
    { unfold std_max. destruct (zi <? li)%sc eqn:Hzl; [exact Hul|].
      destruct (ui <? zi)%sc eqn:Huz; [reflexivity|].
      apply s_nlt_le in Hzl, Huz.
      pose proof (s_le_nlt _ _ (s_le_trans _ _ _ Hzl Huz)). congruence. }
    now rewrite E.
Qed.

(** A value already between the bounds is left alone, and clamping twice
    is clamping once. *)
Lemma std_clamp_fixed (zi li ui : S) :
  ((li <=? zi)%sc = true -> (zi <=? ui)%sc = true ->
   std_min (std_max zi li) ui = zi) /\
  std_min (std_max (std_min (std_max zi li) ui) li) ui
  = std_min (std_max zi li) ui.
Proof.
  split.
  - intros Hl Hu. unfold std_min, std_max.
    now rewrite (s_le_nlt _ _ Hl), (s_le_nlt _ _ Hu).
  - assert (Ha : (std_max zi li <? li)%sc = false).
    { unfold std_max. destruct (zi <? li)%sc eqn:E; [apply s_lt_irrefl|].
      exact E. }
    revert Ha. generalize (std_max zi li). intros a Ha.
    unfold std_min. destruct (ui <? a)%sc eqn:E.
    + unfold std_max. destruct (ui <? li)%sc eqn:E'.
      * now rewrite E'.
      * now destruct (ui <? ui)%sc.
    + unfold std_max. now rewrite Ha, E.
Qed.

(** X8.  Whatever the bounds, the projection never leaves a coefficient
    above [u i], and where the bounds are crossed ([u i < l i]) it returns
    [u i]; so does [solve] after at least one pass. *)
Theorem box_projection_upper_bound_wins (qp : QP.t S) (st : solver)
        (zv : vector S) (i : nat) :
  (i < m)%nat ->
  let l := vec (QP.l qp) i in
  let u := vec (QP.u qp) i in
  let p := vec (box_projection zv (QP.l qp) (QP.u qp)) i in
  (p <=? u)%sc = true /\
  ((u <? l)%sc = true -> p = u) /\
  (1 <= Settings.max_iter (_settings st) ->
   (vec (z (solve qp st)) i <=? u)%sc = true /\
   ((u <? l)%sc = true -> vec (z (solve qp st)) i = u)).
Proof.
  intros Hi l u p.
  assert (Hp : forall v,
             (vec (box_projection v (QP.l qp) (QP.u qp)) i <=? u)%sc = true /\
             ((u <? l)%sc = true ->
              vec (box_projection v (QP.l qp) (QP.u qp)) i = u)).
  { intros v. unfold box_projection. rewrite vec_vassign by exact Hi.
    apply std_clamp_upper. }
  split; [apply Hp | split; [apply Hp|]].
  intros Hmax.
  set (I := fun s : solver =>
              (vec (z s) i <=? u)%sc = true /\
              ((u <? l)%sc = true -> vec (z s) i = u)).
  change (I (solve qp st)).
  assert (Hbody : forall s, I (snd (loop_body qp s))).
  { intros s. unfold I.
    destruct (loop_body_frame n m LinearSolver_UpLo ls_factorize ls_solve
                qp s) as (_ & _ & _ & _ & Hz & _).
    rewrite Hz.
    destruct (admm_update_vectors n m ls_solve qp s)
      as (_ & _ & _ & _ & Hz' & _).
    cbv zeta in Hz'. rewrite Hz'. apply Hp. }
  rewrite solve_unfold.
  destruct (solve_init_frame n m LinearSolver_UpLo ls_compute qp st)
    as (Hi1 & Hs1 & _).
  assert (Hloop : I (snd (admm_loop (solve_fuel (solve_init qp st)) qp
                                    (solve_init qp st)))).
  { apply (admm_loop_established n m LinearSolver_UpLo ls_factorize ls_solve
             qp I).
    - exact Hbody.
    - intros s k Hs. exact Hs.
    - rewrite Hi1, Hs1. exact Hmax. }
  revert Hloop.
  generalize (snd (admm_loop (solve_fuel (solve_init qp st)) qp
                             (solve_init qp st))).
  intros e He. unfold I in *.
  destruct (solve_finish_frame e) as (_ & _ & -> & _). exact He.
Qed.

(** X9.  The projection leaves a coefficient that is already between its
    bounds where it is, and projecting twice is projecting once, for any
    bounds. *)
Theorem box_projection_fixes_the_box (zv lv uv : vector S) :
  (forall i, (i < m)%nat ->
     (vec lv i <=? vec zv i)%sc = true ->
     (vec zv i <=? vec uv i)%sc = true ->
     vec (box_projection zv lv uv) i = vec zv i) /\
  box_projection (box_projection zv lv uv) lv uv = box_projection zv lv uv.
Proof.
  split.
  - intros i Hi Hl Hu. unfold box_projection.
    rewrite vec_vassign by exact Hi.
    now apply std_clamp_fixed.
  - unfold box_projection. apply vassign_ext. intros i Hi.
    unfold cwiseMin, cwiseMax. rewrite vec_vassign by exact Hi.
    apply std_clamp_fixed.
Qed.

End SolverInvariants.

(** ** The template argument [LinearSolver_UpLo] *)

Section UpLo.
Context {S : Type} `{Scalar S}.
Variables n m : nat.
Variables uplo uplo' : Z.
Context {linear_solver_t : Type}.
Variable ls_compute : linear_solver_t -> matrix S -> linear_solver_t.
Variable ls_factorize : linear_solver_t -> matrix S -> linear_solver_t.
Variable ls_solve : linear_solver_t -> vector S -> vector S.

Let solver : Type := QPSolverSparse S linear_solver_t.

Lemma KKT_mat_update_UpLo (qp : QP.t S) (st : solver) :
  KKT_mat_update n m uplo qp st = KKT_mat_update n m uplo' qp st.
Proof. unfold KKT_mat_update. now rewrite !UpLo_test_true. Qed.

Lemma adaptive_rho_step_UpLo (qp : QP.t S) (c : bool) (st : solver) :
  adaptive_rho_step n m uplo ls_factorize qp c st
  = adaptive_rho_step n m uplo' ls_factorize qp c st.
Proof.
  unfold adaptive_rho_step. cbv zeta. now rewrite !KKT_mat_update_UpLo.
Qed.

Lemma loop_body_UpLo (qp : QP.t S) (st : solver) :
  loop_body n m uplo ls_factorize ls_solve qp st
  = loop_body n m uplo' ls_factorize ls_solve qp st.
Proof.
  unfold loop_body. cbv zeta.
  destruct (termination_step n m qp _ _) as [[|] s]; [|reflexivity].
  now rewrite adaptive_rho_step_UpLo.
Qed.

Lemma admm_loop_UpLo (qp : QP.t S) :
  forall fuel (st : solver),
    admm_loop n m uplo ls_factorize ls_solve fuel qp st
    = admm_loop n m uplo' ls_factorize ls_solve fuel qp st.
Proof.
  induction fuel as [|fuel IH]; intros st; [reflexivity|].
  rewrite !admm_loop_unfold, loop_body_UpLo.
  destruct (iter st <=? Settings.max_iter (_settings st)); [|reflexivity].
  destruct (loop_body n m uplo' ls_factorize ls_solve qp st) as [[|] s];
    [apply IH | reflexivity].
Qed.

Lemma solve_init_UpLo (qp : QP.t S) (st : solver) :
  solve_init n m uplo ls_compute qp st = solve_init n m uplo' ls_compute qp st.
Proof. unfold solve_init. cbv zeta. now rewrite !KKT_mat_update_UpLo. Qed.

(** X15.  The test on [LinearSolver_UpLo] holds for every value of the
    template argument: the class assembles the same matrix and, given the
    same linear solver operations, [solve] returns the same object. *)
Theorem LinearSolver_UpLo_is_not_read (qp : QP.t S) (st : solver) :
  UpLo_test uplo = true /\
  KKT_mat_update n m uplo qp st = KKT_mat_update n m uplo' qp st /\
  solve n m uplo ls_compute ls_factorize ls_solve qp st
  = solve n m uplo' ls_compute ls_factorize ls_solve qp st.
Proof.
  split; [apply UpLo_test_true | split; [apply KKT_mat_update_UpLo|]].
  unfold solve, solve_loop. cbv zeta.
  now rewrite solve_init_UpLo, admm_loop_UpLo.
Qed.

End UpLo.

(** ** Binary64: the clamp of the adaptive penalty *)

(** For every binary64 value, NaN and the infinities included, the clamp
    lies between [RHO_MIN] and [RHO_MAX]. *)
Lemma clamp_rho_binary64 (r : float) :
  (RHO_MIN <=? clamp_rho r)%sc = true /\ (clamp_rho r <=? RHO_MAX)%sc = true.
Proof.
  unfold clamp_rho.
  change ((RHO_MIN <=? F64Scalar.fmax RHO_MIN (F64Scalar.fmin r RHO_MAX))%float
          = true /\
          (F64Scalar.fmax RHO_MIN (F64Scalar.fmin r RHO_MAX) <=? RHO_MAX)%float
          = true).
  assert (Nlo : PrimFloat.is_nan (RHO_MIN : float) = false) by reflexivity.
  assert (Nhi : PrimFloat.is_nan (RHO_MAX : float) = false) by reflexivity.
  assert (Hlh : PrimFloat.leb (RHO_MIN : float) RHO_MAX = true)
    by reflexivity.
  assert (Hll : PrimFloat.leb (RHO_MIN : float) RHO_MIN = true)
    by reflexivity.
  assert (Hhh : PrimFloat.leb (RHO_MAX : float) RHO_MAX = true)
    by reflexivity.
  revert Nlo Nhi Hlh Hll Hhh.
  generalize (RHO_MIN : float) (RHO_MAX : float).
  intros lo hi Nlo Nhi Hlh Hll Hhh.
  assert (Hhi : forall t, t = hi ->
             PrimFloat.leb lo (F64Scalar.fmax lo t) = true /\
             PrimFloat.leb (F64Scalar.fmax lo t) hi = true).
  { intros t ->. unfold F64Scalar.fmax. rewrite Nlo, Nhi.
    destruct (PrimFloat.ltb lo hi); auto. }
  unfold F64Scalar.fmin. destruct (PrimFloat.is_nan r) eqn:Nr.
  { now apply Hhi. }
  rewrite Nhi. destruct (PrimFloat.ltb hi r) eqn:Ehr.
  { now apply Hhi. }
  unfold F64Scalar.fmax. rewrite Nlo, Nr.
  destruct (PrimFloat.ltb lo r) eqn:Elr.
  - split; [now apply F64_lt_le | now apply F64_nlt_le].
  - auto.
Qed.

Section Binary64.
Variables n m : nat.
Variable LinearSolver_UpLo : Z.
Context {linear_solver_t : Type}.
Variable ls_compute : linear_solver_t -> matrix float -> linear_solver_t.
Variable ls_factorize : linear_solver_t -> matrix float -> linear_solver_t.
Variable ls_solve : linear_solver_t -> vector float -> vector float.

(** X10.  With [Scalar = double], NaN and infinite estimates included:
    when [solve] returns, [rho] is the setting it started from or lies
    between 1e-6 and 1e6. *)
Theorem adapted_penalty_in_range
        (qp : QP.t float) (st : QPSolverSparse float linear_solver_t) :
  let r := solve n m LinearSolver_UpLo ls_compute ls_factorize ls_solve
                 qp st in
  rho r = Settings.rho (settings st) \/
  (PrimFloat.leb 1e-6 (rho r) = true /\ PrimFloat.leb (rho r) 1e6 = true).
Proof.
  intros r.
  destruct (solve_rho n m LinearSolver_UpLo ls_compute ls_factorize ls_solve
              qp st) as [E|[x E]].
  - left. exact E.
  - right. unfold r. rewrite E. exact (clamp_rho_binary64 x).
Qed.

End Binary64.

(** ** Exact arithmetic: what the iteration does over the rationals *)

Lemma Qc_one : (s_one : Qc) = 1%Qc.
Proof. apply Qc_is_canon. reflexivity. Qed.

Lemma Qc_nlt_spec (a b : Qc) : s_lt a b = false <-> (b <= a)%Qc.
Proof.
  rewrite <- not_true_iff_false, Qc_lt_spec. split.
  - apply Qcnot_lt_le.
  - intros Hle Hlt. exact (Qclt_not_le _ _ Hlt Hle).
Qed.

(** Comparisons and arithmetic of [Qc] read on the underlying fractions. *)
Ltac qc_to_q :=
  repeat match goal with
         | H : s_lt _ _ = true |- _ => apply Qc_lt_spec in H
         | H : s_lt _ _ = false |- _ => apply Qc_nlt_spec in H
         | H : s_le _ _ = true |- _ => apply Qc_le_spec in H
         | H : s_gt _ _ = true |- _ => apply Qc_lt_spec in H
         | H : s_gt _ _ = false |- _ => apply Qc_nlt_spec in H
         | |- s_lt _ _ = true => apply Qc_lt_spec
         | |- s_lt _ _ = false => apply Qc_nlt_spec
         | |- s_le _ _ = true => apply Qc_le_spec
         | |- s_gt _ _ = true => apply Qc_lt_spec
         | |- @eq Qc _ _ => apply Qc_is_canon
         end;
  unfold Qclt, Qcle, s_zero, s_one in *;
  cbn [s_add s_sub s_mul s_div s_opp s_lit Qc_Scalar] in *;
  unfold Qcminus, Qcplus, Qcopp, Qcmult in *;
  cbn [this Q2Qc] in *;
  rewrite ?Qred_correct in *;
  repeat match goal with
         | |- context [this (QcScalar.lit ?k ?e)] =>
             let v := eval vm_compute in (this (QcScalar.lit k e)) in
             change (this (QcScalar.lit k e)) with v in *
         | H : context [this (QcScalar.lit ?k ?e)] |- _ =>
             let v := eval vm_compute in (this (QcScalar.lit k e)) in
             change (this (QcScalar.lit k e)) with v in *
         end.

(** A row is an equality row exactly when its bounds are closer than
    [RHO_TOL]: the test for loose bounds cannot hold then. *)
Lemma classify_equality (li ui : Qc) :
  classify li ui = EQUALITY_CONSTRAINT <-> (ui - li <? RHO_TOL)%sc = true.
Proof.
  destruct (classify_cases li ui) as (_ & He & _). cbv zeta in He.
  rewrite He. unfold RHO_TOL. split; [tauto|].
  intros Ht. split; [|exact Ht].
  apply andb_false_iff.
  destruct (li <? - s_lit 1 16)%sc eqn:H1; [right | now left].
  destruct (ui >? s_lit 1 16)%sc eqn:H2; [exfalso | reflexivity].
  qc_to_q. lra.
Qed.

Lemma crossed_is_tight (li ui : Qc) :
  (ui <=? li)%sc = true -> (ui - li <? RHO_TOL)%sc = true.
Proof. intros Hle. unfold RHO_TOL. qc_to_q. lra. Qed.

(** The update of a dual coefficient in terms of how far the projection
    moved the corresponding [z]: the dual is nonpositive unless [z] sits on
    its upper bound and nonnegative unless it sits on its lower bound. *)
Lemma dual_of_clamp (yi rho_i rinv ri li ui : Qc) :
  (s_zero <? rho_i)%sc = true -> rinv = (s_one / rho_i)%sc ->
  let v := (ri + rinv * yi)%sc in
  let z' := std_min (std_max v li) ui in
  let y' := (yi + rho_i * (ri - z'))%sc in
  ((z' <? ui)%sc = true -> (y' <=? s_zero)%sc = true) /\
  ((li <? z')%sc = true -> (s_zero <=? y')%sc = true).
Proof.
  intros Hpos Hinv v z' y'.
  assert (Hy : y' = (rho_i * (v - z'))%sc).
  { unfold y', v. generalize z'. intros t. subst rinv.
    rewrite Qc_one. cbn [s_add s_sub s_mul s_div Qc_Scalar].
    apply Qc_lt_spec in Hpos. rewrite Qc_zero in Hpos.
    field. intros E. rewrite E in Hpos. discriminate. }
  rewrite Hy. clear Hy y'. unfold z'. clear z'.
  generalize v. clear v. intros v.
  unfold std_min, std_max.
  destruct (v <? li)%sc eqn:E1; destruct (ui <? li)%sc eqn:E2;
    destruct (ui <? v)%sc eqn:E3; split; intros E4; qc_to_q; nra.
Qed.

Lemma clamp_rho_pos (r : Qc) : (s_zero <? clamp_rho r)%sc = true.
Proof.
  unfold clamp_rho, RHO_MIN. cbn [s_fmax Qc_Scalar]. unfold QcScalar.fmax.
  change (QcScalar.lt ?a ?b) with (s_lt a b).
  destruct (s_lit 1 (-6) <? s_fmin r RHO_MAX)%sc eqn:E; qc_to_q; lra.
Qed.

(** The infinity norm over the rationals: nonnegative, and zero on a zero
    vector. *)
Lemma Qc_abs_nonneg (a : Qc) : (s_zero <=? s_abs a)%sc = true.
Proof.
  cbn [s_abs Qc_Scalar]. unfold QcScalar.abs.
  change (QcScalar.lt a (Q2Qc 0)) with (a <? s_zero)%sc.
  destruct (a <? s_zero)%sc eqn:E; qc_to_q; lra.
Qed.

Lemma maxCoeff_nonneg (k : nat) (b : vexpr Qc) :
  (forall j, (s_zero <=? b j)%sc = true) ->
  (s_zero <=? maxCoeff k b)%sc = true.
Proof.
  intros Hb. destruct k as [|k]; [apply (s_le_refl (S:=Qc))|].
  cbn [maxCoeff]. generalize (Hb O). generalize (b O). generalize (seq 1 k).
  intros l. induction l as [|j l IH]; intros r Hr; [exact Hr|].
  cbn [fold_left]. apply IH. now destruct (b j >? r)%sc.
Qed.

Lemma maxCoeff_zero (k : nat) (b : vexpr Qc) :
  (forall j, (j < k)%nat -> b j = s_zero) -> maxCoeff k b = s_zero.
Proof.
  intros Hb. destruct k as [|k]; [reflexivity|].
  cbn [maxCoeff]. rewrite (Hb O) by lia.
  assert (Hl : forall j, In j (seq 1 k) -> b j = s_zero).
  { intros j Hj. apply in_seq in Hj. apply Hb. lia. }
  revert Hl. generalize (seq 1 k). intros l.
  induction l as [|j l IH]; intros Hl; [reflexivity|].
  cbn [fold_left]. rewrite (Hl j) by now left.
  replace (s_zero >? s_zero)%sc with false by reflexivity.
  apply IH. intros j' Hj'. apply Hl. now right.
Qed.

Lemma lpNorm_Infinity_nonneg (k : nat) (a : vexpr Qc) :
  (s_zero <=? lpNorm_Infinity k a)%sc = true.
Proof.
  unfold lpNorm_Infinity. destruct k; [apply (s_le_refl (S:=Qc))|].
  apply maxCoeff_nonneg. intros j. apply Qc_abs_nonneg.
Qed.

Lemma lpNorm_Infinity_zero (k : nat) (a : vexpr Qc) :
  (forall j, (j < k)%nat -> a j = s_zero) -> lpNorm_Infinity k a = s_zero.
Proof.
  intros Ha. unfold lpNorm_Infinity. destruct k; [reflexivity|].
  apply maxCoeff_zero. intros j Hj. unfold cwiseAbs. now rewrite (Ha j Hj).
Qed.

Lemma Qc_fmax_nonneg (a b : Qc) :
  (s_zero <=? a)%sc = true -> (s_zero <=? b)%sc = true ->
  (s_zero <=? s_fmax a b)%sc = true.
Proof.
  intros Ha Hb. cbn [s_fmax Qc_Scalar]. unfold QcScalar.fmax.
  now destruct (QcScalar.lt a b).
Qed.

Lemma Qc_tolerance_nonneg (eps_abs eps_rel nrm : Qc) :
  (s_zero <=? eps_abs)%sc = true -> (s_zero <=? eps_rel)%sc = true ->
  (s_zero <=? nrm)%sc = true ->
  (s_zero <=? eps_abs + eps_rel * nrm)%sc = true.
Proof. intros Ha Hr Hn. qc_to_q. nra. Qed.

(** Sums over the rationals. *)
Lemma Qc_sum_S (k : nat) (a : vexpr Qc) :
  sum (Datatypes.S k) a = (sum k a + a k)%sc.
Proof.
  destruct k as [|k].
  - cbn [sum seq fold_left]. rewrite Qc_zero. cbn [s_add Qc_Scalar]. ring.
  - cbn [sum]. rewrite seq_S, fold_left_app. reflexivity.
Qed.

Lemma Qc_sum_ext (k : nat) (a b : vexpr Qc) :
  (forall j, (j < k)%nat -> a j = b j) -> sum k a = sum k b.
Proof.
  induction k as [|k IH]; intros Hab; [reflexivity|].
  rewrite !Qc_sum_S, IH, (Hab k) by auto with arith. reflexivity.
Qed.

Lemma Qc_sum_split (a b : nat) (f : vexpr Qc) :
  sum (a + b) f = (sum a f + sum b (fun j => f (a + j)%nat))%sc.
Proof.
  induction b as [|b IH].
  - rewrite Nat.add_0_r. cbn [sum]. rewrite Qc_zero.
    cbn [s_add Qc_Scalar]. ring.
  - rewrite Nat.add_succ_r, !Qc_sum_S, IH. cbn [s_add Qc_Scalar]. ring.
Qed.

(** A sum whose terms vanish except at [i]. *)
Lemma Qc_sum_single (k i : nat) (c : Qc) (f : vexpr Qc) :
  (i < k)%nat ->
  sum k (fun j => ((if Nat.eqb i j then c else s_zero) * f j)%sc)
  = (c * f i)%sc.
Proof.
  intros Hi. induction k as [|k IH]; [lia|].
  rewrite Qc_sum_S.
  destruct (Nat.eqb_spec i k) as [->|Hne].
  - assert (Hz : sum k (fun j => ((if Nat.eqb k j then c else s_zero)
                                  * f j)%sc) = s_zero).
    { clear IH Hi.
      assert (G : forall k', (k' <= k)%nat ->
                 sum k' (fun j => ((if Nat.eqb k j then c else s_zero)
                                   * f j)%sc) = s_zero).
      { induction k' as [|k' IH']; intros Hle; [reflexivity|].
        rewrite Qc_sum_S, IH' by lia.
        replace (Nat.eqb k k') with false
          by (symmetry; apply Nat.eqb_neq; lia).
        rewrite Qc_zero. cbn [s_add s_mul Qc_Scalar]. ring. }
      now apply G. }
    rewrite Hz, Qc_zero. cbn [s_add s_mul Qc_Scalar]. ring.
  - rewrite IH by lia.
    replace (Nat.eqb i k) with false by (symmetry; now apply Nat.eqb_neq).
    rewrite Qc_zero. cbn [s_add s_mul Qc_Scalar]. ring.
Qed.

Section ExactArithmetic.
Variables n m : nat.
Variable LinearSolver_UpLo : Z.
Context {linear_solver_t : Type}.
Variable ls_compute : linear_solver_t -> matrix Qc -> linear_solver_t.
Variable ls_factorize : linear_solver_t -> matrix Qc -> linear_solver_t.
Variable ls_solve : linear_solver_t -> vector Qc -> vector Qc.

Let solver : Type := QPSolverSparse Qc linear_solver_t.

Local Abbreviation form_KKT_rhs := (form_KKT_rhs n m).
Local Abbreviation constr_type_init := (constr_type_init m).
Local Abbreviation admm_update := (admm_update n m ls_solve).
Local Abbreviation loop_body :=
  (loop_body n m LinearSolver_UpLo ls_factorize ls_solve).
Local Abbreviation admm_loop :=
  (admm_loop n m LinearSolver_UpLo ls_factorize ls_solve).
Local Abbreviation solve_init :=
  (solve_init n m LinearSolver_UpLo ls_compute).
Local Abbreviation solve :=
  (solve n m LinearSolver_UpLo ls_compute ls_factorize ls_solve).
Local Abbreviation in_step :=
  (in_step n m LinearSolver_UpLo ls_compute ls_factorize).

Lemma solve_init_rho (qp : QP.t Qc) (st : solver) :
  rho (solve_init qp st) = Settings.rho (_settings st).
Proof.
  unfold solve_init. cbv zeta.
  now destruct (negb (Settings.warm_start (_settings st))).
Qed.

(** X11.  Over the rationals a row is an equality row exactly when
    [u i - l i < 1e-4]; in particular a row with [u i <= l i], crossed
    bounds included, is one, and [solve] starts it with the penalty
    [1e3 * settings.rho]. *)
Theorem crossed_bounds_are_equalities
        (qp : QP.t Qc) (st : solver) (i : nat) :
  (i < m)%nat ->
  let l := vec (QP.l qp) i in
  let u := vec (QP.u qp) i in
  let c := coeff INEQUALITY_CONSTRAINT (constr_type (solve qp st)) i in
  (c = EQUALITY_CONSTRAINT <-> (u - l <? s_lit 1 (-4))%sc = true) /\
  ((u <=? l)%sc = true ->
   c = EQUALITY_CONSTRAINT /\
   vec (rho_vec (solve_init qp st)) i
   = (s_lit 1 3 * Settings.rho (settings st))%sc).
Proof.
  intros Hi l u c.
  assert (Hc : c = classify l u).
  { unfold c.
    rewrite (solve_constr_type n m LinearSolver_UpLo ls_compute ls_factorize
               ls_solve).
    now apply constr_type_init_coeff. }
  split.
  - rewrite Hc. apply classify_equality.
  - intros Hle. apply crossed_is_tight in Hle.
    apply classify_equality in Hle.
    split; [now rewrite Hc|].
    destruct (solve_init_in_step n m LinearSolver_UpLo ls_compute
                ls_factorize qp st) as (Hrho & _).
    destruct (Hrho i Hi) as [Hv _]. rewrite Hv.
    rewrite solve_init_rho.
    rewrite (solve_init_constr_type n m LinearSolver_UpLo ls_compute).
    rewrite (constr_type_init_coeff m) by exact Hi.
    fold l u. now rewrite Hle.
Qed.

(** X12.  With [alpha = 1] the relaxation drops out: [x] is the linear
    solver's answer and [z], [y] are updated from [z_tilde] alone. *)
Theorem plain_admm_at_alpha_one (qp : QP.t Qc) (st : solver) :
  Settings.alpha (settings st) = s_one ->
  let st' := admm_update qp st in
  x st' = x_tilde st' /\
  (forall i, (i < m)%nat ->
     vec (z st') i
     = std_min
         (std_max (vec (z_tilde st') i
                   + vec (rho_inv_vec st) i * vec (y st) i)%sc
                  (vec (QP.l qp) i))
         (vec (QP.u qp) i) /\
     vec (y st') i
     = (vec (y st) i
        + vec (rho_vec st) i * (vec (z_tilde st') i - vec (z st') i))%sc).
Proof.
  intros Ha st'. unfold settings in Ha.
  assert (R : forall a b : Qc, (s_one * a + (s_one - s_one) * b)%sc = a).
  { intros a b. rewrite Qc_one. cbn [s_add s_sub s_mul Qc_Scalar]. ring. }
  split.
  - destruct (admm_update_vectors n m ls_solve qp st)
      as (_ & T & _ & X & _).
    cbv zeta in T, X. unfold st'. rewrite X, T, Ha.
    apply vassign_ext. intros i Hi. unfold vadd, vscale.
    now rewrite R, vec_vassign.
  - intros i Hi.
    destruct (admm_update_components n m ls_solve qp st) as (_ & Hz).
    cbv zeta in Hz. destruct (Hz i Hi) as (_ & Zt & Zi & Yi).
    fold st' in Zt, Zi, Yi. rewrite Ha, R in Zi, Yi. rewrite <- Zt in Zi, Yi.
    split; assumption.
Qed.

(** The members [solve] starts from on a newly constructed object, and the
    first right-hand side it hands to the linear solver. *)
Lemma solve_init_vectors (qp : QP.t Qc) (st : solver) :
  x (solve_init qp st)
  = (if Settings.warm_start (_settings st) then x st else vassign n Zero) /\
  z (solve_init qp st)
  = (if Settings.warm_start (_settings st) then z st else vassign m Zero) /\
  y (solve_init qp st)
  = (if Settings.warm_start (_settings st) then y st else vassign m Zero).
Proof.
  unfold solve_init. cbv zeta.
  destruct (Settings.warm_start (_settings st)); repeat split; reflexivity.
Qed.

(** X13.  With [settings.rho > 0], whatever [warm_start] says, the first
    [solve] on a newly constructed object starts from [x = 0], [z = 0],
    [y = 0] and from positive penalties with [rho_inv_vec] their inverses,
    and the first right-hand side it builds is [-q] stacked on zeros. *)
Theorem first_system_of_a_new_solver (qp : QP.t Qc) (raw : solver) :
  (s_zero <? Settings.rho (settings raw))%sc = true ->
  let s0 := solve_init qp (QPSolverSparse_new n m raw) in
  primal_solution s0 = vassign n Zero /\ z s0 = vassign m Zero /\
  dual_solution s0 = vassign m Zero /\
  (forall i, (i < m)%nat ->
     (s_zero <? vec (rho_vec s0) i)%sc = true /\
     (vec (rho_inv_vec s0) i * vec (rho_vec s0) i)%sc = s_one) /\
  (forall i, (i < n)%nat ->
     vec (form_KKT_rhs qp s0 []) i = (- vec (QP.q qp) i)%sc) /\
  (forall i, (i < m)%nat ->
     vec (form_KKT_rhs qp s0 []) (n + i)%nat = s_zero).
Proof.
  intros Hrho s0. unfold primal_solution, dual_solution.
  assert (Hpen : forall i, (i < m)%nat ->
             (s_zero <? vec (rho_vec s0) i)%sc = true /\
             (vec (rho_inv_vec s0) i * vec (rho_vec s0) i)%sc = s_one).
  { intros i Hi.
    destruct (solve_init_in_step n m LinearSolver_UpLo ls_compute
                ls_factorize qp (QPSolverSparse_new n m raw)) as (Hv & _).
    destruct (Hv i Hi) as [Ev Ei]. fold s0 in Ev, Ei.
    assert (Hpos : (s_zero <? vec (rho_vec s0) i)%sc = true).
    { rewrite Ev. apply rho_of_pos. unfold s0. rewrite solve_init_rho.
      exact Hrho. }
    split; [exact Hpos|]. rewrite Ei.
    revert Hpos. generalize (vec (rho_vec s0) i). intros a Ha.
    apply Qc_lt_spec in Ha. rewrite Qc_zero in Ha. rewrite Qc_one.
    cbn [s_mul s_div Qc_Scalar]. field.
    intros E. rewrite E in Ha. exact (Qclt_not_eq _ _ Ha eq_refl). }
  destruct (solve_init_vectors qp (QPSolverSparse_new n m raw))
    as (Hx & Hz & Hy).
  fold s0 in Hx, Hz, Hy.
  assert (Ex : x s0 = vassign n Zero).
  { rewrite Hx. now destruct (Settings.warm_start _). }
  assert (Ez : z s0 = vassign m Zero).
  { rewrite Hz. now destruct (Settings.warm_start _). }
  assert (Ey : y s0 = vassign m Zero).
  { rewrite Hy. now destruct (Settings.warm_start _). }
  split; [exact Ex | split; [exact Ez | split; [exact Ey|]]].
  split; [exact Hpen|]. clear Hpen.
  destruct (KKT_blocks n m LinearSolver_UpLo qp s0 [])
    as (_ & _ & _ & _ & _ & _ & _ & _ & Hh & Ht).
  cbv zeta in Hh, Ht. clearbody s0.
  split.
  - intros i Hi. rewrite (Hh i Hi), Ex, vec_vassign by exact Hi.
    unfold Zero. rewrite Qc_zero. cbn [s_sub s_mul s_opp Qc_Scalar]. ring.
  - intros i Hi. rewrite (Ht i Hi), Ez, Ey, !vec_vassign by exact Hi.
    unfold Zero. rewrite Qc_zero. cbn [s_sub s_mul Qc_Scalar]. ring.
Qed.

(** The penalty stays positive and in step with the classification. *)
Lemma loop_body_keeps_penalty_positive (qp : QP.t Qc) (s : solver) :
  in_step qp s /\ (s_zero <? rho s)%sc = true ->
  in_step qp (snd (loop_body qp s)) /\
  (s_zero <? rho (snd (loop_body qp s)))%sc = true.
Proof.
  intros [HI Hpos]. split.
  - now apply loop_body_in_step.
  - destruct (loop_body_rho n m LinearSolver_UpLo ls_factorize ls_solve qp s)
      as [E|[r E]]; rewrite E; [exact Hpos | apply clamp_rho_pos].
Qed.

Lemma admm_update_dual_sign (qp : QP.t Qc) (s : solver) (i : nat) :
  in_step qp s -> (s_zero <? rho s)%sc = true -> (i < m)%nat ->
  ((vec (z (admm_update qp s)) i <? vec (QP.u qp) i)%sc = true ->
   (vec (y (admm_update qp s)) i <=? s_zero)%sc = true) /\
  ((vec (QP.l qp) i <? vec (z (admm_update qp s)) i)%sc = true ->
   (s_zero <=? vec (y (admm_update qp s)) i)%sc = true).
Proof.
  intros (Hrho & _) Hpos Hi.
  destruct (Hrho i Hi) as [Hv Hinv].
  assert (Hvpos : (s_zero <? vec (rho_vec s) i)%sc = true).
  { rewrite Hv. now apply rho_of_pos. }
  destruct (admm_update_components n m ls_solve qp s) as (_ & Hz).
  cbv zeta in Hz. destruct (Hz i Hi) as (_ & _ & Zi & Yi).
  rewrite Yi, Zi.
  exact (dual_of_clamp _ _ _ _ _ _ Hvpos Hinv).
Qed.

(** X14.  With [rho > 0] and at least one pass, the dual that [solve]
    returns is nonpositive in every row whose [z] is below its upper bound
    and nonnegative in every row whose [z] is above its lower bound; it
    vanishes in the rows strictly between their bounds. *)
Theorem returned_dual_sign (qp : QP.t Qc) (st : solver) (i : nat) :
  (s_zero <? Settings.rho (settings st))%sc = true ->
  1 <= Settings.max_iter (settings st) ->
  (i < m)%nat ->
  let r := solve qp st in
  let zi := vec (z r) i in
  let yi := vec (dual_solution r) i in
  ((zi <? vec (QP.u qp) i)%sc = true -> (yi <=? s_zero)%sc = true) /\
  ((vec (QP.l qp) i <? zi)%sc = true -> (s_zero <=? yi)%sc = true) /\
  ((vec (QP.l qp) i <? zi)%sc = true ->
   (zi <? vec (QP.u qp) i)%sc = true -> yi = s_zero).
Proof.
  intros Hpos Hmax Hi r zi yi. unfold settings in Hpos, Hmax.
  unfold dual_solution in yi.
  set (K := fun s : solver =>
              ((vec (z s) i <? vec (QP.u qp) i)%sc = true ->
               (vec (y s) i <=? s_zero)%sc = true) /\
              ((vec (QP.l qp) i <? vec (z s) i)%sc = true ->
               (s_zero <=? vec (y s) i)%sc = true)).
  assert (HK : K r).
  { unfold r. rewrite (solve_unfold n m LinearSolver_UpLo ls_compute
                         ls_factorize ls_solve).
    destruct (solve_init_frame n m LinearSolver_UpLo ls_compute qp st)
      as (Hi1 & Hs1 & _).
    assert (Hloop : K (snd (admm_loop (solve_fuel (solve_init qp st)) qp
                                      (solve_init qp st)))).
    { apply (admm_loop_established_from n m LinearSolver_UpLo ls_factorize
               ls_solve qp
               (fun s => in_step qp s /\ (s_zero <? rho s)%sc = true) K).
      - intros s HJ. split; [now apply loop_body_keeps_penalty_positive|].
        unfold K.
        destruct (loop_body_frame n m LinearSolver_UpLo ls_factorize ls_solve
                    qp s) as (_ & _ & _ & _ & Hz & Hy).
        rewrite Hz, Hy. destruct HJ as [HI Hp].
        now apply admm_update_dual_sign.
      - intros s k [HI Hp]. split; [|exact Hp].
        now apply in_step_set_iter.
      - intros s k Hs. exact Hs.
      - split; [apply solve_init_in_step|]. now rewrite solve_init_rho.
      - rewrite Hi1, Hs1. exact Hmax. }
    revert Hloop.
    generalize (snd (admm_loop (solve_fuel (solve_init qp st)) qp
                               (solve_init qp st))).
    intros e He. unfold K in *.
    destruct (solve_finish_frame e) as (_ & _ & -> & -> & _). exact He. }
  unfold zi, yi. clearbody r. destruct HK as [Hu Hl].
  split; [exact Hu | split; [exact Hl|]].
  intros H1 H2. specialize (Hu H2). specialize (Hl H1).
  apply Qc_le_spec in Hu, Hl. now apply Qcle_antisym.
Qed.

(** X16.  An iterate that satisfies [A x = z] and [P x + q + A^T y = 0]
    exactly has zero residuals and passes the termination test for any
    nonnegative tolerances, zero included: the test is [<=]. *)
Theorem exact_solution_passes_the_test (qp : QP.t Qc) (st : solver) :
  (forall i, (i < m)%nat -> Ax n qp st i = vec (z st) i) ->
  (forall i, (i < n)%nat ->
     (Px n qp st i + vec (QP.q qp) i + ATy m qp st i)%sc = s_zero) ->
  (s_zero <=? Settings.eps_abs (settings st))%sc = true ->
  (s_zero <=? Settings.eps_rel (settings st))%sc = true ->
  let st' := update_state n m qp st in
  Info.res_prim (info st') = s_zero /\ Info.res_dual (info st') = s_zero /\
  termination_criteria n m qp st' = true.
Proof.
  intros Hp Hd Ha Hr st'. unfold settings in Ha, Hr. unfold info.
  destruct (update_state_res n m qp st) as (Rp & Rd & _).
  fold st' in Rp, Rd.
  assert (Ep : residual_prim n m qp st = s_zero).
  { unfold residual_prim. apply lpNorm_Infinity_zero. intros i Hi.
    unfold vsub. rewrite (Hp i Hi). rewrite Qc_zero.
    cbn [s_sub Qc_Scalar]. ring. }
  assert (Ed : residual_dual n m qp st = s_zero).
  { unfold residual_dual. apply lpNorm_Infinity_zero. intros i Hi.
    unfold vadd. exact (Hd i Hi). }
  split; [now rewrite Rp | split; [now rewrite Rd|]].
  unfold st'. rewrite termination_criteria_update_state, Ep, Ed.
  apply andb_true_iff. split.
  - unfold eps_prim. cbv zeta.
    apply Qc_tolerance_nonneg; try assumption.
    apply Qc_fmax_nonneg; apply lpNorm_Infinity_nonneg.
  - unfold eps_dual. cbv zeta.
    apply Qc_tolerance_nonneg; try assumption.
    apply Qc_fmax_nonneg; [|apply Qc_fmax_nonneg];
      apply lpNorm_Infinity_nonneg.
Qed.

(** X17.  If the linear solver's answer satisfies the last [m] rows of the
    system with the matrix the object holds, [z_tilde] is [A x_tilde]: that
    is what [z_prev + rho_inv * (nu - y)] computes. *)
Theorem z_tilde_is_A_x_tilde (qp : QP.t Qc) (st : solver) :
  kkt_mat st = kkt_mat (KKT_mat_update n m LinearSolver_UpLo qp st) ->
  let rhs := form_KKT_rhs qp st [] in
  let w := ls_solve (linear_solver st) rhs in
  (forall i, (i < m)%nat ->
     mat_vec (n + m) (mat (kkt_mat st)) (vec w) (n + i)%nat
     = vec rhs (n + i)%nat) ->
  let st' := admm_update qp st in
  forall i, (i < m)%nat ->
    vec (z_tilde st') i = mat_vec n (mat (QP.A qp)) (vec (x_tilde st')) i.
Proof.
  intros Hk rhs w Hsolve st' i Hi.
  specialize (Hsolve i Hi). rewrite Hk in Hsolve.
  destruct (KKT_blocks n m LinearSolver_UpLo qp st [])
    as (_ & Hbr & Hbl & _ & _ & _ & _ & _ & _ & Hrhs).
  cbv zeta in Hbr, Hbl, Hrhs.
  destruct (admm_update_components n m ls_solve qp st) as (Hx & Hz).
  cbv zeta in Hx, Hz. destruct (Hz i Hi) as (_ & Zt & _).
  fold rhs w st' in Zt, Hx. fold rhs in Hrhs.
  assert (HA : mat_vec n (mat (QP.A qp)) (vec (x_tilde st')) i
               = sum n (fun j => (mat (QP.A qp) i j * vec w j)%sc)).
  { unfold mat_vec. apply Qc_sum_ext. intros j Hj.
    now rewrite (proj1 (Hx j Hj)). }
  unfold mat_vec in Hsolve. rewrite Qc_sum_split in Hsolve.
  rewrite (Qc_sum_ext n _ (fun j => (mat (QP.A qp) i j * vec w j)%sc))
    in Hsolve by (intros j Hj; now rewrite (Hbl i j Hi Hj)).
  rewrite (Qc_sum_ext m _
             (fun j => ((if Nat.eqb i j
                         then s_lit (-1) 0 * vec (rho_inv_vec st) i
                         else s_zero) * vec w (n + j)%nat)%sc))
    in Hsolve by (intros j Hj; now rewrite (Hbr i j Hi Hj)).
  rewrite (Qc_sum_single m i _ (fun j => vec w (n + j)%nat) Hi) in Hsolve.
  rewrite (Hrhs i Hi) in Hsolve.
  rewrite HA, Zt. revert Hsolve.
  generalize (sum n (fun j => (mat (QP.A qp) i j * vec w j)%sc)).
  generalize (vec w (n + i)%nat) (vec (rho_inv_vec st) i)
             (vec (z st) i) (vec (y st) i).
  intros wn r zi yi sg Hsolve.
  replace (s_lit (-1) 0 : Qc) with (Qcopp 1%Qc) in Hsolve
    by (apply Qc_is_canon; reflexivity).
  cbn [s_add s_sub s_mul Qc_Scalar] in *.
  assert (E : sg = (zi - r * yi - - (1) * r * wn)%Qc)
    by (rewrite <- Hsolve; ring).
  rewrite E. ring.
Qed.

End ExactArithmetic.


(** ** The theorems at concrete inputs *)

Lemma qp_box_bounds_ordered : bounds_ordered 2 qp_box.
Proof.
  intros i Hi. destruct i as [|[|i]]; [reflexivity | reflexivity | lia].
Defined.

(** Outside the specification's data model, with crossed bounds, the
    pass clamps to [u] where [max(l, min(u, z))] gives [l]. *)
Lemma admm_update_crossed_bounds :
  map this (z (admm_update_Q 1 1 qp_crossed st_crossed_first)) = [0%Q] /\
  map this
      (z (spec_admm_update 1 1 DenseSolver.solve qp_crossed st_crossed_first))
  = [1%Q] /\
  z (admm_update_Q 1 1 qp_crossed st_crossed_first)
  <> z (spec_admm_update 1 1 DenseSolver.solve qp_crossed st_crossed_first).
Proof.
  assert (Ha : map this (z (admm_update_Q 1 1 qp_crossed st_crossed_first))
               = [0%Q]) by (vm_compute; reflexivity).
  assert (Hs : map this
                   (z (spec_admm_update 1 1 DenseSolver.solve
                                        qp_crossed st_crossed_first))
               = [1%Q]) by (vm_compute; reflexivity).
  split; [exact Ha | split; [exact Hs|]].
  intros E.
  assert (X : [1%Q] = [0%Q]) by (rewrite <- Hs, <- Ha; now rewrite E).
  discriminate X.
Qed.


(** The equality problem, tested in every pass, is solved in exact
    arithmetic. *)
Lemma solved_within_tolerances_witness :
  Info.status
    (_info (solve_Q 2 1 qp_equality (fresh 2 1 settings_check_each)))
  = Info.SOLVED /\
  Info.res_prim
    (_info (solve_Q 2 1 qp_equality (fresh 2 1 settings_check_each)))
  = residual_prim 2 1 qp_equality
      (solve_Q 2 1 qp_equality (fresh 2 1 settings_check_each)).
Proof.
  assert (Hs : Info.status
                 (_info (solve_Q 2 1 qp_equality (fresh 2 1 settings_check_each)))
               = Info.SOLVED) by (vm_compute; reflexivity).
  split; [exact Hs|].
  exact (proj1 (proj2 (proj2
           (solved_within_tolerances 2 1 Eigen_Lower
              DenseSolver.compute DenseSolver.factorize DenseSolver.solve
              qp_equality (fresh 2 1 settings_check_each) Hs)))).
Defined.

Lemma qp_box_F_bounds_ordered : bounds_ordered 2 qp_box_F.
Proof.
  intros i Hi. destruct i as [|[|i]]; [reflexivity | reflexivity | lia].
Defined.

Lemma qp_overflow_F_bounds_ordered : bounds_ordered 1 qp_overflow_F.
Proof.
  intros i Hi. destruct i as [|i]; [reflexivity | lia].
Defined.

(** Three passes on the box problem leave [z] in the box, over the
    rationals; one pass in binary64 leaves every coefficient in the box or
    NaN. *)
Lemma z_within_bounds_witness :
  bounds_ordered 2 qp_box /\
  1 <= Settings.max_iter (_settings (fresh 2 2 settings_three)) /\
  within_bounds 2 qp_box (z (solve_Q 2 2 qp_box (fresh 2 2 settings_three))) /\
  bounds_ordered 2 qp_box_F /\
  1 <= Settings.max_iter (_settings (fresh 2 2 settings_one_F)) /\
  within_bounds_or_nan 2 qp_box_F
    (z (solve_F 2 2 qp_box_F (fresh 2 2 settings_one_F))).
Proof.
  assert (Hm : 1 <= Settings.max_iter (_settings (fresh 2 2 settings_three)))
    by (vm_compute; discriminate).
  assert (Hf : 1 <= Settings.max_iter (_settings (fresh 2 2 settings_one_F)))
    by (vm_compute; discriminate).
  split; [exact qp_box_bounds_ordered | split; [exact Hm|]].
  split.
  - exact (proj2 (proj2
             (proj1 z_within_bounds Qc Qc_Scalar Qc_ScalarLaws 2%nat 2%nat
                Eigen_Lower _
                DenseSolver.compute DenseSolver.factorize DenseSolver.solve
                qp_box (fresh 2 2 settings_three) qp_box_bounds_ordered)) Hm).
  - split; [exact qp_box_F_bounds_ordered | split; [exact Hf|]].
    exact (proj1 (proj2 (proj2
             (proj2 z_within_bounds 2%nat 2%nat Eigen_Lower _
                DenseSolver.compute DenseSolver.factorize DenseSolver.solve
                qp_box_F (fresh 2 2 settings_one_F)
                qp_box_F_bounds_ordered))) Hf).
Defined.

(** In binary64, on a problem with finite entries and [l <= u] and with
    valid settings, the first pass overflows and the second leaves NaN in
    [z]: the [z] that [solve] returns after two passes is not between [l]
    and [u]. *)
Lemma z_leaves_the_box_in_binary64 :
  bounds_ordered 1 qp_overflow_F /\
  invalid_problem 1 qp_overflow_F = false /\
  forallb PrimFloat.is_finite
          (concat (QP.P qp_overflow_F) ++ QP.q qp_overflow_F
           ++ concat (QP.A qp_overflow_F)
           ++ QP.l qp_overflow_F ++ QP.u qp_overflow_F) = true /\
  invalid_settings settings_two_F = false /\
  z (solve_F 1 1 qp_overflow_F (fresh 1 1 settings_one_F)) = [0.5%float] /\
  PrimFloat.is_nan
    (vec (z (solve_F 1 1 qp_overflow_F (fresh 1 1 settings_two_F))) 0%nat)
  = true /\
  ~ within_bounds 1 qp_overflow_F
      (z (solve_F 1 1 qp_overflow_F (fresh 1 1 settings_two_F))).
Proof.
  split; [exact qp_overflow_F_bounds_ordered|].
  split; [vm_compute; reflexivity|].
  split; [vm_compute; reflexivity|].
  split; [vm_compute; reflexivity|].
  split; [vm_compute; reflexivity|].
  split; [vm_compute; reflexivity|].
  intros W. destruct (W 0%nat ltac:(lia)) as [W1 _].
  vm_compute in W1. discriminate.
Qed.

(** The row [x1 + x2 = 1] is an equality row. *)
Lemma constr_type_classification_witness :
  (0 < 1)%nat /\
  coeff INEQUALITY_CONSTRAINT
        (constr_type (solve_Q 2 1 qp_equality (fresh 2 1 settings_three))) 0
  = EQUALITY_CONSTRAINT.
Proof.
  assert (H01 : (0 < 1)%nat) by lia.
  split; [exact H01|].
  apply (proj2 (proj1 (proj2
           (constr_type_classification 2 1 Eigen_Lower
              DenseSolver.compute DenseSolver.factorize DenseSolver.solve
              qp_equality (fresh 2 1 settings_three) 0%nat H01)))).
  split; vm_compute; reflexivity.
Defined.

(** With [rho0 = 1/10] an equality row gets the penalty [1e3 / 10]. *)
Lemma rho_update_schedule_witness :
  (s_zero <? QcD 1 10)%sc = true /\
  (0 < 3)%nat /\
  vec (rho_vec (rho_update 3 (QcD 1 10) st_three_rows)) 0%nat
  = (s_lit 1 3 * QcD 1 10)%sc /\
  (s_zero <? vec (rho_vec (rho_update 3 (QcD 1 10) st_three_rows)) 0%nat)%sc
  = true.
Proof.
  assert (Hpos : (s_zero <? QcD 1 10)%sc = true) by (vm_compute; reflexivity).
  assert (H03 : (0 < 3)%nat) by lia.
  split; [exact Hpos | split; [exact H03|]].
  pose proof (rho_update_schedule 3 (QcD 1 10) st_three_rows 0%nat Hpos H03)
    as T.
  split; [exact (proj1 T) | exact (proj1 (proj2 (proj2 T)))].
Defined.

(** Two coefficients of the lower right block of the box problem's KKT
    matrix. *)
Lemma KKT_system_blocks_witness :
  mat (kkt_mat (KKT_mat_update 2 2 Eigen_Lower qp_box st_box_first)) 2%nat 2%nat
  = (- vec (rho_inv_vec st_box_first) 0%nat)%sc /\
  mat (kkt_mat (KKT_mat_update 2 2 Eigen_Lower qp_box st_box_first)) 3%nat 2%nat
  = s_zero.
Proof.
  pose proof (KKT_system_blocks 2 2 Eigen_Lower qp_box st_box_first [])
    as (_ & T & Td & _).
  split.
  - exact (Td Qc_ScalarLaws 0%nat ltac:(lia)).
  - exact (T 1%nat 0%nat ltac:(lia) ltac:(lia)).
Defined.




(** An input with invalid settings ([max_iter = 0]) and one with an invalid
    problem ([l > u]): [solve] returns normally from both with the solver
    state overwritten. *)
Lemma solve_overwrites_on_invalid_input :
  ~ (forall (qp : QP.t Qc) (st : solver_Q),
       invalid_settings (_settings st) = true \/ invalid_problem 2 qp = true ->
       solve_Q 2 2 qp st = st) /\
  ~ (forall (qp : QP.t Qc) (st : solver_Q),
       invalid_settings (_settings st) = true \/ invalid_problem 1 qp = true ->
       solve_Q 1 1 qp st = st).
Proof.
  assert (Hset : invalid_settings (_settings (fresh 2 2 settings_no_iter))
                 = true) by (vm_compute; reflexivity).
  assert (Hpb : invalid_problem 1 qp_crossed = true)
    by (vm_compute; reflexivity).
  split; intros Hrej.
  - specialize (Hrej qp_box (fresh 2 2 settings_no_iter) (or_introl Hset)).
    apply (f_equal (fun s => Info.iter (_info s))) in Hrej.
    vm_compute in Hrej. discriminate.
  - specialize (Hrej qp_crossed (fresh 1 1 settings_three) (or_intror Hpb)).
    apply (f_equal (fun s => Info.iter (_info s))) in Hrej.
    vm_compute in Hrej. discriminate.
Qed.

(** No pass allowed: the initialized state is returned with the counter
    at 1. *)
Lemma solve_runs_on_any_input_witness :
  defined_run (_settings (fresh 2 2 settings_no_iter)) /\
  invalid_settings (_settings (fresh 2 2 settings_no_iter)) = true /\
  Settings.max_iter (_settings (fresh 2 2 settings_no_iter)) < 1 /\
  Info.status (_info (solve_Q 2 2 qp_box (fresh 2 2 settings_no_iter)))
  = Info.MAX_ITER /\
  Info.iter (_info (solve_Q 2 2 qp_box (fresh 2 2 settings_no_iter))) = 1.
Proof.
  assert (Hd : defined_run (_settings (fresh 2 2 settings_no_iter)))
    by (split; [reflexivity | intros _; discriminate]).
  assert (Hm : Settings.max_iter (_settings (fresh 2 2 settings_no_iter)) < 1)
    by (vm_compute; reflexivity).
  split; [exact Hd | split; [vm_compute; reflexivity | split; [exact Hm|]]].
  destruct (solve_runs_on_any_input 2 2 Eigen_Lower
              DenseSolver.compute DenseSolver.factorize DenseSolver.solve
              qp_box (fresh 2 2 settings_no_iter) Hd)
    as (_ & _ & _ & _ & _ & _ & _ & _ & T & _).
  exact (proj2 (T Hm)).
Defined.

(** The second pass of the adaptive run on the equality problem, in
    binary64, changes [rho] from 0.1 to about 70.5: the lower right
    coefficient of the KKT matrix becomes [-1.0 / (1e3 * rho)] for the new
    [rho], and the linear solver factorizes the new matrix. *)
Lemma adaptive_rho_cadence_witness :
  rho (snd (loop_body_F 2 1 qp_equality_F st_adaptive_second_F))
  <> rho st_adaptive_second_F /\
  Settings.adaptive_rho (_settings st_adaptive_second_F) = true /\
  Z.rem (iter st_adaptive_second_F)
        (Settings.adaptive_rho_interval (_settings st_adaptive_second_F)) = 0 /\
  mat (kkt_mat (snd (loop_body_F 2 1 qp_equality_F st_adaptive_second_F)))
      2%nat 2%nat
  = (s_lit (-1) 0
     * (s_one
        / rho_of (rho (snd (loop_body_F 2 1 qp_equality_F
                                        st_adaptive_second_F)))
                 EQUALITY_CONSTRAINT))%sc /\
  linear_solver (snd (loop_body_F 2 1 qp_equality_F st_adaptive_second_F))
  = DenseSolver.factorize (linear_solver st_adaptive_second_F)
      (kkt_mat (snd (loop_body_F 2 1 qp_equality_F st_adaptive_second_F))) /\
  PrimFloat.eqb
    (mat (kkt_mat (snd (loop_body_F 2 1 qp_equality_F st_adaptive_second_F)))
         2%nat 2%nat)
    (mat (kkt_mat st_adaptive_second_F) 2%nat 2%nat) = false.
Proof.
  assert (Hne : rho (snd (loop_body_F 2 1 qp_equality_F st_adaptive_second_F))
                <> rho st_adaptive_second_F).
  { intros E.
    apply (f_equal (fun v => PrimFloat.eqb v (rho st_adaptive_second_F))) in E.
    vm_compute in E. discriminate. }
  assert (Hct : coeff INEQUALITY_CONSTRAINT
                      (constr_type st_adaptive_second_F) 0%nat
                = EQUALITY_CONSTRAINT) by (vm_compute; reflexivity).
  split; [exact Hne|].
  pose proof (proj2 (proj2
                (adaptive_rho_cadence 2 1 Eigen_Lower
                   DenseSolver.factorize DenseSolver.solve
                   qp_equality_F st_adaptive_second_F)) (or_introl Hne)) as T.
  cbv beta zeta in T.
  destruct T as (T1 & T2 & _ & T4 & _ & _ & _ & T8 & _ & _ & _ & T12).
  split; [exact T1 | split; [exact T2|]].
  split.
  - pose proof (T8 0%nat 0%nat ltac:(lia) ltac:(lia)) as E.
    rewrite <- T4 in E.
    match type of E with
    | context [coeff ?d (constr_type ?s) ?k] =>
        replace (coeff d (constr_type s) k) with EQUALITY_CONSTRAINT in E
          by (symmetry; exact Hct)
    end.
    cbn [Nat.add Nat.eqb] in E. exact E.
  - split; [exact T12 | vm_compute; reflexivity].
Defined.



(** An exit by [break] in binary64: the third termination test. *)
Lemma solved_on_a_checked_pass_witness :
  Info.status (info (solve_F 2 2 qp_box_F (fresh 2 2 Settings.default)))
  = Info.SOLVED /\
  Z.rem (Info.iter (info (solve_F 2 2 qp_box_F (fresh 2 2 Settings.default))))
        (Settings.check_termination
           (settings (solve_F 2 2 qp_box_F (fresh 2 2 Settings.default)))) = 0.
Proof.
  assert (Hs : Info.status
                 (info (solve_F 2 2 qp_box_F (fresh 2 2 Settings.default)))
               = Info.SOLVED) by (vm_compute; reflexivity).
  split; [exact Hs|].
  exact (proj1 (proj2
           (proj1 (proj2
              (solved_on_a_checked_pass 2 2 Eigen_Lower
                 DenseSolver.compute DenseSolver.factorize DenseSolver.solve
                 qp_box_F (fresh 2 2 Settings.default))) Hs))).
Defined.

(** The assembly on the box problem does not read the old matrix. *)
Lemma KKT_mat_update_overwrites_witness :
  Settings.sigma (settings st_box_first)
  = Settings.sigma (settings (set_kkt_mat st_box_first [[QcZ 7]])) /\
  rho_inv_vec st_box_first = rho_inv_vec (set_kkt_mat st_box_first [[QcZ 7]]) /\
  kkt_mat (KKT_mat_update 2 2 Eigen_Lower qp_box st_box_first)
  = kkt_mat (KKT_mat_update 2 2 Eigen_Lower qp_box
               (set_kkt_mat st_box_first [[QcZ 7]])).
Proof.
  assert (Hs : Settings.sigma (settings st_box_first)
               = Settings.sigma (settings (set_kkt_mat st_box_first [[QcZ 7]])))
    by (vm_compute; reflexivity).
  assert (Hr : rho_inv_vec st_box_first
               = rho_inv_vec (set_kkt_mat st_box_first [[QcZ 7]]))
    by (vm_compute; reflexivity).
  split; [exact Hs | split; [exact Hr|]].
  exact (proj1
           (KKT_mat_update_overwrites 2 2 Eigen_Lower qp_box st_box_first
              (set_kkt_mat st_box_first [[QcZ 7]]) Hs Hr)).
Defined.

Lemma qp_box_P_symmetric :
  forall i j, (i < 2)%nat -> (j < 2)%nat ->
    mat (QP.P qp_box) i j = mat (QP.P qp_box) j i.
Proof.
  intros i j Hi Hj.
  destruct i as [|[|i]], j as [|[|j]]; try lia; reflexivity.
Defined.

(** The box problem's matrix: the coefficient of [A^T] in row 0 is the
    coefficient of [A] in column 0. *)
Lemma KKT_matrix_symmetric_witness :
  (forall i j, (i < 2)%nat -> (j < 2)%nat ->
     mat (QP.P qp_box) i j = mat (QP.P qp_box) j i) /\
  (0 < 2 + 2)%nat /\ (2 < 2 + 2)%nat /\
  mat (kkt_mat (KKT_mat_update 2 2 Eigen_Lower qp_box st_box_first))
      0%nat 2%nat
  = mat (kkt_mat (KKT_mat_update 2 2 Eigen_Lower qp_box st_box_first))
        2%nat 0%nat.
Proof.
  assert (H0 : (0 < 2 + 2)%nat) by (cbn; lia).
  assert (H2 : (2 < 2 + 2)%nat) by (cbn; lia).
  split; [exact qp_box_P_symmetric | split; [exact H0 | split; [exact H2|]]].
  exact (KKT_matrix_symmetric 2 2 Eigen_Lower qp_box st_box_first
           qp_box_P_symmetric 0%nat 2%nat H0 H2).
Defined.

(** A coefficient off the diagonal of the lower right block. *)
Lemma KKT_penalty_on_diagonal_only_witness :
  (2 < 2 + 2)%nat /\ (3 < 2 + 2)%nat /\
  ((2 < 2)%nat \/ (3 < 2)%nat \/ 2%nat <> 3%nat) /\
  mat (kkt_mat (KKT_mat_update 2 2 Eigen_Lower qp_box
                  (rho_update 2 (QcZ 5) st_box_first))) 2%nat 3%nat
  = mat (kkt_mat (KKT_mat_update 2 2 Eigen_Lower qp_box st_box_first))
        2%nat 3%nat.
Proof.
  assert (H2 : (2 < 2 + 2)%nat) by (cbn; lia).
  assert (H3 : (3 < 2 + 2)%nat) by (cbn; lia).
  assert (Hd : (2 < 2)%nat \/ (3 < 2)%nat \/ 2%nat <> 3%nat)
    by (right; right; discriminate).
  split; [exact H2 | split; [exact H3 | split; [exact Hd|]]].
  exact (KKT_penalty_on_diagonal_only 2 2 Eigen_Lower qp_box st_box_first
           (QcZ 5) 2%nat 3%nat H2 H3 Hd).
Defined.

(** A warm start on the box problem from two objects that differ in the
    members [solve] does not initialize. *)
Lemma solve_reads_no_stale_member_witness :
  settings st_warm = settings st_warm_stale /\
  linear_solver st_warm = linear_solver st_warm_stale /\
  Settings.warm_start (settings st_warm) = true /\
  x st_warm = x st_warm_stale /\ z st_warm = z st_warm_stale /\
  y st_warm = y st_warm_stale /\
  kkt_mat st_warm <> kkt_mat st_warm_stale /\
  primal_solution (solve_Q 2 2 qp_box st_warm)
  = primal_solution (solve_Q 2 2 qp_box st_warm_stale) /\
  Info.iter (info (solve_Q 2 2 qp_box st_warm))
  = Info.iter (info (solve_Q 2 2 qp_box st_warm_stale)).
Proof.
  assert (Hs : settings st_warm = settings st_warm_stale)
    by (vm_compute; reflexivity).
  assert (Hl : linear_solver st_warm = linear_solver st_warm_stale)
    by (vm_compute; reflexivity).
  assert (Ht : Settings.warm_start (settings st_warm) = true)
    by (vm_compute; reflexivity).
  assert (Hx : x st_warm = x st_warm_stale) by (vm_compute; reflexivity).
  assert (Hz : z st_warm = z st_warm_stale) by (vm_compute; reflexivity).
  assert (Hy : y st_warm = y st_warm_stale) by (vm_compute; reflexivity).
  assert (Hk : kkt_mat st_warm <> kkt_mat st_warm_stale)
    by (vm_compute; discriminate).
  split; [exact Hs | split; [exact Hl | split; [exact Ht|]]].
  split; [exact Hx | split; [exact Hz | split; [exact Hy|]]].
  split; [exact Hk|].
  pose proof (solve_reads_no_stale_member 2 2 Eigen_Lower
                DenseSolver.compute DenseSolver.factorize DenseSolver.solve
                qp_box st_warm st_warm_stale Hs Hl
                (fun _ => conj Hx (conj Hz Hy))) as T.
  split; [exact (proj1 T) | exact (proj1 (proj2 (proj2 (proj2 (proj2 T)))))].
Defined.

(** With crossed bounds the projection returns the upper bound, and so does
    [solve]. *)
Lemma box_projection_upper_bound_wins_witness :
  (0 < 1)%nat /\
  (vec (QP.u qp_crossed) 0%nat <? vec (QP.l qp_crossed) 0%nat)%sc = true /\
  1 <= Settings.max_iter (_settings (fresh 1 1 settings_three)) /\
  vec (box_projection 1 [QcZ 5] (QP.l qp_crossed) (QP.u qp_crossed)) 0%nat
  = vec (QP.u qp_crossed) 0%nat /\
  vec (z (solve_Q 1 1 qp_crossed (fresh 1 1 settings_three))) 0%nat
  = vec (QP.u qp_crossed) 0%nat.
Proof.
  assert (H01 : (0 < 1)%nat) by lia.
  assert (Hc : (vec (QP.u qp_crossed) 0%nat
                <? vec (QP.l qp_crossed) 0%nat)%sc = true)
    by (vm_compute; reflexivity).
  assert (Hm : 1 <= Settings.max_iter (_settings (fresh 1 1 settings_three)))
    by (vm_compute; discriminate).
  split; [exact H01 | split; [exact Hc | split; [exact Hm|]]].
  pose proof (box_projection_upper_bound_wins 1 1 Eigen_Lower
                DenseSolver.compute DenseSolver.factorize DenseSolver.solve
                qp_crossed (fresh 1 1 settings_three) [QcZ 5] 0%nat H01) as T.
  split.
  - exact (proj1 (proj2 T) Hc).
  - exact (proj2 (proj2 (proj2 T) Hm) Hc).
Defined.

(** A point of the box is left where it is. *)
Lemma box_projection_fixes_the_box_witness :
  (0 < 2)%nat /\
  (vec (QP.l qp_box) 0%nat <=? vec [QcD 1 4; QcD 1 4] 0%nat)%sc = true /\
  (vec [QcD 1 4; QcD 1 4] 0%nat <=? vec (QP.u qp_box) 0%nat)%sc = true /\
  vec (box_projection 2 [QcD 1 4; QcD 1 4] (QP.l qp_box) (QP.u qp_box)) 0%nat
  = vec [QcD 1 4; QcD 1 4] 0%nat.
Proof.
  assert (H02 : (0 < 2)%nat) by lia.
  assert (Hl : (vec (QP.l qp_box) 0%nat
                <=? vec [QcD 1 4; QcD 1 4] 0%nat)%sc = true)
    by (vm_compute; reflexivity).
  assert (Hu : (vec [QcD 1 4; QcD 1 4] 0%nat
                <=? vec (QP.u qp_box) 0%nat)%sc = true)
    by (vm_compute; reflexivity).
  split; [exact H02 | split; [exact Hl | split; [exact Hu|]]].
  exact (proj1 (box_projection_fixes_the_box 2 [QcD 1 4; QcD 1 4]
                  (QP.l qp_box) (QP.u qp_box)) 0%nat H02 Hl Hu).
Defined.

(** The crossed row is an equality row with penalty [1e3 / 10]. *)
Lemma crossed_bounds_are_equalities_witness :
  (0 < 1)%nat /\
  (vec (QP.u qp_crossed) 0%nat <=? vec (QP.l qp_crossed) 0%nat)%sc = true /\
  coeff INEQUALITY_CONSTRAINT
        (constr_type (solve_Q 1 1 qp_crossed (fresh 1 1 settings_three))) 0
  = EQUALITY_CONSTRAINT /\
  vec (rho_vec (solve_init_Q 1 1 qp_crossed (fresh 1 1 settings_three))) 0%nat
  = (s_lit 1 3 * Settings.rho (settings (fresh 1 1 settings_three)))%sc.
Proof.
  assert (H01 : (0 < 1)%nat) by lia.
  assert (Hc : (vec (QP.u qp_crossed) 0%nat
                <=? vec (QP.l qp_crossed) 0%nat)%sc = true)
    by (vm_compute; reflexivity).
  split; [exact H01 | split; [exact Hc|]].
  exact (proj2 (crossed_bounds_are_equalities 1 1 Eigen_Lower
                  DenseSolver.compute DenseSolver.factorize DenseSolver.solve
                  qp_crossed (fresh 1 1 settings_three) 0%nat H01) Hc).
Defined.

(** The first pass on the box problem, whose settings have [alpha = 1]. *)
Lemma plain_admm_at_alpha_one_witness :
  Settings.alpha (settings st_box_first) = s_one /\
  x (admm_update_Q 2 2 qp_box st_box_first)
  = x_tilde (admm_update_Q 2 2 qp_box st_box_first).
Proof.
  assert (Ha : Settings.alpha (settings st_box_first) = s_one)
    by (apply Qc_is_canon; vm_compute; reflexivity).
  split; [exact Ha|].
  exact (proj1 (plain_admm_at_alpha_one 2 2 DenseSolver.solve
                  qp_box st_box_first Ha)).
Defined.

(** Three passes on the box problem: the first row of [z] is above its
    lower bound and its multiplier is nonnegative. *)
Lemma returned_dual_sign_witness :
  (s_zero <? Settings.rho (settings (fresh 2 2 settings_three)))%sc = true /\
  1 <= Settings.max_iter (settings (fresh 2 2 settings_three)) /\
  (0 < 2)%nat /\
  (vec (QP.l qp_box) 0%nat
   <? vec (z (solve_Q 2 2 qp_box (fresh 2 2 settings_three))) 0%nat)%sc
  = true /\
  (s_zero
   <=? vec (dual_solution (solve_Q 2 2 qp_box (fresh 2 2 settings_three)))
           0%nat)%sc = true.
Proof.
  assert (Hr : (s_zero
                <? Settings.rho (settings (fresh 2 2 settings_three)))%sc
               = true) by (vm_compute; reflexivity).
  assert (Hm : 1 <= Settings.max_iter (settings (fresh 2 2 settings_three)))
    by (vm_compute; discriminate).
  assert (H02 : (0 < 2)%nat) by lia.
  assert (Hl : (vec (QP.l qp_box) 0%nat
                <? vec (z (solve_Q 2 2 qp_box (fresh 2 2 settings_three)))
                       0%nat)%sc = true) by (vm_compute; reflexivity).
  split; [exact Hr | split; [exact Hm | split; [exact H02|]]].
  split; [exact Hl|].
  exact (proj1 (proj2
           (returned_dual_sign 2 2 Eigen_Lower
              DenseSolver.compute DenseSolver.factorize DenseSolver.solve
              qp_box (fresh 2 2 settings_three) 0%nat Hr Hm H02)) Hl).
Defined.

Lemma st_box_optimal_primal :
  forall i, (i < 2)%nat ->
    Ax 2 qp_box st_box_optimal i = vec (z st_box_optimal) i.
Proof.
  intros i Hi.
  destruct i as [|[|i]]; try lia; apply Qc_is_canon; vm_compute; reflexivity.
Defined.

Lemma st_box_optimal_dual :
  forall i, (i < 2)%nat ->
    (Px 2 qp_box st_box_optimal i + vec (QP.q qp_box) i
     + ATy 2 qp_box st_box_optimal i)%sc = s_zero.
Proof.
  intros i Hi.
  destruct i as [|[|i]]; try lia; apply Qc_is_canon; vm_compute; reflexivity.
Defined.

(** The solution of the box problem with its multipliers passes the test
    of the default settings. *)
Lemma exact_solution_passes_the_test_witness :
  (s_zero <=? Settings.eps_abs (settings st_box_optimal))%sc = true /\
  (s_zero <=? Settings.eps_rel (settings st_box_optimal))%sc = true /\
  termination_criteria 2 2 qp_box (update_state 2 2 qp_box st_box_optimal)
  = true.
Proof.
  assert (Ha : (s_zero <=? Settings.eps_abs (settings st_box_optimal))%sc
               = true) by (vm_compute; reflexivity).
  assert (Hr : (s_zero <=? Settings.eps_rel (settings st_box_optimal))%sc
               = true) by (vm_compute; reflexivity).
  split; [exact Ha | split; [exact Hr|]].
  exact (proj2 (proj2
           (exact_solution_passes_the_test 2 2 qp_box st_box_optimal
              st_box_optimal_primal st_box_optimal_dual Ha Hr))).
Defined.

Lemma st_box_first_solved :
  forall i, (i < 2)%nat ->
    mat_vec (2 + 2) (mat (kkt_mat st_box_first))
      (vec (DenseSolver.solve (linear_solver st_box_first)
              (form_KKT_rhs 2 2 qp_box st_box_first [])))
      (2 + i)%nat
    = vec (form_KKT_rhs 2 2 qp_box st_box_first []) (2 + i)%nat.
Proof.
  intros i Hi.
  destruct i as [|[|i]]; try lia; apply Qc_is_canon; vm_compute; reflexivity.
Defined.

(** The first pass on the box problem, whose system the dense solver
    solves exactly. *)
Lemma z_tilde_is_A_x_tilde_witness :
  kkt_mat st_box_first
  = kkt_mat (KKT_mat_update 2 2 Eigen_Lower qp_box st_box_first) /\
  (forall i, (i < 2)%nat ->
     mat_vec (2 + 2) (mat (kkt_mat st_box_first))
       (vec (DenseSolver.solve (linear_solver st_box_first)
               (form_KKT_rhs 2 2 qp_box st_box_first [])))
       (2 + i)%nat
     = vec (form_KKT_rhs 2 2 qp_box st_box_first []) (2 + i)%nat) /\
  (0 < 2)%nat /\
  vec (z_tilde (admm_update_Q 2 2 qp_box st_box_first)) 0%nat
  = mat_vec 2 (mat (QP.A qp_box))
      (vec (x_tilde (admm_update_Q 2 2 qp_box st_box_first))) 0%nat.
Proof.
  assert (Hk : kkt_mat st_box_first
               = kkt_mat (KKT_mat_update 2 2 Eigen_Lower qp_box st_box_first))
    by (vm_compute; reflexivity).
  assert (H02 : (0 < 2)%nat) by lia.
  split; [exact Hk | split; [exact st_box_first_solved | split]].
  { exact H02. }
  exact (z_tilde_is_A_x_tilde 2 2 Eigen_Lower DenseSolver.solve
           qp_box st_box_first Hk st_box_first_solved 0%nat H02).
Defined.

(** The first system of a new solver on the box problem: positive
    penalties, zeros below [-q]. *)
Lemma first_system_of_a_new_solver_witness :
  (s_zero <? Settings.rho (settings (fresh 2 2 settings_three)))%sc = true /\
  (vec (rho_inv_vec
          (solve_init_Q 2 2 qp_box
             (QPSolverSparse_new 2 2 (fresh 2 2 settings_three)))) 0%nat
   * vec (rho_vec
            (solve_init_Q 2 2 qp_box
               (QPSolverSparse_new 2 2 (fresh 2 2 settings_three)))) 0%nat)%sc
  = s_one /\
  vec (form_KKT_rhs 2 2 qp_box
         (solve_init_Q 2 2 qp_box
            (QPSolverSparse_new 2 2 (fresh 2 2 settings_three))) [])
      2%nat
  = s_zero.
Proof.
  assert (Hr : (s_zero <? Settings.rho (settings (fresh 2 2 settings_three)))%sc
               = true) by (vm_compute; reflexivity).
  split; [exact Hr|].
  pose proof (first_system_of_a_new_solver 2 2 Eigen_Lower
                DenseSolver.compute DenseSolver.factorize
                qp_box (fresh 2 2 settings_three) Hr) as T.
  cbv zeta in T. destruct T as (_ & _ & _ & Tp & _ & Tt).
  split.
  - exact (proj2 (Tp 0%nat ltac:(lia))).
  - exact (Tt 0%nat ltac:(lia)).
Defined.

(** ** Runs in binary64 *)

(** With [adaptive_rho] set and [adaptive_rho_interval = 0] the first pass
    of the machine's run traps on [iter % 0]. *)
Example f64_interval_zero :
  solve_int 2 2 Eigen_Lower
    DenseSolver.compute DenseSolver.factorize DenseSolver.solve
    3 qp_box_F (fresh 2 2 (with_adaptive_rho Settings.default 0))
  = Trapped.
Proof. vm_compute. reflexivity. Qed.

(** The box problem with the default settings converges to the upper
    bounds, at the third termination test. *)
Example f64_box_solved :
  Info.status (_info (solve_F 2 2 qp_box_F (fresh 2 2 Settings.default)))
  = Info.SOLVED /\
  Info.iter (_info (solve_F 2 2 qp_box_F (fresh 2 2 Settings.default))) = 75 /\
  z (solve_F 2 2 qp_box_F (fresh 2 2 Settings.default)) = [0.5; 0.5]%float /\
  forallb (fun xi => PrimFloat.ltb (PrimFloat.abs (xi - 0.5)) 1e-3)%float
          (x (solve_F 2 2 qp_box_F (fresh 2 2 Settings.default))) = true.
Proof. vm_compute. repeat split; reflexivity. Qed.

(** With one iteration allowed the iterates returned are finite. *)
Example f64_box_max_iter_one :
  forallb PrimFloat.is_finite
          (x (solve_F 2 2 qp_box_F (fresh 2 2 settings_one_F))
           ++ y (solve_F 2 2 qp_box_F (fresh 2 2 settings_one_F))
           ++ z (solve_F 2 2 qp_box_F (fresh 2 2 settings_one_F))) = true.
Proof. vm_compute. reflexivity. Qed.

(** The KKT matrix that run factorizes: [sigma = 1e-6] on the diagonal of
    [P], [-1 / rho = -10] in the lower right block. *)
Example f64_box_kkt :
  kkt_mat (solve_F 2 2 qp_box_F (fresh 2 2 settings_one_F))
  = [[1.000001; 0; 1; 0]; [0; 1.000001; 0; 1];
     [1; 0; -10; 0]; [0; 1; 0; -10]]%float.
Proof. vm_compute. reflexivity. Qed.
